(** * GraphLearning: a shallow embedding of the graph SSL solver engine

    The development follows [graphlearning.py].  NumPy arrays are lists,
    array indices and vertex ids are integers ([Z]), floating point
    quantities are taken in exact rational arithmetic ([Q]), and a Python
    exception is a value of the [result] monad.  [ProjectToSimplex] is
    given a second time in binary64 arithmetic, where its rounding shows.
    SciPy and NumPy library calls are modelled by the small functions of
    the first part, each with the behaviour of the library call it stands
    for. *)

From Stdlib Require Import PrimFloat.
From Stdlib Require Import ZArith QArith Qminmax Qabs Lia Lqa.
From stdpp Require Import prelude sorting.

Open Scope Z_scope.

(** ** Exceptions and unbounded loops *)

Inductive exn : Type := IndexError | ValueError | SystemExit.

Inductive result (A : Type) : Type :=
  | Ok (a : A)
  | Raise (e : exn)
  | OutOfFuel.
Arguments Ok {A} a.
Arguments Raise {A} e.
Arguments OutOfFuel {A}.

#[global] Instance result_ret : MRet result := fun _ a => Ok a.
#[global] Instance result_bind : MBind result := fun _ _ k m =>
  match m with
  | Ok a => k a
  | Raise e => Raise e
  | OutOfFuel => OutOfFuel
  end.

(** ** NumPy arrays *)

(** Integer indexing: an index in [[-len, 0)] counts from the end, anything
    outside [[-len, len)] raises [IndexError]. *)
Definition np_index {A} (a : list A) (i : Z) : result nat :=
  let n := Z.of_nat (length a) in
  if decide (0 ≤ i < n) then Ok (Z.to_nat i)
  else if decide (- n ≤ i < 0) then Ok (Z.to_nat (n + i))
  else Raise IndexError.

Definition np_get {A} (a : list A) (i : Z) : result A :=
  k ← np_index a i;
  match a !! k with
  | Some x => Ok x
  | None => Raise IndexError
  end.

Definition np_set {A} (a : list A) (i : Z) (x : A) : result (list A) :=
  k ← np_index a i; Ok (<[k := x]> a).

(** [a[I]] and [a[I] = g] for an index array [I]; the assignment goes
    through the indices in order, so a repeated index keeps the last value. *)
Fixpoint np_take {A} (a : list A) (I : list Z) : result (list A) :=
  match I with
  | [] => Ok []
  | i :: I' => x ← np_get a i; r ← np_take a I'; Ok (x :: r)
  end.

Fixpoint np_put {A} (a : list A) (I : list Z) (g : list A) : result (list A) :=
  match I, g with
  | [], [] => Ok a
  | i :: I', x :: g' => a' ← np_set a i x; np_put a' I' g'
  | _, _ => Raise ValueError
  end.

(** [a[lo:hi]]: slice bounds never raise, they are wrapped and clamped. *)
Definition np_bound (n i : Z) : Z :=
  if decide (i < 0) then Z.max 0 (n + i) else Z.min i n.

Definition np_slice {A} (a : list A) (lo hi : Z) : list A :=
  let n := Z.of_nat (length a) in
  let lo' := np_bound n lo in
  let hi' := np_bound n hi in
  take (Z.to_nat (hi' - lo')) (drop (Z.to_nat lo') a).

(** Comparison of keys. *)
Definition Qltb (x y : Q) : bool := negb (Qle_bool y x).

(** ** The indexed binary heap

    [d] = values in heap (indexed by graph vertex), [h] = heap (indices of
    graph elements, slot 0 unused), [p] = pointers from graph back to heap,
    [s] = number of elements in heap.  The Python functions update [h] and
    [p] in place; here they return the updated pair. *)

Definition half (i : Z) : Z := Z.quot i 2.   (* int(i/2) *)

Fixpoint SiftUp_loop (fuel : nat) (d : list Q) (h p : list Z) (i pi : Z)
  : result (list Z * list Z) :=
  if decide (pi = 0) then Ok (h, p) else
  match fuel with
  | O => OutOfFuel
  | S fuel =>
    hpi ← np_get h pi; dpi ← np_get d hpi;
    hi ← np_get h i; di ← np_get d hi;
    if Qltb di dpi then
      (* swap in heap *)
      h ← np_set h pi hi;
      h ← np_set h i hpi;
      (* update pointers to heap *)
      hi' ← np_get h i; p ← np_set p hi' i;
      hpi' ← np_get h pi; p ← np_set p hpi' pi;
      SiftUp_loop fuel d h p pi (half pi)
    else Ok (h, p)
  end.

Definition SiftUp (d : list Q) (h : list Z) (s : Z) (p : list Z) (i : Z)
  : result (list Z * list Z) :=
  SiftUp_loop (Z.abs_nat i) d h p i (half i).

Fixpoint SiftDown_loop (fuel : nat) (d : list Q) (h : list Z) (s : Z)
    (p : list Z) (i ci : Z) : result (list Z * list Z) :=
  if decide (ci ≤ s) then
    match fuel with
    | O => OutOfFuel
    | S fuel =>
      (* choose smallest child; the bound is tested after the lookups *)
      hc1 ← np_get h (ci + 1); dc1 ← np_get d hc1;
      hc ← np_get h ci; dc ← np_get d hc;
      let ci := if Qltb dc1 dc && bool_decide (ci + 1 ≤ s) then ci + 1 else ci in
      hc ← np_get h ci; dc ← np_get d hc;
      hi ← np_get h i; di ← np_get d hi;
      if Qltb dc di then
        h ← np_set h ci hi;
        h ← np_set h i hc;
        hi' ← np_get h i; p ← np_set p hi' i;
        hc' ← np_get h ci; p ← np_set p hc' ci;
        SiftDown_loop fuel d h s p ci (2 * ci)
      else Ok (h, p)
    end
  else Ok (h, p).

Definition SiftDown (d : list Q) (h : list Z) (s : Z) (p : list Z) (i : Z)
  : result (list Z * list Z) :=
  SiftDown_loop (S (Z.to_nat s)) d h s p i (2 * i).

(** Returns index of smallest and size of new heap. *)
Definition PopHeap (d : list Q) (h : list Z) (s : Z) (p : list Z)
  : result (list Z * list Z * Z * Z) :=
  i ← np_get h 1;
  hs ← np_get h s;
  h ← np_set h 1 hs;
  h1 ← np_get h 1; p ← np_set p h1 1;
  '(h, p) ← SiftDown d h (s - 1) p 1;
  Ok (h, p, i, s - 1).

Definition PushHeap (d : list Q) (h : list Z) (s : Z) (p : list Z) (i : Z)
  : result (list Z * list Z * Z) :=
  h ← np_set h (s + 1) i;
  p ← np_set p i (s + 1);
  '(h, p) ← SiftUp d h (s + 1) p (s + 1);
  Ok (h, p, s + 1).

(** ** Matrices and the SciPy sparse interface

    A matrix is the list of its rows.  A sparse matrix has the entries of
    the dense one; what depends on which entries are stored is modelled on
    the coordinate triplets returned by [sparse.find]. *)

Abbreviation matrix := (list (list Q)).

Definition nrows (W : matrix) : nat := length W.
Definition ncols (W : matrix) : nat :=
  match W with [] => O | r :: _ => length r end.
Definition entry (W : matrix) (i j : nat) : Q :=
  default 0%Q (W !! i ≫= λ r : list Q, r !! j).

Definition Qnonzero (x : Q) : bool := negb (Qeq_bool x 0).

(** [sparse.find(W)]: row indices, column indices and values of the
    nonzero entries, ordered by column and then by row (the order of the
    coordinate format after [sum_duplicates], which [nearestneighbor]
    relies on when it reads the column starts off [WJ]). *)
Definition find_cell (W : matrix) (j i : nat) : list (Z * Z * Q) :=
  if Qnonzero (entry W i j) then [(Z.of_nat i, Z.of_nat j, entry W i j)] else [].
Definition find_triplets (W : matrix) : list (Z * Z * Q) :=
  j ← seq 0 (ncols W); i ← seq 0 (nrows W); find_cell W j i.
Definition sparse_find (W : matrix) : list Z * list Z * list Q :=
  let trip := find_triplets W in
  (trip.*1.*1, trip.*1.*2, trip.*2).

(** [np.unique]: the sorted distinct values. *)
Fixpoint insert_unique (x : Z) (l : list Z) : list Z :=
  match l with
  | [] => [x]
  | y :: l' =>
    if decide (x < y) then x :: l
    else if decide (x = y) then l
    else y :: insert_unique x l'
  end.

Definition np_unique (l : list Z) : list Z := foldr insert_unique [] l.

(** ** Label utilities *)

(** [L[L==a] = b] *)
Definition assign_where (a b : Z) (L : list Z) : list Z :=
  (λ x, if decide (x = a) then b else x) <$> L.

(** [for i in range(k): L[L==labels[i]] = i], on the caller's array. *)
Fixpoint relabel (i : Z) (labels : list Z) (L : list Z) : list Z :=
  match labels with
  | [] => L
  | a :: labels' => relabel (i + 1) labels' (assign_where a i L)
  end.

(** [X = np.zeros((k,n)); X[L,range(n)] = 1] *)
Fixpoint row_indices (k : nat) (L : list Z) : result (list nat) :=
  match L with
  | [] => Ok []
  | x :: L' => c ← np_index (replicate k ()) x; cs ← row_indices k L'; Ok (c :: cs)
  end.

Definition one_hot (k : nat) (L : list Z) : result matrix :=
  cs ← row_indices k L;
  Ok ((λ c, (λ ct, if decide (ct = c) then 1%Q else 0%Q) <$> (cs : list nat))
        <$> seq 0 k).

(** Takes list of labels and converts to vertices of simplex format.
    Returns [X], [labels] and, third, the content of the argument array
    after the call: the loop writes into the caller's array, [astype]
    makes the copy that indexes [X]. *)
Definition LabelsToVec (L : list Z) : result (matrix * list Z * list Z) :=
  let labels := np_unique L in
  let k := length labels in
  let L := relabel 0 labels L in
  X ← one_hot k L;
  Ok (X, labels, L).

(** ** Nearest neighbor classifier (graph geodesic distance) *)

Record dijkstra : Type := Dijkstra {
  dj_d : list Q;      (* distance function *)
  dj_l : list Z;      (* index of closest label *)
  dj_s : Z;           (* size of heap *)
  dj_h : list Z;      (* active points heap *)
  dj_A : list bool;   (* active flag *)
  dj_p : list Z;      (* pointer back to heap *)
  dj_V : list bool    (* finalized flag *)
}.

(** [(WJ[1:] - WJ[:-1]).nonzero()], counted from position [t]. *)
Fixpoint nonzero_diff (t : Z) (WJ : list Z) : list Z :=
  match WJ with
  | a :: (b :: _) as r =>
    if decide (b - a = 0) then nonzero_diff (t + 1) r
    else t :: nonzero_diff (t + 1) r
  | _ => []
  end.

Definition column_starts (WJ : list Z) : list Z :=
  0 :: ((λ t, t + 1) <$> nonzero_diff 0 WJ) ++ [Z.of_nat (length WJ)].

Definition inf_dist : Q := 10000000000.   (* 1e10 *)

Definition dijkstra_init (n : nat) : dijkstra :=
  {| dj_d := replicate n inf_dist;
     dj_l := replicate n (-1);
     dj_s := 0;
     dj_h := replicate (S n) (-1);
     dj_A := replicate n false;
     dj_p := replicate n (-1);
     dj_V := replicate n false |}.

(** Build active points heap and set distance = 0 for initial points. *)
Definition push_source (st : dijkstra) (Ii : Z) : result dijkstra :=
  '(h, p, s) ← PushHeap (dj_d st) (dj_h st) (dj_s st) (dj_p st) Ii;
  d ← np_set (dj_d st) Ii 0%Q;
  A ← np_set (dj_A st) Ii true;
  l ← np_set (dj_l st) Ii Ii;
  Ok {| dj_d := d; dj_l := l; dj_s := s; dj_h := h; dj_A := A; dj_p := p;
        dj_V := dj_V st |}.

(** The body of [for j in WI[K[i]:K[i+1]]]. *)
Definition update_neighbor (WV : list Q) (i : Z) (st : dijkstra) (j : Z)
  : result dijkstra :=
  if decide (j = i) then Ok st else
  Vj ← np_get (dj_V st) j;
  if (Vj : bool) then Ok st else
  Aj ← np_get (dj_A st) j;
  if (Aj : bool) then
    (* j is already active *)
    di ← np_get (dj_d st) i; wj ← np_get WV j;
    let tmp_dist := (di + wj)%Q in
    dj ← np_get (dj_d st) j;
    if Qltb tmp_dist dj then
      d ← np_set (dj_d st) j tmp_dist;
      pj ← np_get (dj_p st) j;
      '(h, p) ← SiftUp d (dj_h st) (dj_s st) (dj_p st) pj;
      li ← np_get (dj_l st) i; l ← np_set (dj_l st) j li;
      Ok {| dj_d := d; dj_l := l; dj_s := dj_s st; dj_h := h; dj_A := dj_A st;
            dj_p := p; dj_V := dj_V st |}
    else Ok st
  else
    (* add to heap and initialize distance, active flag, and label index *)
    '(h, p, s) ← PushHeap (dj_d st) (dj_h st) (dj_s st) (dj_p st) j;
    di ← np_get (dj_d st) i; wj ← np_get WV j;
    d ← np_set (dj_d st) j (di + wj)%Q;
    A ← np_set (dj_A st) j true;
    li ← np_get (dj_l st) i; l ← np_set (dj_l st) j li;
    Ok {| dj_d := d; dj_l := l; dj_s := s; dj_h := h; dj_A := A; dj_p := p;
          dj_V := dj_V st |}.

Fixpoint for_each {S A} (body : S → A → result S) (st : S) (xs : list A)
  : result S :=
  match xs with
  | [] => Ok st
  | x :: xs' => st' ← body st x; for_each body st' xs'
  end.

(** [while s > 0: ...] *)
Fixpoint dijkstra_loop (fuel : nat) (WI K : list Z) (WV : list Q)
    (st : dijkstra) : result dijkstra :=
  if decide (dj_s st > 0) then
    match fuel with
    | O => OutOfFuel
    | S fuel =>
      '(h, p, i, s) ← PopHeap (dj_d st) (dj_h st) (dj_s st) (dj_p st);
      (* finalize this point *)
      V ← np_set (dj_V st) i true;
      A ← np_set (dj_A st) i false;
      let st := {| dj_d := dj_d st; dj_l := dj_l st; dj_s := s; dj_h := h;
                   dj_A := A; dj_p := p; dj_V := V |} in
      (* update neighbors *)
      Ki ← np_get K i; Ki1 ← np_get K (i + 1);
      st ← for_each (update_neighbor WV i) st (np_slice WI Ki Ki1);
      dijkstra_loop fuel WI K WV st
    end
  else Ok st.

(** The portable path of [nearestneighbor], up to the closest-label index
    [l]. *)
Definition dijkstra_python (W : matrix) (I : list Z) : result dijkstra :=
  let n := nrows W in
  let '(WI, WJ, WV) := sparse_find W in
  let K := column_starts WJ in
  st ← for_each push_source (dijkstra_init n) I;
  dijkstra_loop (n + length I) WI K WV st.

(** Set labels based on nearest neighbor. *)
Definition labels_of_nearest (n : nat) (I g l : list Z) : result matrix :=
  u ← np_put (replicate n 0) I g;
  ul ← np_take u l;
  '(X, _, _) ← LabelsToVec ul;
  Ok X.

(** ** Dense linear algebra *)

Definition Qsum (x : list Q) : Q := foldr Qplus 0%Q x.
Definition dot (x y : list Q) : Q := Qsum (zip_with Qmult x y).
Definition vec_add (x y : list Q) : list Q := zip_with Qplus x y.
Definition vec_sub (x y : list Q) : list Q := zip_with Qminus x y.
Definition vec_scale (a : Q) (x : list Q) : list Q := Qmult a <$> x.

Definition column (X : matrix) (j : nat) : list Q :=
  (λ r : list Q, default 0%Q (r !! j)) <$> X.
(** The [n] columns of a matrix, and the matrix with given columns of
    length [k]: both are [np.transpose]. *)
Definition columns (n : nat) (X : matrix) : list (list Q) :=
  column X <$> seq 0 n.
Definition transpose (X : matrix) : matrix := columns (ncols X) X.

Definition mat_vec (A : matrix) (x : list Q) : list Q := (λ r, dot r x) <$> A.
Definition mat_mul (A B : matrix) : matrix :=
  (λ r, dot r <$> columns (ncols B) B) <$> A.
Definition mat_add (A B : matrix) : matrix := zip_with vec_add A B.
Definition mat_sub (A B : matrix) : matrix := zip_with vec_sub A B.
Definition mat_scale (a : Q) (A : matrix) : matrix := vec_scale a <$> A.

(** [sparse.spdiags(x,0,n,n)] and [sparse.identity(n)] *)
Definition diag (x : list Q) : matrix :=
  imap (λ i xi, (λ j, if decide (j = i) then xi else 0%Q) <$> seq 0 (length x)) x.
Definition identity (n : nat) : matrix := diag (replicate n 1%Q).
Definition diagonal (A : matrix) : list Q := imap (λ i r, default 0%Q (r !! i)) A.

(** Boolean masks: [a[idx]] and [a[idx] = v]. *)
Fixpoint np_mask {A} (a : list A) (idx : list bool) : list A :=
  match a, idx with
  | x :: a', b :: idx' => if b then x :: np_mask a' idx' else np_mask a' idx'
  | _, _ => []
  end.

Fixpoint mask_fill {A} (a : list A) (idx : list bool) (v : list A) : list A :=
  match a, idx with
  | x :: a', true :: idx' =>
    match v with
    | y :: v' => y :: mask_fill a' idx' v'
    | [] => x :: mask_fill a' idx' []
    end
  | x :: a', false :: idx' => x :: mask_fill a' idx' v
  | _, _ => a
  end.

Definition count_true (idx : list bool) : nat := length (filter (λ b, b = true) idx).

(** [L[:,I]] *)
Fixpoint select_columns (L : matrix) (I : list Z) : result matrix :=
  match L with
  | [] => Ok []
  | r :: L' => c ← np_take r I; cs ← select_columns L' I; Ok (c :: cs)
  end.

(** [u[idx] = v] needs as many values as the mask selects. *)
Definition np_mask_put {A} (a : list A) (idx : list bool) (v : list A)
  : result (list A) :=
  if decide (length v = count_true idx) then Ok (mask_fill a idx v)
  else Raise ValueError.

(** ** Sparse graph representation *)

(** Compute degrees of weight matrix W.  For a graph with a single vertex
    [np.squeeze] leaves an array without a dimension; the functions below
    that read the degrees have then raised in [degree_matrix] before. *)
Definition degrees (W : matrix) : list Q := Qsum <$> W.

(** Multiply diagonal of matrix by degree *)
Definition diag_multiply (W : matrix) (b : Q) : matrix :=
  mat_sub W (mat_scale (1 - b)%Q (diag (diagonal W))).

(** The exponents of [d**p] used in the repository. *)
Inductive exponent : Type := pow_one | pow_minus_one.

(** Returns sparse matrix with degrees on diagonal.  [spdiags] refuses the
    array without a dimension that [degrees] returns for a graph with a
    single vertex. *)
Definition degree_matrix (W : matrix) (p : exponent) : result matrix :=
  let n := nrows W in
  (* construct sparse degree matrix *)
  let d := degrees W in
  if decide (n = 1%nat) then Raise ValueError else
  Ok (diag (match p with pow_one => d | pow_minus_one => Qinv <$> d end)).

(** Laplace matrix, [norm="none"]. *)
Definition graph_laplacian (W : matrix) : result matrix :=
  D ← degree_matrix W pow_one;
  Ok (mat_sub D W).

(** ** Constrained linear solve *)

Definition eps10 : Q := 1 # 10000000000.   (* 1e-10 *)

Section Solver.

(** [splinalg.cg(A,b,x0=x0,tol=tol,M=M)], first component: the iterate
    the conjugate gradient method stops at.  Nothing is assumed of it. *)
Variable cg : matrix → list Q → option (list Q) → Q → matrix → list Q.

(** Solves Lu = f subject to u(I)=g *)
Definition constrained_solve (L : matrix) (I : list Z) (g : list Q)
    (f x0 : option (list Q)) (tol : Q) : result (list Q) :=
  let n := nrows L in
  (* locations of labels *)
  idx ← np_put (replicate n true) I (replicate (length I) false);
  (* right hand side *)
  LI ← select_columns L I;
  b ← (if decide (length g = length I) then Ok (mat_vec (mat_scale (-1) LI) g)
       else Raise ValueError);
  let b := np_mask (b : list Q) idx in
  let b := match f with
           | Some f => vec_add b (np_mask f idx)
           | None => b
           end in
  (* left hand side matrix *)
  let A := (λ r : list Q, np_mask r idx) <$> np_mask L idx in
  (* conjugate gradient with Jacobi preconditioner *)
  let M := diag ((λ a, / (a + eps10))%Q <$> diagonal A) in
  let v := cg A b ((λ x : list Q, np_mask x idx) <$> x0) tol M in
  (* add labels back into array *)
  u ← np_mask_put (replicate n 1%Q) idx v;
  np_put u I g.

End Solver.

(** ** Graph infinity Laplacian *)

Definition Qmin2 (x y : Q) : Q := if Qle_bool x y then x else y.
Definition Qmax2 (x y : Q) : Q := if Qle_bool x y then y else x.

(** [coo_matrix((vals,(I,J)),shape=(n,n))]: the indices have to lie in the
    shape. *)
Definition coo_matrix (n : nat) (I J : list Z) (vals : list Q)
  : result (list (Z * Z * Q)) :=
  if decide (length I = length vals ∧ length J = length vals) then
    if decide (Forall (λ i, 0 ≤ i < Z.of_nat n) I ∧ Forall (λ j, 0 ≤ j < Z.of_nat n) J)
    then Ok (zip (zip I J) vals)
    else Raise ValueError
  else Raise ValueError.

(** [tocsr()], one row of it: the stored entries of row [i] by column,
    entries at the same place added up. *)
Fixpoint add_entry (j : Z) (v : Q) (row : list (Z * Q)) : list (Z * Q) :=
  match row with
  | [] => [(j, v)]
  | (j', v') :: row' =>
    if decide (j = j') then (j', (v' + v)%Q) :: row'
    else (j', v') :: add_entry j v row'
  end.

Definition stored_row (M : list (Z * Z * Q)) (i : Z) : list (Z * Q) :=
  foldl (λ row '(i', j, v), if decide (i' = i) then add_entry j v row else row) [] M.

(** [M.min(axis=1)] and [M.max(axis=1)] of a sparse matrix, at one row: the
    reduction of the stored values, and of these and 0 when the row stores
    fewer than [n] entries; a row that stores nothing gives 0. *)
Definition sparse_reduce (op : Q → Q → Q) (n : nat) (vals : list Q) : Q :=
  match vals with
  | [] => 0%Q
  | x :: r =>
    let m := foldl op x r in
    if decide (length vals < n)%nat then op m 0%Q else m
  end.

Definition graph_infinity_laplacian (W : matrix) (u : list Q)
    (IJV : option (list Z * list Z * list Q)) : result (list Q) :=
  let n := nrows W in
  let IJV := match IJV with Some t => t | None => sparse_find W end in
  let I := IJV.1.1 in let J := IJV.1.2 in let V := IJV.2 in
  uJ ← np_take u J; uI ← np_take u I;
  M ← coo_matrix n I J (zip_with Qmult V (vec_sub uJ uI));
  if decide (n = O) then Raise ValueError else
  Ok ((λ i, let vals := (stored_row M (Z.of_nat i)).*2 in
            (sparse_reduce Qmin2 n vals + sparse_reduce Qmax2 n vals)%Q)
        <$> seq 0 n).

(** ** Projection onto the simplex *)

#[global] Instance Qle_rel_dec : RelDecision Qle.
Proof.
  refine (λ x y, match Qle_bool x y as b return Qle_bool x y = b → _ with
                 | true => λ E, left _
                 | false => λ E, right _
                 end eq_refl).
  - by apply Qle_bool_iff.
  - intros H%Qle_bool_iff. congruence.
Defined.

(** [-np.sort(-x)] *)
Definition sort_descending (x : list Q) : list Q :=
  Qopp <$> merge_sort Qle (Qopp <$> x).

(** [np.tril(np.ones((k,k))) @ x]: the running sums. *)
Fixpoint cumsum_from (acc : Q) (x : list Q) : list Q :=
  match x with
  | [] => []
  | a :: x' => (acc + a)%Q :: cumsum_from (acc + a)%Q x'
  end.
Definition cumsum (x : list Q) : list Q := cumsum_from 0%Q x.

(** [np.argmax] of a boolean array: the first [True], 0 when there is none. *)
Fixpoint argmax_bool (b : list bool) : nat :=
  match b with
  | [] => O
  | true :: _ => O
  | false :: b' => if decide (true ∈ b') then S (argmax_bool b') else O
  end.

Definition QofN (n : nat) : Q := inject_Z (Z.of_nat n).

(** One column of [ProjectToSimplex]; every step of the function acts on
    the columns of [X] independently. *)
Definition project_column (x : list Q) : list Q :=
  let k := length x in
  let Xs := sort_descending x in
  let Sum := cumsum Xs in
  let Max := imap (λ r s, ((s - 1) / QofN (r + 1))%Q) Sum in
  (* Xs[:-1] = Xs[1:]; Xs[-1] = (Sum[k-1]-1)/k *)
  let Xs := drop 1 Xs ++ [((default 0 (last Sum) - 1) / QofN k)%Q] in
  let I := argmax_bool (zip_with (λ m xs, Qle_bool xs m) Max Xs) in
  let t := default 0%Q (Max !! I) in
  (λ v, Qmax2 (v - t) 0) <$> x.

(** Projects all columns of (kxn) matrix X onto k-simplex *)
Definition ProjectToSimplex (X : matrix) : result matrix :=
  let n := ncols X in
  let k := nrows X in
  if decide (k = O) then Raise IndexError
  else Ok (columns k (project_column <$> columns n X)).

(** *** The projection in binary64 arithmetic

    The same function on IEEE 754 double precision numbers, every
    operation rounded to nearest as NumPy rounds it.  The running sums
    are added in the order of the rows. *)


Definition float_le (x y : float) : Prop := PrimFloat.leb x y = true.

#[global] Instance float_le_dec : RelDecision float_le.
Proof. intros x y. unfold float_le. apply _. Defined.









(** ** Poisson learning *)

Definition count_label (g : list Z) (c : Z) : nat :=
  length (filter (λ x, x = c) g).

(** [np.max] of a non-empty array. *)
Definition np_max (x : list Q) : Q :=
  match x with [] => 0%Q | a :: r => foldl Qmax2 a r end.
Definition np_min (x : list Q) : Q :=
  match x with [] => 0%Q | a :: r => foldl Qmin2 a r end.

(** [v/np.sum(v)] for [v] without negative entries: when the sum is zero
    every entry is 0/0, and [None] stands for that array of NaN. *)
Definition normalized (v : list Q) : option (list Q) :=
  let s := Qsum v in
  if Qeq_bool s 0 then None else Some ((λ x, x / s)%Q <$> v).

(** [b[i,:] = b[i,] - c/num_labels[g[j]]], for the [j]-th entry [i] of [I]. *)
Definition center_row (num_labels c : list Q) (b : matrix) (igj : Z * Z)
  : result matrix :=
  bi ← np_get b igj.1; nl ← np_get num_labels igj.2;
  np_set b igj.1 (vec_sub bi ((λ x, x / nl)%Q <$> c)).

(** The source term: [Kg] as it is before the centering loop, and [b]
    after it.  [b = np.transpose(Kg)] is a view, the loop writes through it
    into [Kg]. *)
Definition poisson_source (n : nat) (I g : list Z) : result (matrix * matrix) :=
  let unique_labels := np_unique g in
  let k := length unique_labels in
  let num_labels := (λ c, QofN (count_label g c)) <$> unique_labels in
  let multiplier := Qinv <$> num_labels in
  (* labels to vector and correct position *)
  g0 ← np_get g 0;
  J ← np_put (replicate n 0%Q) I (replicate (length I) 1%Q);
  K ← np_put (replicate n g0) I g;
  '(Kg, _, _) ← LabelsToVec K;
  if decide (nrows Kg ≠ k) then Raise ValueError else
  let Kg := (λ r : list Q, zip_with Qmult r J) <$> Kg in
  let Kg := zip_with vec_scale multiplier Kg in
  (* Poisson source term *)
  let c := (λ r, Qsum r / QofN k)%Q <$> Kg in
  let b := columns n Kg in
  b ← for_each (center_row num_labels c) b (zip I g);
  Ok (Kg, b).

Record poisson_setup : Type := PoissonSetup {
  ps_Db : matrix;               (* D*b *)
  ps_P : matrix;                (* identity - D*L *)
  ps_RW : matrix;               (* W*D *)
  ps_v : option (list Q);       (* the start of the mixing vector *)
  ps_vinf : option (list Q)     (* degrees(W)/sum(degrees(W)) *)
}.

Definition poisson_matrices (W : matrix) (I g : list Z) : result poisson_setup :=
  let n := nrows W in
  let W := diag_multiply W 0 in
  '(_, b) ← poisson_source n I g;
  (* setup matrices *)
  L ← graph_laplacian W;
  D ← degree_matrix (mat_add W (mat_scale eps10 (identity n))) pow_minus_one;
  let P := mat_sub (identity n) (mat_mul D L) in
  let Db := mat_mul D b in
  (* np.max(Kg,axis=0), where Kg is the transpose of b *)
  let v := np_max <$> b in
  Ok {| ps_Db := Db; ps_P := P; ps_RW := mat_mul W D;
        ps_v := normalized v; ps_vinf := normalized (degrees W) |}.

(** [np.max(np.absolute(v-vinf)) > 1/n]; a comparison with NaN is false. *)
Definition not_mixed (n : nat) (v vinf : option (list Q)) : bool :=
  match v, vinf with
  | Some v, Some vinf => Qltb (1 / QofN n) (np_max (Qabs <$> vec_sub v vinf))
  | _, _ => false
  end.

(** The diffusion loop; it is the same recurrence with and without
    [use_cuda]. *)
Fixpoint poisson_loop (fuel : nat) (n : nat) (ps : poisson_setup)
    (u : matrix) (v : option (list Q)) (T : Z) : result (matrix * Z) :=
  if not_mixed n v (ps_vinf ps) then
    match fuel with
    | O => OutOfFuel
    | S fuel =>
      poisson_loop fuel n ps (mat_add (ps_Db ps) (mat_mul (ps_P ps) u))
        (mat_vec (ps_RW ps) <$> v) (T + 1)
    end
  else Ok (u, T).

Definition poisson (fuel : nat) (W : matrix) (I g : list Z) (use_cuda : bool)
  : result (matrix * Z) :=
  let n := nrows W in
  let k := length (np_unique g) in
  ps ← poisson_matrices W I g;
  '(u, T) ← poisson_loop fuel n ps (replicate n (replicate k 0%Q)) (ps_v ps) 0;
  (* np.transpose(u), with k rows *)
  Ok (columns k u, T).

(** ** The optional native module [cmodules.cgraphpy]

    [None] is an installation where [import cmodules.cgraphpy] fails.  The
    functions of the module write into the arrays they are given; here
    they return them. *)

Record cgraphpy : Type := CGraphPy {
  cgp_dijkstra : list Q → list Z → list Z → list Z → list Q → list Z → Q
                 → result (list Q * list Z);
  cgp_volume_mbo : list Z → list Z → list Z → list Q → list Z → list Z
                   → list Z → nat → Q → Z → result (list Z);
  cgp_lp_iterate : list Q → list Q → list Z → list Z → list Q → list Z
                   → list Q → option Q → result (list Q * list Q)
}.

Definition nearestneighbor (cgp : option cgraphpy) (W : matrix) (I g : list Z)
  : result matrix :=
  let n := nrows W in
  let init := dijkstra_init n in
  let '(WI, WJ, WV) := sparse_find W in
  let K := column_starts WJ in
  let python := st ← dijkstra_python W I; Ok (dj_l st) in
  l ← match cgp with
      | Some m =>
        (* try to use fast C version of dijkstra, if compiled *)
        match cgp_dijkstra m (dj_d init) (dj_l init) WI K WV I 1 with
        | Ok (_, l) => Ok l
        | _ => python
        end
      | None => python   (* use python version, which is slower *)
      end;
  labels_of_nearest n I g l.

(** [(n*beta).astype(int)] *)
Definition Qtrunc (x : Q) : Z := Z.quot (Qnum x) (Z.pos (Qden x)).

(** Volume MBO (Jacobs, et al.) and Volume MBO initialized with Poisson;
    [lam] is the constant passed to [volume_mbo] (1.0 and 0.0). *)
Definition volumeMBO (cgp : option cgraphpy) (W : matrix) (I g : list Z)
    (beta : list Q) (T : Z) : result matrix :=
  (* set diagonal entries to zero *)
  let W := diag_multiply W 0 in
  match cgp with
  | None => Raise SystemExit   (* "cgraphpy cmodule not found." *)
  | Some m =>
    let n := nrows W in
    let k := length (np_unique g) in
    let '(WI, WJ, WV) := sparse_find W in
    let ClassCounts := (λ b, Qtrunc (QofN n * b)) <$> beta in
    u ← cgp_volume_mbo m (replicate n 0) WI WJ WV I g ClassCounts k 1%Q T;
    (* set given labels and convert to vector format *)
    u ← np_put u I g;
    '(X, _, _) ← LabelsToVec u;
    Ok X
  end.

Definition poisson_volumeMBO (fuel : nat) (cgp : option cgraphpy) (W : matrix)
    (I g : list Z) (beta : list Q) (T : Z) : result matrix :=
  let W := diag_multiply W 0 in
  match cgp with
  | None => Raise SystemExit
  | Some m =>
    (* solve Poisson problem and compute labels *)
    '(u, _) ← poisson fuel W I g false;
    let max_locations := (λ c, Z.of_nat (argmax_bool
        ((λ x, Qle_bool (np_max c) x) <$> c))) <$> columns (nrows W) u in
    u ← np_take (np_unique g) max_locations;
    let n := nrows W in
    let k := length (np_unique g) in
    let '(WI, WJ, WV) := sparse_find W in
    let ClassCounts := (λ b, Qtrunc (QofN n * b)) <$> beta in
    u ← cgp_volume_mbo m u WI WJ WV I g ClassCounts k 0%Q T;
    u ← np_put u I g;
    '(X, _, _) ← LabelsToVec u;
    Ok X
  end.

(** ** Game theoretic p-Laplace learning ([norm="none"]) *)

Inductive sol_method : Type :=
  | GradientDescentCcode | GradientDescent | SemiImplicit | OtherMethod.

Record plaplace_state : Type := PLaplaceState {
  pl_u : list Q; pl_uu : list Q; pl_ul : list Q; pl_err : Q
}.

Section PLaplace.

Variable cg : matrix → list Q → option (list Q) → Q → matrix → list Q.
Variable cgp : option cgraphpy.

(** [alpha*L2u/dx + delta*LIu] with the labeled entries set to 0. *)
Definition plaplace_residual (L W : matrix) (WIJV : list Z * list Z * list Q)
    (dx : list Q) (alpha delta : Q) (I : list Z) (u : list Q)
  : result (list Q) :=
  let L2u := mat_vec (mat_scale (-1) L) u in
  LIu ← graph_infinity_laplacian W u (Some WIJV);
  let res := vec_add (zip_with Qdiv (vec_scale alpha L2u) dx) (vec_scale delta LIu) in
  np_put res I (replicate (length I) 0%Q).

(** [while err > 1e-1: ...] *)
Fixpoint plaplace_loop (fuel : nat) (sol : sol_method) (L W : matrix)
    (WIJV : list Z * list Z * list Q) (dx : list Q)
    (alpha delta beta gamma dt : Q) (I : list Z) (g : list Q)
    (st : plaplace_state) : result plaplace_state :=
  if Qltb (1 # 10) (pl_err st) then
    match fuel with
    | O => OutOfFuel
    | S fuel =>
      (* graph laplacians *)
      let L2u := mat_vec (mat_scale (-1) L) (pl_u st) in
      LIu ← graph_infinity_laplacian W (pl_u st) (Some WIJV);
      (* residual error *)
      _ ← plaplace_residual L W WIJV dx alpha delta I (pl_u st);
      (* update *)
      st ← match sol with
           | GradientDescent =>
             res ← plaplace_residual L W WIJV dx alpha delta I (pl_uu st);
             let uu := vec_add (pl_uu st) (vec_scale dt res) in
             res ← plaplace_residual L W WIJV dx alpha delta I (pl_ul st);
             let ul := vec_add (pl_ul st) (vec_scale dt res) in
             let err1 := np_max (vec_sub uu ul) in
             Ok {| pl_u := vec_scale (1 # 2) (vec_add uu ul);
                   pl_uu := uu; pl_ul := ul; pl_err := err1 |}
           | SemiImplicit =>
             let rhs := vec_scale beta
               (vec_sub (vec_scale (2 * gamma)%Q (zip_with Qmult dx LIu)) L2u) in
             u ← constrained_solve cg L I g (Some rhs) (Some (pl_u st))
                   (pl_err st / 100)%Q;
             Ok {| pl_u := u; pl_uu := pl_uu st; pl_ul := pl_ul st;
                   pl_err := pl_err st |}
           | _ => Raise SystemExit   (* "Invalid p-Laplace solution method." *)
           end;
      plaplace_loop fuel sol L W WIJV dx alpha delta beta gamma dt I g st
    end
  else Ok st.

(** [p = None] is [p == float("inf")]. *)
Definition plaplace_solve (fuel : nat) (W : matrix) (I : list Z) (g : list Q)
    (p : option Q) (sol : sol_method) : result (list Q) :=
  let n := nrows W in
  if decide (n = O) then Raise ValueError else
  let W := mat_scale (/ np_max (concat W)) W in
  let alpha := (match p with None => 0 | Some p => 1 / p end)%Q in
  let delta := (match p with None => 1 | Some p => 1 - 2 / p end)%Q in
  let dx := degrees W in
  let theta := ((12 # 10) * (2 * alpha + np_max dx * delta))%Q in
  let beta :=
    (match p with None => 1 | Some p => (theta * p - 2) / (theta * p) end)%Q in
  let gamma :=
    (match p with None => 1 / theta | Some p => (p - 2) / (theta * p - 2) end)%Q in
  L ← graph_laplacian W;
  u ← constrained_solve cg L I g None None eps10;
  if decide (g = []) then Raise ValueError else
  let uu := replicate n (np_max g) in
  let ul := replicate n (np_min g) in
  let WIJV := sparse_find W in
  (* set labels *)
  u ← np_put u I g; uu ← np_put uu I g; ul ← np_put ul I g;
  (* time step for gradient descent *)
  let dt := ((9 # 10) / (alpha + 2 * delta))%Q in
  match sol with
  | GradientDescentCcode =>
    match cgp with
    | None => Raise SystemExit   (* "cgraphpy cmodule not found." *)
    | Some m =>
      '(uu, ul) ← cgp_lp_iterate m uu ul WIJV.1.1 WIJV.1.2 WIJV.2 I g p;
      let u := vec_scale (1 # 2) (vec_add uu ul) in
      (* check residual *)
      _ ← plaplace_residual L W WIJV dx alpha delta I uu;
      _ ← plaplace_residual L W WIJV dx alpha delta I ul;
      Ok u
    end
  | _ =>
    st ← plaplace_loop fuel sol L W WIJV dx alpha delta beta gamma dt I g
           {| pl_u := u; pl_uu := uu; pl_ul := ul; pl_err := 1000000%Q |};
    Ok (pl_u st)
  end.

End PLaplace.

(** ** Rounding to the vertices of the simplex *)

(** [np.argmax] of a non-empty array: the first index of its maximum. *)
Definition np_argmax (x : list Q) : nat :=
  argmax_bool ((λ v, Qle_bool (np_max x) v) <$> x).

(** Projects all columns of (kxn) matrix X to the closest vertex of the
    simplex; [np.argmax] along an axis of length 0 raises. *)
Definition ClosestVertex (X : matrix) : result matrix :=
  let n := ncols X in
  let k := nrows X in
  if decide (k = O) then Raise ValueError
  else one_hot k ((λ c, Z.of_nat (np_argmax c)) <$> columns n X).

(** ** Sizes of the classes *)


(** ** Laplace learning and the shift tricks *)

(** [np.mean] *)
Definition np_mean (u : list Q) : Q := (Qsum u / QofN (length u))%Q.

Section Laplace.

Variable cg : matrix → list Q → option (list Q) → Q → matrix → list Q.

(** Laplace learning, [norm="none"]. *)
Definition laplace_solve (W : matrix) (I : list Z) (g : list Q)
  : result (list Q) :=
  L ← graph_laplacian W;
  constrained_solve cg L I g None None eps10.

(** Shift trick by mean *)
Definition meanshift_solve (W : matrix) (I : list Z) (g : list Q)
  : result (list Q) :=
  (* Laplace learning *)
  u ← laplace_solve W I g;
  (* center solution *)
  Ok ((λ x, x - np_mean u)%Q <$> u).


End Laplace.

(** ** The entry point [graph_ssl] *)

(** The methods of [graph_ssl] whose solvers are embedded above, with the
    arguments that reach their solvers; [method_unknown] is a name that is
    in neither list of the function. *)
Inductive ssl_method : Type :=
  | method_laplace
  | method_meanshift
  | method_plaplace (p : option Q) (plaplace_solver : sol_method)
  | method_poisson
  | method_nearestneighbor
  | method_volumembo
  | method_poissonvolumembo
  | method_unknown.

(** [u[i,:] = v]: [v] has the length of the row, or one entry. *)
Definition assign_row (n : nat) (v : list Q) : result (list Q) :=
  if decide (length v = n) then Ok v
  else match v with
       | [x] => Ok (replicate n x)
       | _ => Raise ValueError
       end.

(** [for l in np.unique(g): ...], the rows of [u] one after the other. *)
Fixpoint one_vs_rest (solve : list Q → result (list Q)) (n : nat)
    (g : list Z) (ls : list Z) : result matrix :=
  match ls with
  | [] => Ok []
  | l :: ls' =>
    (* convert to +1/-1 labels *)
    let h := (λ x, if decide (x = l) then 1%Q else (-1)%Q) <$> g in
    (* solve binary classification problem *)
    v ← solve h;
    (* update labels *)
    r ← assign_row n v;
    u ← one_vs_rest solve n g ls';
    Ok (r :: u)
  end.

Section GraphSSL.

Variable cg : matrix → list Q → option (list Q) → Q → matrix → list Q.
Variable cgp : option cgraphpy.

Definition graph_ssl (fuel : nat) (W : matrix) (I g : list Z) (D : option matrix)
    (beta : option (list Q)) (method : ssl_method) (T : Z)
    (use_cuda return_vector : bool) : result (matrix + list Z) :=
  let n := nrows W in
  let beta := match beta with
              | Some b => b
              | None => replicate (length (np_unique g)) 1%Q
              end in
  (* symmetrize W, if not already symmetric *)
  if decide (ncols W ≠ nrows W) then Raise ValueError else
  let W := mat_scale (1 # 2) (mat_add W (transpose W)) in
  u ← match method with
      (* one shot methods *)
      | method_volumembo => volumeMBO cgp W I g beta T
      | method_poissonvolumembo => poisson_volumeMBO fuel cgp W I g beta T
      | method_poisson => '(u, _) ← poisson fuel W I g use_cuda; Ok u
      | method_nearestneighbor =>
        (* use distance matrix if provided, instead of weight matrix *)
        nearestneighbor cgp (match D with None => W | Some D => D end) I g
      (* one vs rest methods *)
      | method_laplace => one_vs_rest (laplace_solve cg W I) n g (np_unique g)
      | method_meanshift => one_vs_rest (meanshift_solve cg W I) n g (np_unique g)
      | method_plaplace p plaplace_solver =>
        one_vs_rest (λ h, plaplace_solve cg cgp fuel W I h p plaplace_solver)
          n g (np_unique g)
      | method_unknown =>
        (* "Invalid choice of SSL method." *)
        one_vs_rest (λ _, Raise SystemExit) n g (np_unique g)
      end;
  if return_vector then Ok (inl (transpose u))
  else
    (* select labels *)
    if decide (nrows u = O) then Raise ValueError else
    let max_locations := (λ c, Z.of_nat (np_argmax c)) <$> columns (ncols u) u in
    labels ← np_take (np_unique g) max_locations;
    (* make sure to set labels at labeled points *)
    labels ← np_put labels I g;
    Ok (inr labels).

End GraphSSL.

(** ** Accuracy of a labeling *)

(** Computes accuracy of labeling, [m] the number of labeled points used.
    The division by zero of [len(L) = m] gives no number: [None]. *)
Definition accuracy (L L_true : list Z) (m : Z) : result (option Q) :=
  (* remove unlabeled nodes *)
  let I := (λ x, bool_decide (0 ≤ x)) <$> L_true in
  if decide (length L ≠ length L_true) then Raise IndexError else
  let L := np_mask L I in
  let L_true := np_mask L_true I in
  (* compute accuracy *)
  let correct :=
    Z.of_nat (count_true (zip_with (λ a b, bool_decide (a = b)) L L_true)) in
  let rest := Z.of_nat (length L) - m in
  if decide (rest = 0) then Ok None
  else Ok (Some (100 * inject_Z (Z.max (correct - m) 0) / inject_Z rest)%Q).

(** * Example inputs *)

(** A solver that returns the zero vector. *)
Definition zero_solver : matrix → list Q → option (list Q) → Q → matrix → list Q :=
  λ _ b _ _ _, replicate (length b) 0%Q.


(** The path 0 - 1 - 2 with w(0,1) = 5 and w(1,2) = 1. *)
Definition path3_5_1 : matrix := [[0; 5; 0]; [5; 0; 1]; [0; 1; 0]]%Q.

(** The path 0 - 1 - 2 - 3 - 4 with unit weights. *)
Definition path5 : matrix :=
  [[0; 1; 0; 0; 0]; [1; 0; 1; 0; 0]; [0; 1; 0; 1; 0]; [0; 0; 1; 0; 1];
   [0; 0; 0; 1; 0]]%Q.

(** Two components, 0 - 1 and 2 - 3. *)
Definition two_edges : matrix :=
  [[0; 1; 0; 0]; [1; 0; 0; 0]; [0; 0; 0; 1]; [0; 0; 1; 0]]%Q.

(** The edge 0 - 1 and the isolated vertex 2. *)
Definition edge_and_point : matrix := [[0; 1; 0]; [1; 0; 0]; [0; 0; 0]]%Q.

(** * Specification side *)

(** The index of a label in the list of labels. *)
Fixpoint label_index (labels : list Z) (x : Z) : Z :=
  match labels with
  | [] => 0
  | a :: labels' => if decide (x = a) then 0 else 1 + label_index labels' x
  end.

(** The star with centre 0 and leaves 1 and 2. *)
Definition star3 : matrix := [[0; 1; 1]; [1; 0; 0]; [1; 0; 0]]%Q.

(** The neighbors of vertex [i] are the stored entries of row [i], and the
    terms of the infinity Laplacian at [i] are [w(i,j)(u(j)-u(i))] over
    them. *)
Definition neighbors (W : matrix) (i : nat) : list nat :=
  filter (λ j, Qnonzero (entry W i j) = true) (seq 0 (ncols W)).

Definition at_vertex (u : list Q) (j : nat) : Q := default 0%Q (u !! j).

Definition edge_terms (W : matrix) (u : list Q) (i : nat) : list Q :=
  (λ j, entry W i j * (at_vertex u j - at_vertex u i))%Q <$> neighbors W i.

Definition is_min (m : Q) (xs : list Q) : Prop :=
  m ∈ xs ∧ ∀ x, x ∈ xs → (m <= x)%Q.
Definition is_max (m : Q) (xs : list Q) : Prop :=
  m ∈ xs ∧ ∀ x, x ∈ xs → (x <= m)%Q.

(** The value at vertex [i] with the minimum and the maximum taken over the
    neighbors of [i] only. *)
Definition min_max_over_neighbors (W : matrix) (u : list Q) (i : nat) : Q :=
  (np_min (edge_terms W u i) + np_max (edge_terms W u i))%Q.

(** The threshold of the simplex projection, found by a walk along the
    column sorted in descending order: [acc] is the sum of the [r] entries
    already passed. *)
Fixpoint find_tau (acc : Q) (r : nat) (s : list Q) : Q :=
  match s with
  | [] => 0%Q
  | a :: s' =>
    let tau := ((acc + a - 1) / QofN (r + 1))%Q in
    match s' with
    | [] => tau
    | b :: _ => if Qle_bool b tau then tau else find_tau (acc + a)%Q (S r) s'
    end
  end.

(** Shifting a column by [t] and clipping at zero. *)
Definition clip (t : Q) (x : list Q) : list Q := (λ v, Qmax2 (v - t) 0) <$> x.

(** The rows of [Kg] before the centering loop, for labels 0..k-1. *)
Definition source_rows (k : nat) (g K : list Z) (J : list Q) : list (list Q) :=
  zip_with vec_scale
    (Qinv <$> ((λ c, QofN (count_label g c)) <$> seqZ 0 (Z.of_nat k)))
    ((λ r : list Q, zip_with Qmult r J) <$>
       ((λ c, (λ x, if decide (Z.to_nat x = c) then 1%Q else 0%Q) <$> K) <$> seq 0 k)).


(** The path 0 - 1 - 2 with unit weights, and the complete graph on five
    vertices. *)
Definition path3 : matrix := [[0; 1; 0]; [1; 0; 1]; [0; 1; 0]]%Q.

(** The mixing vector after [t] steps of the loop of [poisson], the
    iterate [u] after [t] steps, and [max|v - vinf| <= 1/n]. *)
Definition mixing_vector (ps : poisson_setup) (t : nat) : option (list Q) :=
  Nat.iter t (fmap (mat_vec (ps_RW ps))) (ps_v ps).



(** ** The heap invariants

    [hv h i] is the vertex at heap slot [i], [pv p v] the slot that the
    pointer of vertex [v] names, [key d h i] the key of the vertex at slot
    [i]. *)
Definition at_index {A} (dflt : A) (l : list A) (i : Z) : A :=
  default dflt (l !! Z.to_nat i).
Definition hv (h : list Z) (i : Z) : Z := at_index (-1) h i.
Definition pv (p : list Z) (v : Z) : Z := at_index (-1) p v.
Definition key (d : list Q) (h : list Z) (i : Z) : Q := at_index 0%Q d (hv h i).

(** The arrays have the sizes [nearestneighbor] gives them, every heap
    slot holds -1 or a vertex, and [p[h[i]] = i] for every occupied slot. *)
Definition heap_wf (d : list Q) (h p : list Z) (s : Z) : Prop :=
  length p = length d ∧ length h = S (length d) ∧
  0 ≤ s ≤ Z.of_nat (length d) ∧
  Forall (λ v, -1 ≤ v < Z.of_nat (length d)) h ∧
  ∀ i, 1 ≤ i ≤ s → 0 ≤ hv h i ∧ pv p (hv h i) = i.

(** [d[h[i]] >= d[h[i/2]]] for every occupied heap slot [i > 1]. *)
Definition heap_ordered (d : list Q) (h : list Z) (s : Z) : Prop :=
  ∀ j, 2 ≤ j ≤ s → (key d h (half j) <= key d h j)%Q.

Definition in_heap (h : list Z) (s : Z) (v : Z) : Prop :=
  ∃ j, 1 ≤ j ≤ s ∧ hv h j = v.

(** The heap order with one slot [i] out of place: too small for its
    parent (what [SiftUp] repairs), or too large for its children (what
    [SiftDown] repairs). *)
Definition sift_up_inv (d : list Q) (h : list Z) (s i : Z) : Prop :=
  (∀ j, 2 ≤ j ≤ s → j ≠ i → (key d h (half j) <= key d h j)%Q) ∧
  (∀ j, 2 ≤ j ≤ s → half j = i → 2 ≤ i → (key d h (half i) <= key d h j)%Q).

Definition sift_down_inv (d : list Q) (h : list Z) (s i : Z) : Prop :=
  (∀ j, 2 ≤ j ≤ s → half j ≠ i → (key d h (half j) <= key d h j)%Q) ∧
  (∀ j, 2 ≤ j ≤ s → half j = i → 2 ≤ i → (key d h (half i) <= key d h j)%Q).

(** The heap after the exchange of the slots [a] and [b], as [SiftUp] and
    [SiftDown] write it. *)
Definition swap_h (h : list Z) (a b : Z) : list Z :=
  <[Z.to_nat b := hv h a]> (<[Z.to_nat a := hv h b]> h).
Definition swap_p (h p : list Z) (a b : Z) : list Z :=
  <[Z.to_nat (hv (swap_h h a b) a) := a]>
    (<[Z.to_nat (hv (swap_h h a b) b) := b]> p).

(** Decrease-key: a smaller value is assigned to [d[j]] and the slot of
    [j] is sifted up, as the relaxation step of [nearestneighbor] does. *)
Definition DecreaseKey (d : list Q) (h : list Z) (s : Z) (p : list Z) (j : Z)
    (tmp_dist : Q) : result (list Q * list Z * list Z) :=
  d ← np_set d j tmp_dist;
  pj ← np_get p j;
  '(h, p) ← SiftUp d h s p pj;
  Ok (d, h, p).

(** Sequences of heap operations.  A pop is logged with the vertex it
    returns and the key of that vertex at that moment. *)
Inductive heap_op : Type :=
  | OpPush (v : Z)
  | OpDecrease (v : Z) (k : Q)
  | OpPop.

Record heap_state : Type := HeapState {
  hs_d : list Q; hs_h : list Z; hs_p : list Z; hs_s : Z
}.

Definition empty_heap (d : list Q) : heap_state :=
  {| hs_d := d; hs_h := replicate (S (length d)) (-1);
     hs_p := replicate (length d) (-1); hs_s := 0 |}.

Definition heap_step (st : heap_state) (o : heap_op)
  : result (heap_state * option (Z * Q)) :=
  match o with
  | OpPush v =>
    '(h, p, s) ← PushHeap (hs_d st) (hs_h st) (hs_s st) (hs_p st) v;
    Ok ({| hs_d := hs_d st; hs_h := h; hs_p := p; hs_s := s |}, None)
  | OpDecrease v k =>
    '(d, h, p) ← DecreaseKey (hs_d st) (hs_h st) (hs_s st) (hs_p st) v k;
    Ok ({| hs_d := d; hs_h := h; hs_p := p; hs_s := hs_s st |}, None)
  | OpPop =>
    '(h, p, i, s) ← PopHeap (hs_d st) (hs_h st) (hs_s st) (hs_p st);
    di ← np_get (hs_d st) i;
    Ok ({| hs_d := hs_d st; hs_h := h; hs_p := p; hs_s := s |}, Some (i, di))
  end.

Fixpoint heap_run (st : heap_state) (ops : list heap_op)
  : result (heap_state * list (option (Z * Q))) :=
  match ops with
  | [] => Ok (st, [])
  | o :: ops' =>
    '(st', out) ← heap_step st o;
    '(st'', log) ← heap_run st' ops';
    Ok (st'', out :: log)
  end.

Definition heap_inv (st : heap_state) : Prop :=
  heap_wf (hs_d st) (hs_h st) (hs_p st) (hs_s st) ∧
  heap_ordered (hs_d st) (hs_h st) (hs_s st).

(** Membership of a vertex among the occupied slots, decided. *)
Definition in_heapb (h : list Z) (s v : Z) : bool :=
  existsb (λ j, bool_decide (hv h j = v)) (seqZ 1 s).

(** What an operation needs: a push takes a vertex that is not in the
    heap, a decrease-key a vertex of the heap and a key not above its key,
    a pop a heap that is not empty. *)
Definition op_valid (st : heap_state) (o : heap_op) : bool :=
  match o with
  | OpPush v =>
    bool_decide (0 ≤ v < Z.of_nat (length (hs_d st))) &&
    negb (in_heapb (hs_h st) (hs_s st) v)
  | OpDecrease v k =>
    in_heapb (hs_h st) (hs_s st) v && negb (Qltb (at_index 0%Q (hs_d st) v) k)
  | OpPop => bool_decide (1 ≤ hs_s st)
  end.

Fixpoint admissible (st : heap_state) (ops : list heap_op) : bool :=
  match ops with
  | [] => true
  | o :: ops' =>
    op_valid st o &&
    match heap_step st o with
    | Ok (st', _) => admissible st' ops'
    | _ => false
    end
  end.

(** The key an operation brings into the heap. *)
Definition op_key (st : heap_state) (o : heap_op) : option Q :=
  match o with
  | OpPush v => Some (at_index 0%Q (hs_d st) v)
  | OpDecrease _ k => Some k
  | OpPop => None
  end.

Definition not_below (lo : option Q) (k : option Q) : bool :=
  match lo, k with
  | Some a, Some b => negb (Qltb b a)
  | _, _ => true
  end.

Definition next_bound (lo : option Q) (out : option (Z * Q)) : option Q :=
  match out with Some (_, k) => Some k | None => lo end.

(** The discipline of Dijkstra's algorithm: no key enters the heap below
    the key of the pop before it. *)
Fixpoint keys_above_pops (lo : option Q) (st : heap_state) (ops : list heap_op)
  : bool :=
  match ops with
  | [] => true
  | o :: ops' =>
    not_below lo (op_key st o) &&
    match heap_step st o with
    | Ok (st', out) => keys_above_pops (next_bound lo out) st' ops'
    | _ => false
    end
  end.

Definition keys_bounded (lo : option Q) (st : heap_state) : Prop :=
  ∀ k0, lo = Some k0 →
    ∀ j, 1 ≤ j ≤ hs_s st → (k0 <= key (hs_d st) (hs_h st) j)%Q.

Fixpoint nondecreasing (prev : option Q) (ks : list Q) : Prop :=
  match ks with
  | [] => True
  | k :: ks' =>
    match prev with Some k0 => (k0 <= k)%Q | None => True end ∧
    nondecreasing (Some k) ks'
  end.

(** The keys of pops that follow one another without a push or a
    decrease-key in between do not decrease; [prev] is the key of the pop
    just before the log, if the last operation was one. *)
Fixpoint pops_sorted (prev : option Q) (log : list (option (Z * Q))) : Prop :=
  match log with
  | [] => True
  | None :: log' => pops_sorted None log'
  | Some (_, k) :: log' =>
    match prev with Some k0 => (k0 <= k)%Q | None => True end ∧
    pops_sorted (Some k) log'
  end.

(** The keys of all the pops of a log, in order. *)
Definition popped_keys (log : list (option (Z * Q))) : list Q :=
  omap (λ e : option (Z * Q), snd <$> e) log.

(** Two sequences of operations on small heaps. *)
Definition heap_example_ops : list heap_op :=
  [OpPush 0; OpPush 1; OpPop; OpDecrease 1 2%Q; OpPop].

Definition heap_witness_ops : list heap_op :=
  [OpPush 2; OpPush 0; OpPush 1; OpPop; OpDecrease 0 4%Q; OpPop; OpPop].

(** A native module whose every call raises. *)
Definition failing_module : cgraphpy :=
  {| cgp_dijkstra := λ _ _ _ _ _ _ _, Raise SystemExit;
     cgp_volume_mbo := λ _ _ _ _ _ _ _ _ _ _, Raise SystemExit;
     cgp_lp_iterate := λ _ _ _ _ _ _ _ _, Raise SystemExit |}.

(** ** The state of the Dijkstra loop of [nearestneighbor] *)

(** The stored entries of column [j], and the graphs in which every vertex
    has a stored entry in its column. *)
Definition col_block (W : matrix) (j : nat) : list (Z * Z * Q) :=
  i ← seq 0 (nrows W); find_cell W j i.

Definition no_empty_column (W : matrix) : bool :=
  forallb (λ j, existsb (λ i, Qnonzero (entry W i j)) (seq 0 (nrows W)))
          (seq 0 (ncols W)).

Definition flag (A : list bool) (j : Z) : bool := at_index false A j.

(** What the loop keeps: the arrays have their lengths, the heap is well
    formed, the closest-label indices are -1 or vertices, the active
    vertices are those of the heap, and no active vertex is finalized. *)
Definition dijkstra_inv (n : nat) (st : dijkstra) : Prop :=
  length (dj_d st) = n ∧ length (dj_l st) = n ∧
  length (dj_A st) = n ∧ length (dj_V st) = n ∧
  heap_wf (dj_d st) (dj_h st) (dj_p st) (dj_s st) ∧
  Forall (λ x, -1 ≤ x < Z.of_nat n) (dj_l st) ∧
  (∀ j, 0 ≤ j < Z.of_nat n →
     flag (dj_A st) j = true ↔ in_heap (dj_h st) (dj_s st) j) ∧
  (∀ j, 0 ≤ j < Z.of_nat n →
     flag (dj_A st) j = true → flag (dj_V st) j = false).

(** The number of vertices that are not finalized. *)
Definition unfinalized (V : list bool) : nat := length (filter (λ b, b = false) V).

(** The square of the Euclidean distance of two columns. *)
Definition dist2 (x y : list Q) : Q :=
  Qsum (zip_with (λ a b, (a - b) * (a - b))%Q x y).

(** Square matrices of size [n], and symmetric ones. *)
Definition square (n : nat) (W : matrix) : Prop :=
  length W = n ∧ Forall (λ r : list Q, length r = n) W.
Definition symmetric (W : matrix) : Prop :=
  ∀ i j, (entry W i j == entry W j i)%Q.

(** ** The linear system of [constrained_solve] *)

(** The mask of the vertices without a label, the columns [L[:,I]], and
    the matrix and the right hand side that [constrained_solve] passes to
    the conjugate gradient solver. *)
Definition unlabeled (n : nat) (I : list Z) : list bool :=
  (λ i : nat, bool_decide (Z.of_nat i ∉ I)) <$> seq 0 n.
Definition columns_at (L : matrix) (I : list Z) : matrix :=
  (λ r : list Q, (λ i, default 0%Q (r !! Z.to_nat i)) <$> I) <$> L.
Definition reduced_matrix (L : matrix) (idx : list bool) : matrix :=
  (λ r : list Q, np_mask r idx) <$> np_mask L idx.
Definition reduced_rhs (L : matrix) (I : list Z) (g : list Q)
    (f : option (list Q)) (idx : list bool) : list Q :=
  let b := np_mask (mat_vec (mat_scale (-1) (columns_at L I)) g) idx in
  match f with
  | Some f => vec_add b (np_mask f idx)
  | None => b
  end.
Definition jacobi (A : matrix) : matrix :=
  diag ((λ a, / (a + eps10))%Q <$> diagonal A).

(** The part of a scalar product that lies on the entries a mask leaves
    out. *)
Definition off_mask (r u : list Q) (idx : list bool) : Q :=
  dot (np_mask r (negb <$> idx)) (np_mask u (negb <$> idx)).


(** The bounds of consecutive blocks of the lengths [cs], from [t]. *)
Fixpoint bounds (t : Z) (cs : list nat) : list Z :=
  t :: match cs with
       | [] => []
       | c :: cs' => bounds (t + Z.of_nat c) cs'
       end.

(** The rows of the stored entries of column [j], in increasing order. *)
Definition column_rows (W : matrix) (j : nat) : list Z :=
  Z.of_nat <$> filter (λ i, Qnonzero (entry W i j) = true) (seq 0 (nrows W)).

(** What [nearestneighbor] keeps for the labeled vertices [S] it has
    started from when no weight is negative: no distance is negative, and
    a labeled vertex has distance 0, is its own closest label, and is
    active or finalized. *)
Definition sources_inv (S : list Z) (st : dijkstra) : Prop :=
  Forall (λ x, (0 <= x)%Q) (dj_d st) ∧
  ∀ s, s ∈ S →
    (at_index 0%Q (dj_d st) s == 0)%Q ∧ at_index (-1) (dj_l st) s = s ∧
    (flag (dj_A st) s = true ∨ flag (dj_V st) s = true).

(** The matrices that [degree_matrix] and [graph_laplacian] return when
    they return. *)
Definition degree_diag (W : matrix) (p : exponent) : matrix :=
  diag (match p with
        | pow_one => degrees W
        | pow_minus_one => Qinv <$> degrees W
        end).
Definition laplacian (W : matrix) : matrix := mat_sub (degree_diag W pow_one) W.


(** * Proofs *)

(** ** The [result] monad *)

Lemma bind_Ok {A B} (m : result A) (k : A → result B) (b : B) :
  m ≫= k = Ok b → ∃ a, m = Ok a ∧ k a = Ok b.
Proof. destruct m; simpl; intros; try discriminate; eauto. Qed.

Lemma bind_Ok_l {A B} (m : result A) (k : A → result B) (a : A) :
  m = Ok a → m ≫= k = k a.
Proof. by intros ->. Qed.

Ltac inv_bind H :=
  repeat match type of H with
  | _ ≫= _ = Ok _ =>
    let a := fresh "a" in let E := fresh "E" in
    apply bind_Ok in H as (a & E & H)
  end.

(** ** NumPy indexing *)

Lemma np_index_nonneg {A} (a : list A) (i : Z) :
  0 ≤ i < Z.of_nat (length a) → np_index a i = Ok (Z.to_nat i).
Proof. intros. unfold np_index. by rewrite decide_True. Qed.

Lemma np_index_Ok {A} (a : list A) (i : Z) (k : nat) :
  np_index a i = Ok k → (k < length a)%nat.
Proof.
  unfold np_index. repeat case_decide; intros; simplify_eq; lia.
Qed.

Lemma np_get_nonneg {A} (a : list A) (i : Z) (x : A) :
  0 ≤ i → a !! Z.to_nat i = Some x → np_get a i = Ok x.
Proof.
  intros Hi Hx. unfold np_get. apply lookup_lt_Some in Hx as Hlt.
  rewrite np_index_nonneg by lia. simpl. by rewrite Hx.
Qed.

Lemma np_get_Ok_nonneg {A} (a : list A) (i : Z) (x : A) :
  0 ≤ i → np_get a i = Ok x → a !! Z.to_nat i = Some x.
Proof.
  intros Hi. unfold np_get, np_index.
  repeat case_decide; simpl; try discriminate; try lia.
  destruct (a !! Z.to_nat i); congruence.
Qed.

Lemma np_set_nonneg {A} (a : list A) (i : Z) (x : A) :
  0 ≤ i < Z.of_nat (length a) → np_set a i x = Ok (<[Z.to_nat i := x]> a).
Proof. intros. unfold np_set. by rewrite np_index_nonneg. Qed.

Lemma np_set_length {A} (a a' : list A) (i : Z) (x : A) :
  np_set a i x = Ok a' → length a' = length a.
Proof.
  unfold np_set. intros H. inv_bind H. simplify_eq. by rewrite length_insert.
Qed.

Lemma np_set_Ok_nonneg {A} (a a' : list A) (i : Z) (x : A) :
  0 ≤ i → np_set a i x = Ok a' →
  a' = <[Z.to_nat i := x]> a ∧ i < Z.of_nat (length a).
Proof.
  intros Hi Hs. unfold np_set, np_index in Hs.
  repeat case_decide; cbn in Hs; try discriminate; try lia.
  injection Hs as <-. split; [done|lia].
Qed.

Lemma np_put_length {A} (I : list Z) : ∀ (a u g : list A),
  np_put a I g = Ok u → length u = length a.
Proof.
  induction I as [|i I IH]; intros a u [|x g] H; simpl in H; simplify_eq; [done|].
  inv_bind H. apply IH in H. apply np_set_length in E. congruence.
Qed.

Lemma np_put_lookup_notin {A} (I : list Z) : ∀ (a u g : list A) (i : Z),
  Forall (λ i, 0 ≤ i < Z.of_nat (length a)) I → i ∉ I → 0 ≤ i →
  np_put a I g = Ok u → u !! Z.to_nat i = a !! Z.to_nat i.
Proof.
  induction I as [|i' I IH]; intros a u [|x g] i Hr Hi Hi0 H;
    simpl in H; simplify_eq; [done|].
  inv_bind H. apply Forall_cons in Hr as [Hi' Hr].
  apply not_elem_of_cons in Hi as [Hne Hi].
  rewrite np_set_nonneg in E by done. simplify_eq.
  rewrite (IH _ _ _ i) with (4 := H); [| by rewrite length_insert | done | done].
  apply list_lookup_insert_ne. lia.
Qed.

Lemma np_put_lookup {A} (I : list Z) : ∀ (a u g : list A) (j : nat) (i : Z) (x : A),
  NoDup I → Forall (λ i, 0 ≤ i < Z.of_nat (length a)) I →
  np_put a I g = Ok u → I !! j = Some i → g !! j = Some x →
  u !! Z.to_nat i = Some x.
Proof.
  induction I as [|i' I IH]; intros a u [|y g] j i x Hnd Hr H Hj Hx;
    simpl in H; simplify_eq.
  inv_bind H. apply Forall_cons in Hr as [Hi' Hr].
  apply NoDup_cons in Hnd as [Hni Hnd].
  rewrite np_set_nonneg in E by done. simplify_eq.
  destruct j as [|j]; simplify_eq/=.
  - rewrite (np_put_lookup_notin _ _ _ _ i) with (4 := H);
      [| by rewrite length_insert | done | lia].
    apply list_lookup_insert_eq. lia.
  - eapply IH with (3 := H); eauto. by rewrite length_insert.
Qed.

Lemma np_put_Ok {A} (I : list Z) : ∀ (a g : list A),
  Forall (λ i, 0 ≤ i < Z.of_nat (length a)) I → length g = length I →
  ∃ u, np_put a I g = Ok u.
Proof.
  induction I as [|i I IH]; intros a [|x g] Hr Hl; simplify_eq/=; [eauto|].
  apply Forall_cons in Hr as [Hi Hr]. rewrite np_set_nonneg by done. simpl.
  apply IH; [by rewrite length_insert | done].
Qed.

Lemma mask_fill_length {A} (a : list A) : ∀ idx v,
  length (mask_fill a idx v) = length a.
Proof.
  induction a as [|x a IH]; intros [|[] idx] v; simpl; try done.
  - destruct v; simpl; by rewrite IH.
  - by rewrite IH.
Qed.

Lemma entry_row (W : matrix) (i j : nat) (r : list Q) :
  W !! i = Some r → entry W i j = default 0%Q (r !! j).
Proof. intros H. unfold entry. by rewrite H. Qed.
(** ** Rational comparisons *)

Lemma Qltb_lt (x y : Q) : Qltb x y = true ↔ (x < y)%Q.
Proof.
  unfold Qltb. rewrite negb_true_iff, <- not_true_iff_false, Qle_bool_iff.
  split; [apply Qnot_le_lt | apply Qlt_not_le].
Qed.

Lemma Qltb_ge (x y : Q) : Qltb x y = false ↔ (y <= x)%Q.
Proof. unfold Qltb. by rewrite negb_false_iff, Qle_bool_iff. Qed.

Lemma Qmin2_spec (x y : Q) :
  (Qmin2 x y = x ∧ (x <= y)%Q) ∨ (Qmin2 x y = y ∧ (y <= x)%Q).
Proof.
  unfold Qmin2. destruct (Qle_bool x y) eqn:E.
  - left. split; [done|]. by apply Qle_bool_iff.
  - right. split; [done|]. apply Qlt_le_weak, Qltb_lt. unfold Qltb. by rewrite E.
Qed.

Lemma Qmax2_spec (x y : Q) :
  (Qmax2 x y = y ∧ (x <= y)%Q) ∨ (Qmax2 x y = x ∧ (y <= x)%Q).
Proof.
  unfold Qmax2. destruct (Qle_bool x y) eqn:E.
  - left. split; [done|]. by apply Qle_bool_iff.
  - right. split; [done|]. apply Qlt_le_weak, Qltb_lt. unfold Qltb. by rewrite E.
Qed.

Lemma Qmin2_le (x y : Q) : (Qmin2 x y <= x)%Q ∧ (Qmin2 x y <= y)%Q.
Proof. destruct (Qmin2_spec x y) as [[-> ?]|[-> ?]]; split; lra. Qed.

Lemma Qmax2_ge (x y : Q) : (x <= Qmax2 x y)%Q ∧ (y <= Qmax2 x y)%Q.
Proof. destruct (Qmax2_spec x y) as [[-> ?]|[-> ?]]; split; lra. Qed.

Lemma Qmin2_elem (x y : Q) : Qmin2 x y = x ∨ Qmin2 x y = y.
Proof. unfold Qmin2. destruct (Qle_bool x y); auto. Qed.

Lemma Qmax2_elem (x y : Q) : Qmax2 x y = x ∨ Qmax2 x y = y.
Proof. unfold Qmax2. destruct (Qle_bool x y); auto. Qed.

Lemma foldl_Qmin2_is_min (r : list Q) : ∀ x, is_min (foldl Qmin2 x r) (x :: r).
Proof.
  induction r as [|y r IH]; intros x; simpl.
  - split; [by left|]. intros z ->%list_elem_of_singleton. lra.
  - destruct (IH (Qmin2 x y)) as [Hin Hle]. split.
    + apply elem_of_cons in Hin as [->|Hin]; [|by do 2 right].
      destruct (Qmin2_elem x y) as [->| ->]; [by left | by right; left].
    + intros z Hz.
      assert (foldl Qmin2 (Qmin2 x y) r <= Qmin2 x y)%Q as H0
        by (apply Hle; by left).
      destruct (Qmin2_le x y).
      apply elem_of_cons in Hz as [->|Hz]; [lra|].
      apply elem_of_cons in Hz as [->|Hz]; [lra|]. apply Hle. by right.
Qed.

Lemma foldl_Qmax2_is_max (r : list Q) : ∀ x, is_max (foldl Qmax2 x r) (x :: r).
Proof.
  induction r as [|y r IH]; intros x; simpl.
  - split; [by left|]. intros z ->%list_elem_of_singleton. lra.
  - destruct (IH (Qmax2 x y)) as [Hin Hle]. split.
    + apply elem_of_cons in Hin as [->|Hin]; [|by do 2 right].
      destruct (Qmax2_elem x y) as [->| ->]; [by left | by right; left].
    + intros z Hz.
      assert (Qmax2 x y <= foldl Qmax2 (Qmax2 x y) r)%Q as H0
        by (apply Hle; by left).
      destruct (Qmax2_ge x y).
      apply elem_of_cons in Hz as [->|Hz]; [lra|].
      apply elem_of_cons in Hz as [->|Hz]; [lra|]. apply Hle. by right.
Qed.

Lemma np_max_is_max (x : list Q) : x ≠ [] → is_max (np_max x) x.
Proof. destruct x; [done|]. intros _. apply foldl_Qmax2_is_max. Qed.

Lemma np_min_is_min (x : list Q) : x ≠ [] → is_min (np_min x) x.
Proof. destruct x; [done|]. intros _. apply foldl_Qmin2_is_min. Qed.
(** C1. The vector returned by [constrained_solve] holds [g] at the indices
    [I], exactly: the last step of the function assigns them, whatever the
    conjugate gradient solver has returned for the other coordinates. *)
Theorem constrained_solve_labels
    (cg : matrix → list Q → option (list Q) → Q → matrix → list Q)
    (L : matrix) (I : list Z) (g : list Q) (f x0 : option (list Q)) (tol : Q)
    (u : list Q) :
  NoDup I → Forall (λ i, 0 ≤ i < Z.of_nat (nrows L)) I → length g = length I →
  constrained_solve cg L I g f x0 tol = Ok u →
  length u = nrows L ∧
  ∀ (j : nat) (i : Z) (x : Q),
    I !! j = Some i → g !! j = Some x → u !! Z.to_nat i = Some x.
Proof.
  intros Hnd Hr Hl H. unfold constrained_solve in H. inv_bind H.
  unfold np_mask_put in E2. case_decide; simplify_eq.
  apply np_put_length in H as Hlen.
  rewrite mask_fill_length, length_replicate in Hlen. split; [done|].
  intros j i x Hj Hx. eapply np_put_lookup with (3 := H); eauto.
  by rewrite mask_fill_length, length_replicate.
Qed.

Lemma constrained_solve_labels_witness :
  ∃ u, constrained_solve zero_solver
         [[1; -1; 0]; [-1; 2; -1]; [0; -1; 1]]%Q [0; 2] [1; -1]%Q None None eps10
       = Ok u ∧ u !! 0%nat = Some 1%Q ∧ u !! 2%nat = Some (-1)%Q.
Proof.
  eexists. split; [vm_compute; reflexivity|].
  assert (NoDup [0; 2]) as Hnd by (by apply (bool_decide_unpack _)).
  assert (Forall (λ i, 0 ≤ i < 3) [0; 2]) as Hr by (by apply (bool_decide_unpack _)).
  pose proof (constrained_solve_labels zero_solver
    [[1; -1; 0]; [-1; 2; -1]; [0; -1; 1]]%Q [0; 2] [1; -1]%Q None None eps10 _
    Hnd Hr eq_refl eq_refl) as [_ H].
  split; [apply (H 0%nat 0 1%Q) | apply (H 1%nat 2 (-1)%Q)]; reflexivity.
Defined.
(** ** Evaluations of the code at the inputs where it departs from the
       specification *)

(** C2. On the path 0 - 1 - 2 with w(0,1) = 5, w(1,2) = 1 and the seeds 0
    (label 0) and 2 (label 1), vertex 1 is at distance 1 from seed 2 and at
    distance 5 from seed 0.  The portable path offers vertex 1, when vertex
    2 is finalized, the candidate [d[2] + WV[1]], and [WV[1]] is the value 5
    of the second stored entry, not the weight 1 of the edge between 2 and
    1; vertex 1 ends with the label of seed 0. *)
Theorem nearestneighbor_wrong_weight :
  (sparse_find path3_5_1).2 !! 1%nat = Some 5%Q ∧
  entry path3_5_1 2 1 = 1%Q ∧
  (st ← dijkstra_python path3_5_1 [0; 2]; Ok (dj_l st, dj_d st))
    = Ok ([0; 0; 2], [0; 5; 0]%Q) ∧
  nearestneighbor None path3_5_1 [0; 2] [0; 1]
    = Ok [[1; 1; 0]; [0; 0; 1]]%Q.
Proof. by vm_compute. Qed.

(** With unit weights every stored value is the weight of every edge, and
    the path graph of the specification comes out as expected. *)
Lemma nearestneighbor_path5 :
  nearestneighbor None path5 [0; 4] [0; 1]
    = Ok [[1; 1; 1; 0; 0]; [0; 0; 0; 1; 1]]%Q.
Proof. by vm_compute. Qed.

(** C8. On the graph with the two components 0 - 1 and 2 - 3 and the one
    labeled vertex 3 (label 1), the vertices 0 and 1 keep the index -1 of
    the closest label, and the last step [u[l]] reads [u[-1]], the entry
    of the last vertex: they are returned in the class of label 1.  With
    an isolated labeled vertex, the array of column starts is one entry
    short and the call raises [IndexError]. *)
Theorem nearestneighbor_unreachable :
  (st ← dijkstra_python two_edges [3]; Ok (dj_l st)) = Ok [-1; -1; 3; 3] ∧
  nearestneighbor None two_edges [3] [1] = Ok [[1; 1; 1; 1]]%Q ∧
  nearestneighbor None edge_and_point [2] [1] = Raise IndexError.
Proof. by vm_compute. Qed.

(** C10. [LabelsToVec] on the labels -1 and 0: the loop first writes 0
    over -1 and then 1 over every 0, so both entries of the caller's array
    end as 1 and the first row of [X] is empty, where the indices in the
    sorted distinct labels are 0 and 1. *)
Theorem LabelsToVec_collision :
  LabelsToVec [-1; 0] = Ok ([[0; 0]; [1; 1]]%Q, [-1; 0], [1; 1]) ∧
  label_index (np_unique [-1; 0]) <$> [-1; 0] = [0; 1].
Proof. by vm_compute. Qed.
(** ** The graph infinity Laplacian *)

Lemma np_take_map {A B} (u : list A) (f : B → Z) (dflt : A) (T : list B) :
  Forall (λ t, 0 ≤ f t < Z.of_nat (length u)) T →
  np_take u (f <$> T) = Ok ((λ t, default dflt (u !! Z.to_nat (f t))) <$> T).
Proof.
  induction 1 as [|t T Ht _ IH]; [done|]. rewrite !fmap_cons. cbn [np_take].
  rewrite IH. destruct (u !! Z.to_nat (f t)) as [x|] eqn:E.
  - by rewrite (np_get_nonneg _ _ x) by (done || lia).
  - apply lookup_ge_None in E. lia.
Qed.

Lemma add_entry_fresh (j : Z) (v : Q) (row : list (Z * Q)) :
  j ∉ row.*1 → add_entry j v row = row ++ [(j, v)].
Proof.
  induction row as [|[j' v'] row IH]; [done|]. simpl. intros Hj.
  apply not_elem_of_cons in Hj as [? ?]. rewrite decide_False by done.
  by rewrite IH.
Qed.

Lemma sparse_find_triplets (W : matrix) :
  sparse_find W = ((find_triplets W).*1.*1, (find_triplets W).*1.*2, (find_triplets W).*2).
Proof. done. Qed.

Lemma find_triplets_range (W : matrix) :
  Forall (λ t, (0 ≤ t.1.1 < Z.of_nat (nrows W)) ∧ 0 ≤ t.1.2 < Z.of_nat (ncols W))
    (find_triplets W).
Proof.
  apply Forall_forall. intros [[i j] v] Ht. unfold find_triplets in Ht.
  apply list_elem_of_bind in Ht as (j' & Ht & Hj%elem_of_seq).
  apply list_elem_of_bind in Ht as (i' & Ht & Hi%elem_of_seq).
  unfold find_cell in Ht. destruct (Qnonzero _); [|by apply elem_of_nil in Ht].
  apply list_elem_of_singleton in Ht. simplify_eq/=. lia.
Qed.

Section StoredRow.
Context (W : matrix) (val : Z * Z * Q → Q) (i : nat).

Let step (row : list (Z * Q)) (t : Z * Z * Q) : list (Z * Q) :=
  if decide (t.1.1 = Z.of_nat i) then add_entry t.1.2 (val t) row else row.
Let mk (t : Z * Z * Q) : Z * Z * Q := (t.1.1, t.1.2, val t).

Lemma stored_row_step (M : list (Z * Z * Q)) :
  stored_row (mk <$> M) (Z.of_nat i) = foldl step [] M.
Proof.
  unfold stored_row. generalize (@nil (Z * Q)).
  induction M as [|[[i' j] v] M IH]; intros row; [done|]. simpl.
  rewrite IH. done.
Qed.

Lemma foldl_cell_other (j r : nat) (row : list (Z * Q)) :
  r ≠ i → foldl step row (find_cell W j r) = row.
Proof.
  intros Hr. unfold find_cell. destruct (Qnonzero _); [|done]. cbn.
  unfold step. cbn. rewrite decide_False; [done | lia].
Qed.

Lemma foldl_cell_same (j : nat) (row : list (Z * Q)) :
  foldl step row (find_cell W j i) =
    if Qnonzero (entry W i j)
    then add_entry (Z.of_nat j) (val (Z.of_nat i, Z.of_nat j, entry W i j)) row
    else row.
Proof.
  unfold find_cell. destruct (Qnonzero _); [|done]. cbn.
  unfold step. cbn. by rewrite decide_True.
Qed.

Lemma foldl_column (j : nat) (rs : list nat) : ∀ row,
  NoDup rs →
  foldl step row (i' ← rs; find_cell W j i') =
    if decide (i ∈ rs) then foldl step row (find_cell W j i) else row.
Proof.
  induction rs as [|r rs IH]; intros row Hnd.
  { cbn. rewrite decide_False; [done | apply not_elem_of_nil]. }
  apply NoDup_cons in Hnd as [Hr Hnd]. cbn. rewrite foldl_app, IH by done.
  destruct (decide (i = r)) as [Heq|Hne].
  - rewrite <- Heq in *. rewrite decide_False by done.
    rewrite decide_True; [done | by left].
  - rewrite (foldl_cell_other j r row (not_eq_sym Hne)).
    destruct (decide (i ∈ rs)) as [Hin|Hin].
    + rewrite decide_True; [done | by right].
    + rewrite decide_False; [done|]. by apply not_elem_of_cons.
Qed.

Lemma foldl_columns (m : nat) :
  (i < nrows W)%nat →
  foldl step [] (j ← seq 0 m; i' ← seq 0 (nrows W); find_cell W j i') =
    (λ j, (Z.of_nat j, val (Z.of_nat i, Z.of_nat j, entry W i j))) <$>
      filter (λ j, Qnonzero (entry W i j) = true) (seq 0 m).
Proof.
  intros Hi. induction m as [|m IH]; [done|].
  rewrite seq_S, bind_app, foldl_app, IH, filter_app, fmap_app.
  change ([(0 + m)%nat] ≫= λ j, seq 0 (nrows W) ≫= λ i', find_cell W j i')
    with ((seq 0 (nrows W) ≫= λ i', find_cell W m i') ++ []).
  rewrite app_nil_r, foldl_column by apply NoDup_seq.
  rewrite decide_True by (apply elem_of_seq; lia).
  change (0 + m)%nat with m. rewrite foldl_cell_same, filter_cons, filter_nil.
  destruct (Qnonzero (entry W i m)) eqn:E.
  - rewrite decide_True by done. rewrite add_entry_fresh; [done|].
    rewrite <- list_fmap_compose. intros (j & Hj & Hin)%list_elem_of_fmap.
    apply list_elem_of_filter in Hin as [_ Hin%elem_of_seq]. cbn in Hj. lia.
  - rewrite decide_False by done. by rewrite app_nil_r.
Qed.
End StoredRow.
Lemma stored_row_find (W : matrix) (u : list Q) (i : nat) :
  (i < nrows W)%nat →
  (stored_row
     ((λ t : Z * Z * Q, (t.1.1, t.1.2,
        (t.2 * (at_vertex u (Z.to_nat t.1.2) - at_vertex u (Z.to_nat t.1.1)))%Q))
        <$> find_triplets W) (Z.of_nat i)).*2
  = edge_terms W u i.
Proof.
  intros Hi.
  rewrite (stored_row_step (λ t, (t.2 * (at_vertex u (Z.to_nat t.1.2)
             - at_vertex u (Z.to_nat t.1.1)))%Q) i).
  unfold find_triplets. rewrite foldl_columns by done.
  unfold edge_terms, neighbors. rewrite <- list_fmap_compose.
  apply list_fmap_ext. intros _ j _. cbn. by rewrite !Nat2Z.id.
Qed.

Lemma sparse_reduce_min (n : nat) (vals : list Q) :
  vals ≠ [] →
  is_min (sparse_reduce Qmin2 n vals)
    (if decide (length vals < n)%nat then 0%Q :: vals else vals).
Proof.
  destruct vals as [|x r]; [done|]. intros _. unfold sparse_reduce.
  destruct (foldl_Qmin2_is_min r x) as [Hin Hle].
  case_decide; [|done]. split.
  - destruct (Qmin2_elem (foldl Qmin2 x r) 0) as [-> | ->]; [by right | by left].
  - intros z Hz. destruct (Qmin2_le (foldl Qmin2 x r) 0).
    apply elem_of_cons in Hz as [->|Hz]; [done|]. specialize (Hle z Hz). lra.
Qed.

Lemma sparse_reduce_max (n : nat) (vals : list Q) :
  vals ≠ [] →
  is_max (sparse_reduce Qmax2 n vals)
    (if decide (length vals < n)%nat then 0%Q :: vals else vals).
Proof.
  destruct vals as [|x r]; [done|]. intros _. unfold sparse_reduce.
  destruct (foldl_Qmax2_is_max r x) as [Hin Hle].
  case_decide; [|done]. split.
  - destruct (Qmax2_elem (foldl Qmax2 x r) 0) as [-> | ->]; [by right | by left].
  - intros z Hz. destruct (Qmax2_ge (foldl Qmax2 x r) 0).
    apply elem_of_cons in Hz as [->|Hz]; [done|]. specialize (Hle z Hz). lra.
Qed.

Lemma zip_with_fmap_same {A B C D} (f : B → C → D) (g : A → B) (h : A → C)
    (l : list A) :
  zip_with f (g <$> l) (h <$> l) = (λ x, f (g x) (h x)) <$> l.
Proof. induction l as [|x l IH]; [done|]. cbn. by rewrite IH. Qed.

Lemma graph_infinity_laplacian_rows (W : matrix) (u : list Q) :
  nrows W = ncols W → length u = nrows W → nrows W ≠ O →
  graph_infinity_laplacian W u None =
    Ok ((λ i, (sparse_reduce Qmin2 (nrows W) (edge_terms W u i)
               + sparse_reduce Qmax2 (nrows W) (edge_terms W u i))%Q)
          <$> seq 0 (nrows W)).
Proof.
  intros Hsq Hu Hn. unfold graph_infinity_laplacian.
  rewrite sparse_find_triplets. cbn [fst snd].
  pose proof (find_triplets_range W) as Hr. set (T := find_triplets W) in *.
  rewrite <- !list_fmap_compose.
  rewrite (np_take_map u _ 0%Q), (np_take_map u _ 0%Q); cycle 1.
  { eapply Forall_impl; [exact Hr|]. cbn. intros t [? ?]. lia. }
  { eapply Forall_impl; [exact Hr|]. cbn. intros t [? ?]. lia. }
  cbn [mbind result_bind]. unfold vec_sub. rewrite !zip_with_fmap_same.
  unfold coo_matrix. rewrite !length_fmap. rewrite decide_True by done.
  rewrite decide_True; cycle 1.
  { split; apply Forall_fmap; (eapply Forall_impl; [exact Hr|]); cbn;
      intros t [? ?]; lia. }
  cbn [mbind result_bind]. rewrite decide_False by done. f_equal.
  apply list_fmap_ext. intros k i Hk. apply lookup_seq in Hk as [-> Hk].
  change (0 + k)%nat with k in *. rewrite !zip_with_fmap_same.
  rewrite <- !(stored_row_find W u k Hk). reflexivity.
Qed.
(** C7, as stated, fails on the star with centre 0 and leaves 1, 2 for
    [u = (0,1,2)]: both terms at the centre are positive, the minimum over
    the neighbors is 1 and the maximum is 2, and the function returns 2. *)
Lemma graph_infinity_laplacian_star :
  ∃ r x, graph_infinity_laplacian star3 [0; 1; 2]%Q None = Ok r ∧
    r !! 0%nat = Some x ∧
    neighbors star3 0 = [1; 2]%nat ∧
    ¬ (x == min_max_over_neighbors star3 [0; 1; 2]%Q 0)%Q.
Proof.
  exists [2; -1; -2]%Q, 2%Q. repeat split; try by vm_compute.
Qed.

(** C7, amended.  At a vertex [i] with a neighbor, the function returns the
    sum of a minimum and a maximum of the terms [w(i,j)(u(j)-u(i))] over
    the stored entries [j] of row [i]; when the row stores fewer than [n]
    entries, the value 0 of the entries that are not stored takes part in
    both, and the two range over the neighbors alone only when the row is
    full. *)
Theorem graph_infinity_laplacian_min_max (W : matrix) (u : list Q) (i : nat) :
  nrows W = ncols W → length u = nrows W → (i < nrows W)%nat →
  neighbors W i ≠ [] →
  ∃ r m M, graph_infinity_laplacian W u None = Ok r ∧
    r !! i = Some (m + M)%Q ∧
    let xs := if decide (length (neighbors W i) < nrows W)%nat
              then 0%Q :: edge_terms W u i else edge_terms W u i in
    is_min m xs ∧ is_max M xs.
Proof.
  intros Hsq Hu Hi Hne.
  assert (edge_terms W u i ≠ []) as Hne'.
  { unfold edge_terms. by intros ?%fmap_nil_inv. }
  assert (length (edge_terms W u i) = length (neighbors W i)) as Hlen
    by apply length_fmap.
  eexists _, _, _. split; [apply graph_infinity_laplacian_rows; (done || lia)|].
  split.
  - rewrite list_lookup_fmap, lookup_seq_lt by done. reflexivity.
  - cbn. rewrite <- Hlen. split;
      [by apply sparse_reduce_min | by apply sparse_reduce_max].
Qed.

Lemma graph_infinity_laplacian_min_max_witness :
  ∃ r m M, graph_infinity_laplacian star3 [0; 1; 2]%Q None = Ok r ∧
    r !! 0%nat = Some (m + M)%Q ∧
    is_min m [0; 1; 2]%Q ∧ is_max M [0; 1; 2]%Q.
Proof.
  assert (neighbors star3 0 ≠ []) as Hne by (by vm_compute).
  apply (graph_infinity_laplacian_min_max star3 [0; 1; 2]%Q 0 eq_refl eq_refl
           ltac:(vm_compute; lia) Hne).
Defined.
(** ** Projection onto the simplex *)

Lemma Qmax2_pos (y : Q) : (0 <= y)%Q → (Qmax2 y 0 == y)%Q.
Proof. intros. destruct (Qmax2_spec y 0) as [[-> ?]|[-> ?]]; lra. Qed.

Lemma Qmax2_neg (y : Q) : (y <= 0)%Q → (Qmax2 y 0 == 0)%Q.
Proof. intros. destruct (Qmax2_spec y 0) as [[-> ?]|[-> ?]]; lra. Qed.

Lemma Qmax2_0_nonneg (y : Q) : (0 <= Qmax2 y 0)%Q.
Proof. destruct (Qmax2_ge y 0). done. Qed.

Lemma QofN_S (r : nat) : (QofN (S r) == QofN r + 1)%Q.
Proof.
  unfold QofN. rewrite Nat2Z.inj_succ, <- Z.add_1_r, inject_Z_plus. reflexivity.
Qed.

Lemma QofN_nonneg (r : nat) : (0 <= QofN r)%Q.
Proof.
  unfold QofN. change 0%Q with (inject_Z 0). rewrite <- Zle_Qle. lia.
Qed.

Lemma QofN_pos (n : nat) : (0 < n)%nat → (0 < QofN n)%Q.
Proof.
  intros Hn. unfold QofN. change 0%Q with (inject_Z 0).
  rewrite <- Zlt_Qlt. lia.
Qed.

Lemma Qsum_cons (a : Q) (x : list Q) : Qsum (a :: x) = (a + Qsum x)%Q.
Proof. done. Qed.

Lemma Qsum_app (x y : list Q) : (Qsum (x ++ y) == Qsum x + Qsum y)%Q.
Proof.
  induction x as [|a x IH]; [change (Qsum y == 0 + Qsum y)%Q; lra|].
  cbn [app]. rewrite !Qsum_cons, IH. lra.
Qed.

Lemma Qsum_Permutation (x y : list Q) : x ≡ₚ y → (Qsum x == Qsum y)%Q.
Proof.
  induction 1 as [|a x y _ IH|a b x|x y z _ IH1 _ IH2].
  - reflexivity.
  - rewrite !Qsum_cons, IH. reflexivity.
  - rewrite !Qsum_cons. lra.
  - by rewrite IH1.
Qed.

Lemma clip_cons (t a : Q) (x : list Q) :
  clip t (a :: x) = Qmax2 (a - t) 0 :: clip t x.
Proof. done. Qed.

Lemma Qsum_clip_zero (t : Q) (x : list Q) :
  Forall (λ v, v <= t)%Q x → (Qsum (clip t x) == 0)%Q.
Proof.
  induction 1 as [|v x Hv _ IH]; [reflexivity|].
  rewrite clip_cons, Qsum_cons, IH, Qmax2_neg by lra. lra.
Qed.

Lemma find_tau_last (acc : Q) (r : nat) (a : Q) :
  find_tau acc r [a] = ((acc + a - 1) / QofN (r + 1))%Q.
Proof. done. Qed.

Lemma find_tau_next (acc : Q) (r : nat) (a b : Q) (s : list Q) :
  find_tau acc r (a :: b :: s) =
    if Qle_bool b ((acc + a - 1) / QofN (r + 1))
    then ((acc + a - 1) / QofN (r + 1))%Q
    else find_tau (acc + a) (S r) (b :: s).
Proof. done. Qed.

(** The walk stops below the entry it starts at, and the column clipped at
    its threshold, with the [r] entries passed, has sum 1. *)
Lemma find_tau_sum (s : list Q) : ∀ (acc : Q) (r : nat) (a : Q) (s' : list Q),
  s = a :: s' →
  StronglySorted (λ x y, y <= x)%Q s →
  (acc - 1 < QofN r * a)%Q →
  (find_tau acc r s < a)%Q ∧
  (acc - QofN r * find_tau acc r s + Qsum (clip (find_tau acc r s) s) == 1)%Q.
Proof.
  induction s as [|a0 s IH]; intros acc r a s' Heq Hs Hinv; [done|].
  injection Heq as -> ->. apply StronglySorted_inv in Hs as [Hs Ha].
  pose proof (QofN_nonneg r) as Hr. pose proof (QofN_S r) as HS.
  set (tau := ((acc + a - 1) / QofN (r + 1))%Q).
  assert (tau * (QofN r + 1) == acc + a - 1)%Q as Htau.
  { unfold tau. rewrite Nat.add_1_r, HS. field. lra. }
  assert (tau < a)%Q as Hlt by nra.
  assert (∀ rest, Forall (λ v, v <= tau)%Q rest →
     acc - QofN r * tau + Qsum (clip tau (a :: rest)) == 1)%Q as Hstop.
  { intros rest Hrest.
    rewrite clip_cons, Qsum_cons, Qsum_clip_zero, Qmax2_pos by (done || lra).
    lra. }
  destruct s' as [|b s''].
  { rewrite find_tau_last. fold tau. split; [done|]. by apply Hstop. }
  rewrite find_tau_next. fold tau. destruct (Qle_bool b tau) eqn:E.
  - apply Qle_bool_iff in E. split; [done|]. apply Hstop.
    apply Forall_cons. split; [done|]. apply StronglySorted_inv in Hs as [_ Hb].
    eapply Forall_impl; [exact Hb|]. cbn. intros v Hv. lra.
  - assert (tau < b)%Q as Hb.
    { apply Qltb_lt. unfold Qltb. by rewrite E. }
    apply Forall_cons in Ha as [Hba _]. cbn beta in Hba.
    destruct (IH (acc + a)%Q (S r) b s'' eq_refl Hs) as [Ht Hsum].
    { rewrite HS.
      assert (0 < (b - tau) * (QofN r + 1))%Q
        by (apply Qmult_lt_0_compat; lra).
      lra. }
    set (t := find_tau (acc + a) (S r) (b :: s'')) in *.
    split; [lra|]. rewrite clip_cons, Qsum_cons, Qmax2_pos by lra.
    rewrite HS in Hsum. lra.
Qed.
Lemma Qle_bool_refl (x : Q) : Qle_bool x x = true.
Proof. apply Qle_bool_iff. lra. Qed.

Lemma cumsum_from_length (s : list Q) : ∀ acc, length (cumsum_from acc s) = length s.
Proof. induction s as [|a s IH]; intros acc; cbn; [done|]. by rewrite IH. Qed.

Lemma zip_with_last_true (M X : list Q) (L : Q) :
  length M = length X → last M = Some L → last X = Some L →
  true ∈ zip_with (λ m xs, Qle_bool xs m) M X.
Proof.
  intros Hlen [M0 ->]%last_Some [X0 ->]%last_Some.
  rewrite !length_app in Hlen. cbn in Hlen.
  rewrite zip_with_app by lia. apply elem_of_app. right. cbn.
  rewrite Qle_bool_refl. by left.
Qed.

(** The threshold that [ProjectToSimplex] reads off [Max] at the first
    index with [Max >= Xs] is the one the walk finds. *)
Lemma argmax_threshold (s : list Q) : ∀ (acc : Q) (r0 : nat) (L : Q),
  s ≠ [] →
  let Mg := imap (λ r c, ((c - 1) / QofN (r + r0 + 1))%Q) (cumsum_from acc s) in
  last Mg = Some L →
  default 0%Q (Mg !! argmax_bool (zip_with (λ m xs, Qle_bool xs m) Mg
                                    (drop 1 s ++ [L])))
  = find_tau acc r0 s.
Proof.
  induction s as [|a s IH]; intros acc r0 L Hne; [done|]. clear Hne.
  destruct s as [|b s''].
  - cbn. intros [= <-]. by rewrite Qle_bool_refl.
  - intros Mg HL. rewrite find_tau_next.
    set (s := b :: s'') in *.
    set (m0 := ((acc + a - 1) / QofN (r0 + 1))%Q).
    set (Mg' := imap (λ r c, ((c - 1) / QofN (r + S r0 + 1))%Q)
                  (cumsum_from (acc + a) s)).
    assert (Mg = m0 :: Mg') as HMg.
    { unfold Mg. cbn [cumsum_from]. rewrite imap_cons. f_equal.
      apply imap_ext. intros i c _. cbn. do 3 f_equal. lia. }
    assert (Mg' ≠ []) as Hne'.
    { intros Heq%(f_equal length). unfold Mg' in Heq.
      rewrite length_imap, cumsum_from_length in Heq. done. }
    assert (last Mg' = Some L) as HL'.
    { rewrite HMg in HL. destruct Mg'; [done|]. by rewrite last_cons_cons in HL. }
    specialize (IH (acc + a)%Q (S r0) L ltac:(done) HL'). fold Mg' in IH.
    rewrite HMg. change (drop 1 (a :: s)) with s.
    change (s ++ [L]) with (b :: (drop 1 s ++ [L])).
    cbn [zip_with]. destruct (Qle_bool b m0) eqn:E; [done|].
    cbn [argmax_bool]. rewrite decide_True; [exact IH|].
    apply (zip_with_last_true _ _ L); [|done|apply last_snoc].
    unfold Mg'. rewrite length_imap, cumsum_from_length, length_app.
    rewrite length_drop. cbn. lia.
Qed.

Lemma Qopp_opp_eq (x : Q) : Qopp (Qopp x) = x.
Proof. destruct x as [a b]. unfold Qopp. cbn. f_equal. lia. Qed.

#[global] Instance Qle_total : Total Qle.
Proof. intros x y. destruct (Qlt_le_dec x y); [left|right]; lra. Qed.

#[global] Instance Qle_trans' : Transitive Qle.
Proof. intros x y z ??. lra. Qed.

Lemma sort_descending_Permutation (x : list Q) : sort_descending x ≡ₚ x.
Proof.
  unfold sort_descending. rewrite merge_sort_Permutation, <- list_fmap_compose.
  rewrite (list_fmap_ext _ id x); [by rewrite list_fmap_id|].
  intros _ v _. apply Qopp_opp_eq.
Qed.

Lemma sort_descending_sorted (x : list Q) :
  StronglySorted (λ a b, b <= a)%Q (sort_descending x).
Proof.
  unfold sort_descending.
  pose proof (StronglySorted_merge_sort Qle (Qopp <$> x)) as H.
  induction H as [|a l _ IH Ha]; [constructor|].
  rewrite fmap_cons. constructor; [done|].
  apply Forall_fmap. eapply Forall_impl; [exact Ha|]. cbn. intros b Hb. lra.
Qed.

Lemma project_column_clip (x : list Q) :
  x ≠ [] → project_column x = clip (find_tau 0 0 (sort_descending x)) x.
Proof.
  intros Hne. unfold project_column, clip.
  assert (sort_descending x ≠ []) as Hs.
  { intros Heq. pose proof (sort_descending_Permutation x) as HP.
    rewrite Heq in HP. by apply Permutation_nil_l in HP. }
  assert (length (sort_descending x) = length x) as Hlen
    by (by rewrite sort_descending_Permutation).
  set (s := sort_descending x) in *. unfold cumsum.
  set (Mg := imap (λ r c, ((c - 1) / QofN (r + 1))%Q) (cumsum_from 0 s)).
  assert (Mg = imap (λ r c, ((c - 1) / QofN (r + 0 + 1))%Q) (cumsum_from 0 s))
    as HMg.
  { apply imap_ext. intros i c _. cbn. by rewrite Nat.add_0_r. }
  assert (last Mg = Some ((default 0 (last (cumsum_from 0 s)) - 1) / QofN (length x))%Q)
    as HL.
  { unfold Mg. rewrite !last_lookup, list_lookup_imap, length_imap.
    rewrite cumsum_from_length, Hlen.
    destruct (cumsum_from 0 s !! pred (length x)) as [c|] eqn:E.
    - cbn. do 3 f_equal. destruct x; [done|]. cbn. lia.
    - apply lookup_ge_None in E. rewrite cumsum_from_length, Hlen in E.
      destruct x; [done|]. cbn in E. lia. }
  pose proof (λ L, argmax_threshold s 0 0 L Hs) as Ht. cbn zeta in Ht.
  rewrite <- HMg in Ht. by rewrite (Ht _ HL).
Qed.

Lemma project_column_sum (x : list Q) :
  x ≠ [] → (Qsum (project_column x) == 1)%Q.
Proof.
  intros Hne. rewrite project_column_clip by done.
  pose proof (sort_descending_Permutation x) as HP.
  pose proof (sort_descending_sorted x) as Hs.
  destruct (sort_descending x) as [|a s'] eqn:E.
  { by apply Permutation_nil_l in HP. }
  destruct (find_tau_sum (a :: s') 0 0 a s' eq_refl Hs) as [_ Hsum].
  { change (QofN 0) with 0%Q. lra. }
  change (QofN 0) with 0%Q in Hsum.
  assert (Qsum (clip (find_tau 0 0 (a :: s')) (a :: s'))
          == Qsum (clip (find_tau 0 0 (a :: s')) x))%Q as HQ
    by (by apply Qsum_Permutation, fmap_Permutation).
  lra.
Qed.

Lemma project_column_nonneg (x : list Q) :
  Forall (λ v, 0 <= v)%Q (project_column x).
Proof.
  unfold project_column. apply Forall_fmap, Forall_true. intros v.
  apply Qmax2_0_nonneg.
Qed.

Lemma project_column_length (x : list Q) :
  length (project_column x) = length x.
Proof. unfold project_column. by rewrite length_fmap. Qed.
Lemma Qsum_nonneg (x : list Q) : Forall (λ v, 0 <= v)%Q x → (0 <= Qsum x)%Q.
Proof.
  induction 1 as [|v x Hv _ IH]; [by change (0 <= 0)%Q|].
  rewrite Qsum_cons. lra.
Qed.

Lemma clip_above (t : Q) (x : list Q) :
  (0 < t)%Q → Forall (λ v, 0 <= v)%Q x →
  (Qsum (clip t x) <= Qsum x)%Q ∧ ((0 < Qsum x)%Q → (Qsum (clip t x) < Qsum x)%Q).
Proof.
  intros Ht. induction 1 as [|v x Hv Hx [IH1 IH2]].
  { change (0 <= 0 ∧ (0 < 0 → 0 < 0))%Q. split; lra. }
  rewrite clip_cons, !Qsum_cons. pose proof (Qsum_nonneg x Hx).
  destruct (Qmax2_spec (v - t) 0) as [[-> ?]|[-> ?]].
  - split; [lra|]. intros Hpos. destruct (Qlt_le_dec 0 (Qsum x)); [|lra].
    specialize (IH2 ltac:(done)). lra.
  - split; lra.
Qed.

Lemma clip_below (t : Q) (x : list Q) :
  (t < 0)%Q → Forall (λ v, 0 <= v)%Q x →
  (Qsum x <= Qsum (clip t x))%Q ∧ (x ≠ [] → (Qsum x < Qsum (clip t x))%Q).
Proof.
  intros Ht. induction 1 as [|v x Hv Hx [IH1 IH2]].
  { split; [by change (0 <= 0)%Q | done]. }
  rewrite clip_cons, !Qsum_cons.
  destruct (Qmax2_spec (v - t) 0) as [[-> ?]|[-> ?]]; split; intros; lra.
Qed.

(** A column of the simplex is clipped at the threshold 0. *)
Lemma clip_simplex_threshold (t : Q) (x : list Q) :
  x ≠ [] → Forall (λ v, 0 <= v)%Q x → (Qsum x == 1)%Q →
  (Qsum (clip t x) == 1)%Q → (t == 0)%Q.
Proof.
  intros Hne Hx H1 Hc.
  destruct (Qlt_le_dec 0 t) as [Hpos|Hle].
  { destruct (clip_above t x Hpos Hx) as [_ H]. specialize (H ltac:(lra)). lra. }
  destruct (Qlt_le_dec t 0) as [Hneg|Hge]; [|lra].
  destruct (clip_below t x Hneg Hx) as [_ H]. specialize (H Hne). lra.
Qed.

Lemma project_column_simplex (x : list Q) :
  x ≠ [] → Forall (λ v, 0 <= v)%Q x → (Qsum x == 1)%Q →
  Forall2 Qeq (project_column x) x.
Proof.
  intros Hne Hx H1. pose proof (project_column_sum x Hne) as Hs.
  rewrite project_column_clip in Hs |- * by done.
  set (t := find_tau 0 0 (sort_descending x)) in *.
  pose proof (clip_simplex_threshold t x Hne Hx H1 Hs) as Ht.
  unfold clip. apply Forall2_fmap_l, Forall2_same_length_lookup_2; [done|].
  intros i v v' Hv Hv'. simplify_eq. cbn.
  rewrite Forall_lookup in Hx. specialize (Hx i v Hv). cbn in Hx.
  rewrite Qmax2_pos; lra.
Qed.

(** Columns of a matrix *)

Lemma column_length (X : matrix) (j : nat) : length (column X j) = nrows X.
Proof. unfold column. by rewrite length_fmap. Qed.

Lemma columns_lookup (n : nat) (X : matrix) (j : nat) :
  (j < n)%nat → columns n X !! j = Some (column X j).
Proof.
  intros Hj. unfold columns. by rewrite list_lookup_fmap, lookup_seq_lt.
Qed.

Lemma columns_length (n : nat) (X : matrix) : length (columns n X) = n.
Proof. unfold columns. by rewrite length_fmap, length_seq. Qed.

Lemma lookups_seq (l : list Q) :
  (λ i, default 0%Q (l !! i)) <$> seq 0 (length l) = l.
Proof.
  apply list_eq. intros i. rewrite list_lookup_fmap.
  destruct (l !! i) as [x|] eqn:E.
  - rewrite lookup_seq_lt by (by eapply lookup_lt_Some). cbn. by rewrite E.
  - rewrite lookup_seq_ge; [done|]. by apply lookup_ge_None.
Qed.

Lemma column_columns (k : nat) (cs : list (list Q)) (j : nat) (c : list Q) :
  cs !! j = Some c → length c = k → column (columns k cs) j = c.
Proof.
  intros Hc Hk. unfold column, columns. rewrite <- list_fmap_compose.
  etrans; [|apply lookups_seq]. rewrite Hk.
  apply list_fmap_ext. intros _ i _. cbn. unfold column.
  by rewrite list_lookup_fmap, Hc.
Qed.

Lemma columns_columns (n k : nat) (cs : list (list Q)) :
  length cs = n → Forall (λ c, length c = k) cs → columns n (columns k cs) = cs.
Proof.
  intros Hn Hk. apply list_eq. intros j.
  destruct (cs !! j) as [c|] eqn:E.
  - rewrite columns_lookup by (rewrite <- Hn; by eapply lookup_lt_Some).
    f_equal. apply column_columns; [done|].
    by eapply (proj1 (Forall_lookup _ _) Hk).
  - apply lookup_ge_None. rewrite columns_length. apply lookup_ge_None in E. lia.
Qed.

Lemma column_Qeq (cs' cs : list (list Q)) (i : nat) :
  Forall2 (Forall2 Qeq) cs' cs → Forall2 Qeq (column cs' i) (column cs i).
Proof.
  intros H. unfold column. apply Forall2_fmap. eapply Forall2_impl; [exact H|].
  cbn. intros c' c Hc. destruct (c' !! i) as [v'|] eqn:E'.
  - destruct (Forall2_lookup_l _ _ _ _ _ Hc E') as (v & -> & Hv). done.
  - apply lookup_ge_None in E'. rewrite (Forall2_length _ _ _ Hc) in E'.
    apply lookup_ge_None in E'. by rewrite E'.
Qed.

Lemma columns_Qeq (k : nat) (cs' cs : list (list Q)) :
  Forall2 (Forall2 Qeq) cs' cs →
  Forall2 (Forall2 Qeq) (columns k cs') (columns k cs).
Proof.
  intros H. unfold columns. apply Forall2_fmap, Forall2_same_length_lookup_2.
  { done. }
  intros i j j' Hj Hj'. simplify_eq. cbn. by apply column_Qeq.
Qed.




(** ** [np.unique] and the relabelling loop *)

Lemma elem_of_insert_unique (x y : Z) (l : list Z) :
  y ∈ insert_unique x l ↔ y = x ∨ y ∈ l.
Proof.
  induction l as [|z l IH]; cbn.
  - rewrite list_elem_of_singleton, elem_of_nil. tauto.
  - repeat case_decide; rewrite ?elem_of_cons, ?IH; subst; tauto.
Qed.

Lemma insert_unique_sorted (x : Z) (l : list Z) :
  StronglySorted Z.lt l → StronglySorted Z.lt (insert_unique x l).
Proof.
  induction 1 as [|z l Hl IH Hz]; cbn; [repeat constructor|].
  repeat case_decide.
  - constructor; [by constructor|]. constructor; [done|].
    eapply Forall_impl; [exact Hz|]. cbn. lia.
  - by constructor.
  - constructor; [done|]. apply Forall_forall. intros y Hy.
    apply elem_of_insert_unique in Hy as [->|Hy]; [lia|].
    by apply (proj1 (Forall_forall _ _) Hz).
Qed.

Lemma elem_of_np_unique (x : Z) (l : list Z) : x ∈ np_unique l ↔ x ∈ l.
Proof.
  induction l as [|y l IH]; [done|]. cbn. fold (np_unique l).
  rewrite elem_of_insert_unique, elem_of_cons, IH. tauto.
Qed.

Lemma np_unique_sorted (l : list Z) : StronglySorted Z.lt (np_unique l).
Proof.
  induction l as [|y l IH]; [constructor|]. cbn. by apply insert_unique_sorted.
Qed.

Lemma StronglySorted_lt_NoDup (l : list Z) : StronglySorted Z.lt l → NoDup l.
Proof.
  induction 1 as [|z l Hl IH Hz]; constructor; [|done].
  intros Hin. apply (proj1 (Forall_forall _ _) Hz) in Hin. lia.
Qed.

Lemma sorted_lt_unique (l1 l2 : list Z) :
  StronglySorted Z.lt l1 → StronglySorted Z.lt l2 →
  (∀ x, x ∈ l1 ↔ x ∈ l2) → l1 = l2.
Proof.
  intros H1 H2 Hel. apply (StronglySorted_unique_strong Z.lt); [lia|done|done|].
  apply NoDup_Permutation; [by apply StronglySorted_lt_NoDup ..|done].
Qed.

Lemma seqZ_sorted (n : nat) : ∀ m, StronglySorted Z.lt (seqZ m (Z.of_nat n)).
Proof.
  induction n as [|n IH]; intros m; [constructor|].
  rewrite seqZ_cons by lia. replace (Z.pred (Z.of_nat (S n))) with (Z.of_nat n) by lia.
  constructor; [apply IH|]. apply Forall_forall. intros x Hx%elem_of_seqZ. lia.
Qed.

Lemma np_unique_ext (g g' : list Z) :
  (∀ x, x ∈ g ↔ x ∈ g') → np_unique g = np_unique g'.
Proof.
  intros H. apply sorted_lt_unique; [apply np_unique_sorted ..|].
  intros x. by rewrite !elem_of_np_unique.
Qed.

Lemma np_unique_range (g : list Z) (k : nat) :
  (∀ x, x ∈ g ↔ 0 ≤ x < Z.of_nat k) → np_unique g = seqZ 0 (Z.of_nat k).
Proof.
  intros H. apply sorted_lt_unique; [apply np_unique_sorted | apply seqZ_sorted |].
  intros x. rewrite elem_of_np_unique, elem_of_seqZ, H. lia.
Qed.

Lemma assign_where_same (a : Z) (L : list Z) : assign_where a a L = L.
Proof.
  unfold assign_where. rewrite <- (list_fmap_id L) at 2.
  apply list_fmap_ext. intros _ x _. by case_decide.
Qed.

Lemma relabel_range (k : nat) : ∀ (m : Z) (L : list Z),
  relabel m (seqZ m (Z.of_nat k)) L = L.
Proof.
  induction k as [|k IH]; intros m L; [done|].
  rewrite seqZ_cons by lia. replace (Z.pred (Z.of_nat (S k))) with (Z.of_nat k) by lia.
  cbn. rewrite assign_where_same. apply IH.
Qed.

Lemma row_indices_range (k : nat) (L : list Z) :
  Forall (λ x, 0 ≤ x < Z.of_nat k) L → row_indices k L = Ok (Z.to_nat <$> L).
Proof.
  induction 1 as [|x L Hx _ IH]; [done|]. cbn.
  rewrite np_index_nonneg by (by rewrite length_replicate). cbn. by rewrite IH.
Qed.

(** The indicator matrix of labels that are already 0..k-1. *)
Lemma LabelsToVec_range (L : list Z) (k : nat) :
  (∀ x, x ∈ L ↔ 0 ≤ x < Z.of_nat k) →
  LabelsToVec L =
    Ok ((λ c, (λ x, if decide (Z.to_nat x = c) then 1%Q else 0%Q) <$> L) <$> seq 0 k,
        seqZ 0 (Z.of_nat k), L).
Proof.
  intros H. unfold LabelsToVec. rewrite (np_unique_range L k H).
  rewrite relabel_range, length_seqZ, Nat2Z.id. unfold one_hot.
  rewrite row_indices_range by (apply Forall_forall; intros x; apply H).
  cbn. do 3 f_equal. apply list_fmap_ext. intros _ c _.
  by rewrite <- list_fmap_compose.
Qed.
(** ** The Poisson source term *)

Lemma np_put_elem {A} (I : list Z) : ∀ (a u g : list A) (x : A),
  np_put a I g = Ok u → x ∈ u → x ∈ a ∨ x ∈ g.
Proof.
  induction I as [|i I IH]; intros a u [|y g] x H Hx; simpl in H; simplify_eq.
  { by left. }
  inv_bind H. unfold np_set in E. inv_bind E. simplify_eq.
  destruct (IH _ _ _ _ H Hx) as [Hin|Hin]; [|right; by right].
  apply list_elem_of_lookup in Hin as [j Hj].
  apply list_lookup_insert_Some in Hj as [(-> & -> & _)|[_ Hj]].
  - right. by left.
  - left. by eapply list_elem_of_lookup_2.
Qed.

Lemma Qsum_insert (l : list Q) : ∀ (i : nat) (v v' : Q),
  l !! i = Some v → (Qsum (<[i := v']> l) == Qsum l - v + v')%Q.
Proof.
  induction l as [|a l IH]; intros [|i] v v' H; [done|done| |].
  - injection H as ->. change (<[0%nat:=v']> (v :: l)) with (v' :: l).
    rewrite !Qsum_cons. lra.
  - change (<[S i:=v']> (a :: l)) with (a :: <[i:=v']> l).
    rewrite !Qsum_cons, (IH i v v' H). lra.
Qed.

Lemma column_insert (b : list (list Q)) (i c : nat) (r : list Q) :
  column (<[i := r]> b) c = <[i := default 0%Q (r !! c)]> (column b c).
Proof. unfold column. by rewrite list_fmap_insert. Qed.

Lemma Qsum_column_insert (b : list (list Q)) (i c : nat) (r r' : list Q) :
  b !! i = Some r →
  (Qsum (column (<[i := r']> b) c)
   == Qsum (column b c) - default 0 (r !! c) + default 0 (r' !! c))%Q.
Proof.
  intros Hr. rewrite column_insert. apply Qsum_insert.
  unfold column. by rewrite list_lookup_fmap, Hr.
Qed.

(** Sums over the labels, class by class. *)
Lemma count_label_cons (a c : Z) (g : list Z) :
  count_label (a :: g) c = ((if decide (a = c) then 1 else 0) + count_label g c)%nat.
Proof. unfold count_label. rewrite filter_cons. by case_decide. Qed.

Lemma Qsum_indicator (F : Z → Q) (a : Z) (U : list Z) :
  NoDup U → a ∈ U →
  (Qsum ((λ c, (if decide (a = c) then 1 else 0) * F c) <$> U) == F a)%Q.
Proof.
  induction 1 as [|c U Hc HU IH]; intros Ha; [by apply elem_of_nil in Ha|].
  rewrite fmap_cons, Qsum_cons.
  assert (a ∉ U → Qsum ((λ c, (if decide (a = c) then 1 else 0) * F c) <$> U) == 0)%Q
    as Hzero.
  { clear. induction U as [|c U IH]; intros Hn; [reflexivity|].
    apply not_elem_of_cons in Hn as [? ?]. rewrite fmap_cons, Qsum_cons, IH by done.
    rewrite decide_False by done. lra. }
  apply elem_of_cons in Ha as [->|Ha].
  - rewrite decide_True, Hzero by done. lra.
  - rewrite IH by done. rewrite decide_False by (intros ->; done). lra.
Qed.

Lemma QofN_add (x y : nat) : (QofN (x + y) == QofN x + QofN y)%Q.
Proof. unfold QofN. by rewrite Nat2Z.inj_add, inject_Z_plus. Qed.

Lemma Qsum_count_cons (F : Z → Q) (a : Z) (g U : list Z) :
  (Qsum ((λ c, QofN (count_label (a :: g) c) * F c) <$> U)
   == Qsum ((λ c, (if decide (a = c) then 1 else 0) * F c) <$> U)
      + Qsum ((λ c, QofN (count_label g c) * F c) <$> U))%Q.
Proof.
  induction U as [|c U IH]; [by change (0 == 0 + 0)%Q|].
  rewrite !fmap_cons, !Qsum_cons, IH, count_label_cons, QofN_add.
  case_decide; [change (QofN 1) with 1%Q | change (QofN 0) with 0%Q]; lra.
Qed.

Lemma Qsum_by_class (F : Z → Q) (U : list Z) (g : list Z) :
  NoDup U → Forall (λ x, x ∈ U) g →
  (Qsum (F <$> g) == Qsum ((λ c, QofN (count_label g c) * F c) <$> U))%Q.
Proof.
  intros HU. induction 1 as [|a g Ha _ IH].
  { clear. induction U as [|c U IH]; [reflexivity|].
    rewrite fmap_cons, Qsum_cons, <- IH.
    change (Qsum (F <$> [])) with 0%Q. change (QofN (count_label [] c)) with 0%Q.
    lra. }
  rewrite fmap_cons, Qsum_cons, IH, Qsum_count_cons, Qsum_indicator by done.
  reflexivity.
Qed.

Lemma Qsum_const_one {A} (l : list A) : (Qsum ((λ _, 1%Q) <$> l) == QofN (length l))%Q.
Proof.
  induction l as [|a l IH]; [reflexivity|].
  rewrite fmap_cons, Qsum_cons, IH. cbn [length]. rewrite QofN_S. lra.
Qed.

(** Every class contributes 1 to the sum of the weights [1/n_c] over the
    labeled vertices. *)
Lemma Qsum_inverse_counts (g : list Z) (k : nat) :
  (∀ x, x ∈ g ↔ 0 ≤ x < Z.of_nat k) →
  (Qsum ((λ x, / QofN (count_label g x)) <$> g) == QofN k)%Q.
Proof.
  intros H.
  rewrite (Qsum_by_class _ (seqZ 0 (Z.of_nat k)));
    [| apply NoDup_seqZ
     | apply Forall_forall; intros x Hx%H; apply elem_of_seqZ; lia].
  rewrite <- (Nat2Z.id k) at 2. rewrite <- (length_seqZ 0 (Z.of_nat k)), <- Qsum_const_one.
  assert (∀ l, Forall (λ c, c ∈ g) l →
    Qsum ((λ c, QofN (count_label g c) * / QofN (count_label g c)) <$> l)
    == Qsum ((λ _, 1%Q) <$> l))%Q as Hl.
  { induction 1 as [|c l Hc _ IH]; [reflexivity|].
    rewrite !fmap_cons, !Qsum_cons, IH. apply Qplus_comp; [|reflexivity].
    apply Qmult_inv_r. unfold count_label.
    destruct (filter (λ x, x = c) g) as [|y f] eqn:E.
    - exfalso. assert (c ∈ filter (λ x, x = c) g) as Hin
        by (by apply list_elem_of_filter).
      rewrite E in Hin. by apply elem_of_nil in Hin.
    - cbn [length]. rewrite QofN_S. pose proof (QofN_nonneg (length f)). lra. }
  apply Hl. apply Forall_forall. intros c Hc%elem_of_seqZ. apply H. lia.
Qed.
Lemma center_row_Ok (NL cvec : list Q) (b : list (list Q)) (i gj : Z)
    (bi : list Q) (nl : Q) :
  0 ≤ i → 0 ≤ gj → b !! Z.to_nat i = Some bi → NL !! Z.to_nat gj = Some nl →
  center_row NL cvec b (i, gj) =
    Ok (<[Z.to_nat i := vec_sub bi ((λ x, x / nl)%Q <$> cvec)]> b).
Proof.
  intros Hi Hg Hbi Hnl. unfold center_row. cbn [fst snd].
  rewrite (np_get_nonneg b i bi), (np_get_nonneg NL gj nl) by done.
  cbn [mbind result_bind]. apply lookup_lt_Some in Hbi.
  rewrite np_set_nonneg by lia. done.
Qed.

Lemma center_rows (NL cvec : list Q) (k n : nat) : ∀ (ps : list (Z * Z)) (b : list (list Q)),
  length b = n → Forall (λ r, length r = k) b → length cvec = k →
  Forall (λ p, (0 ≤ p.1 < Z.of_nat n) ∧ 0 ≤ p.2 < Z.of_nat (length NL)) ps →
  ∃ b', for_each (center_row NL cvec) b ps = Ok b' ∧
    length b' = n ∧ Forall (λ r, length r = k) b' ∧
    ∀ c, (c < k)%nat →
      (Qsum (column b' c) ==
       Qsum (column b c)
       - default 0 (cvec !! c)
         * Qsum ((λ p, / default 0 (NL !! Z.to_nat p.2)) <$> ps))%Q.
Proof.
  induction ps as [|[i gj] ps IH]; intros b Hn Hk Hc Hps.
  { exists b. repeat split; try done. intros c _.
    change (Qsum ((λ p : Z * Z, / default 0 (NL !! Z.to_nat p.2))%Q <$> []))
      with 0%Q.
    lra. }
  apply Forall_cons in Hps as [[Hi Hg] Hps]. cbn in Hi, Hg.
  destruct (lookup_lt_is_Some_2 b (Z.to_nat i)) as [bi Hbi]; [lia|].
  destruct (lookup_lt_is_Some_2 NL (Z.to_nat gj)) as [nl Hnl]; [lia|].
  assert (length bi = k) as Hbik
    by (by eapply (proj1 (Forall_lookup _ _) Hk)).
  set (r' := vec_sub bi ((λ x, x / nl)%Q <$> cvec)).
  assert (length r' = k) as Hr'
    by (unfold r', vec_sub; rewrite length_zip_with, length_fmap; lia).
  destruct (IH (<[Z.to_nat i := r']> b)) as (b' & Hb' & Hn' & Hk' & Hsum).
  { by rewrite length_insert. }
  { by apply Forall_insert. }
  { done. }
  { done. }
  exists b'. split.
  { cbn [for_each]. rewrite (center_row_Ok NL cvec b i gj bi nl) by (done || lia).
    exact Hb'. }
  split; [done|]. split; [done|]. intros c Hck. rewrite (Hsum c Hck).
  rewrite (Qsum_column_insert b _ c bi r' Hbi), fmap_cons, Qsum_cons.
  cbn [snd]. rewrite Hnl. cbn [default].
  destruct (lookup_lt_is_Some_2 bi c) as [x Hx]; [lia|].
  destruct (lookup_lt_is_Some_2 cvec c) as [y Hy]; [lia|].
  assert (r' !! c = Some (x - y / nl)%Q) as ->.
  { unfold r', vec_sub. by rewrite lookup_zip_with, Hx, list_lookup_fmap, Hy. }
  rewrite Hx, Hy. cbn [default]. unfold Qdiv, id. ring.
Qed.
Lemma seqZ_lookup_range (k : nat) (x : Z) :
  0 ≤ x < Z.of_nat k → seqZ 0 (Z.of_nat k) !! Z.to_nat x = Some x.
Proof. intros Hx. rewrite lookup_seqZ_lt by lia. f_equal. lia. Qed.

Lemma np_put_replicate_Ok {A} (n : nat) (a : A) (I : list Z) (g : list A) :
  Forall (λ i, 0 ≤ i < Z.of_nat n) I → length g = length I →
  ∃ u, np_put (replicate n a) I g = Ok u ∧ length u = n.
Proof.
  intros HI Hg. destruct (np_put_Ok I (replicate n a) g) as [u Hu].
  { by rewrite length_replicate. }
  { done. }
  exists u. split; [done|]. apply np_put_length in Hu.
  by rewrite length_replicate in Hu.
Qed.

Lemma np_put_replicate_lookup {A} (n : nat) (a : A) (I : list Z) (g u : list A)
    (j : nat) (i : Z) (x : A) :
  NoDup I → Forall (λ i, 0 ≤ i < Z.of_nat n) I →
  np_put (replicate n a) I g = Ok u → I !! j = Some i → g !! j = Some x →
  u !! Z.to_nat i = Some x.
Proof.
  intros HN HI Hu Hi Hx. eapply np_put_lookup; eauto.
  by rewrite length_replicate.
Qed.

Lemma source_rows_lookup (k : nat) (g K : list Z) (J : list Q) (c : nat) :
  (c < k)%nat →
  source_rows k g K J !! c =
    Some (vec_scale (/ QofN (count_label g (Z.of_nat c)))
      (zip_with Qmult ((λ x, if decide (Z.to_nat x = c) then 1%Q else 0%Q) <$> K) J)).
Proof.
  intros Hc. unfold source_rows.
  rewrite lookup_zip_with, !list_lookup_fmap, lookup_seqZ_lt, lookup_seq_lt by lia.
  cbn. by rewrite Z.add_0_l.
Qed.

Lemma source_rows_length (k : nat) (g K : list Z) (J : list Q) :
  length (source_rows k g K J) = k.
Proof.
  unfold source_rows.
  rewrite length_zip_with, !length_fmap, length_seqZ, length_seq. lia.
Qed.

Lemma source_rows_row_length (k n : nat) (g K : list Z) (J : list Q) :
  length K = n → length J = n →
  Forall (λ r, length r = n) (source_rows k g K J).
Proof.
  intros HK HJ. apply Forall_lookup. intros c r Hr.
  assert (c < k)%nat as Hc.
  { apply lookup_lt_Some in Hr. by rewrite source_rows_length in Hr. }
  rewrite source_rows_lookup in Hr by done. simplify_eq.
  unfold vec_scale. rewrite length_fmap, length_zip_with, length_fmap. lia.
Qed.
(** ** When [degree_matrix] and [graph_laplacian] return *)

Lemma degree_matrix_returns (W : matrix) (p : exponent) :
  nrows W ≠ 1%nat → degree_matrix W p = Ok (degree_diag W p).
Proof. intros Hn. unfold degree_matrix. by rewrite decide_False. Qed.


Lemma graph_laplacian_returns (W : matrix) :
  nrows W ≠ 1%nat → graph_laplacian W = Ok (laplacian W).
Proof.
  intros Hn. unfold graph_laplacian. by rewrite degree_matrix_returns.
Qed.


(** The rows of [b] after the centering loop, for labeled vertices that
    are distinct: a row of a labeled vertex is centered once, the other
    rows are as they were. *)
Lemma center_rows_lookup (NL cvec : list Q) : ∀ (ps : list (Z * Z)) (b b' : list (list Q)),
  for_each (center_row NL cvec) b ps = Ok b' →
  Forall (λ p, 0 ≤ p.1 ∧ 0 ≤ p.2) ps → NoDup ps.*1 →
  (∀ t, Z.of_nat t ∉ ps.*1 → b' !! t = b !! t) ∧
  (∀ i x bi nl, (i, x) ∈ ps → b !! Z.to_nat i = Some bi →
     NL !! Z.to_nat x = Some nl →
     b' !! Z.to_nat i = Some (vec_sub bi ((λ y, y / nl)%Q <$> cvec))).
Proof.
  induction ps as [|[i0 x0] ps IH]; intros b b' H Hpos Hnd.
  { injection H as <-. split; [done|]. intros i x bi nl Hin.
    by apply elem_of_nil in Hin. }
  cbn [for_each] in H. inv_bind H.
  apply Forall_cons in Hpos as [[Hi0 Hx0] Hpos]. cbn in Hi0, Hx0.
  rewrite fmap_cons in Hnd. apply NoDup_cons in Hnd as [Hni Hnd]. cbn in Hni.
  unfold center_row in E. cbn [fst snd] in E. inv_bind E.
  apply np_get_Ok_nonneg in E0; [|done]. apply np_get_Ok_nonneg in E1; [|done].
  apply np_set_Ok_nonneg in E as [-> Hlt]; [|done].
  destruct (IH _ _ H Hpos Hnd) as [Hsame Hrow]. split.
  - intros t Ht. rewrite fmap_cons in Ht. apply not_elem_of_cons in Ht as [Hne Ht].
    cbn in Hne. rewrite Hsame by done. apply list_lookup_insert_ne. lia.
  - intros i x bi nl Hin Hbi Hnl. apply elem_of_cons in Hin as [Heq|Hin].
    + injection Heq as -> ->. rewrite Hsame by (by rewrite Z2Nat.id).
      rewrite Hbi in E0. rewrite Hnl in E1. simplify_eq.
      apply list_lookup_insert_eq. lia.
    + assert (i ∈ ps.*1) as Hi1.
      { apply list_elem_of_fmap. by exists (i, x). }
      assert (i ≠ i0) as Hne by (intros ->; done).
      pose proof (proj1 (Forall_forall _ _) Hpos _ Hin) as [Hi _]. cbn in Hi.
      apply (Hrow i x bi nl Hin); [|done].
      rewrite list_lookup_insert_ne by lia. done.
Qed.

Lemma Qsum_zero (r : list Q) :
  (∀ t, (default 0 (r !! t) == 0)%Q) → (Qsum r == 0)%Q.
Proof.
  induction r as [|a r IH]; intros H; [reflexivity|].
  rewrite Qsum_cons, IH.
  - pose proof (H O) as H0. cbn in H0. lra.
  - intros t. exact (H (S t)).
Qed.

(** The sum of an array that vanishes off the distinct places [I]. *)
Lemma Qsum_supported (I : list Z) : ∀ (vals r : list Q),
  NoDup I → Forall (λ i, 0 ≤ i < Z.of_nat (length r)) I →
  length vals = length I →
  (∀ j i v, I !! j = Some i → vals !! j = Some v →
     (default 0 (r !! Z.to_nat i) == v)%Q) →
  (∀ t, Z.of_nat t ∉ I → (default 0 (r !! t) == 0)%Q) →
  (Qsum r == Qsum vals)%Q.
Proof.
  induction I as [|i I IH]; intros vals r Hnd Hr Hlen Hat Hoff.
  { destruct vals; [|done]. apply Qsum_zero. intros t. apply Hoff.
    apply not_elem_of_nil. }
  destruct vals as [|v vals]; [done|]. injection Hlen as Hlen.
  apply NoDup_cons in Hnd as [Hni Hnd]. apply Forall_cons in Hr as [Hi Hr].
  destruct (lookup_lt_is_Some_2 r (Z.to_nat i)) as [ri Hri]; [lia|].
  pose proof (Qsum_insert r (Z.to_nat i) ri 0 Hri) as Hins.
  pose proof (Hat O i v eq_refl eq_refl) as Hv. rewrite Hri in Hv. cbn in Hv.
  rewrite Qsum_cons.
  rewrite (IH vals (<[Z.to_nat i := 0%Q]> r)) in Hins; [lra|done| |done| |].
  - rewrite length_insert. done.
  - intros j i' v' Hj Hv'.
    assert (i' ≠ i) as Hne.
    { intros ->. apply Hni. by eapply list_elem_of_lookup_2. }
    pose proof (proj1 (Forall_lookup _ _) Hr j i' Hj) as Hi'. cbn beta in Hi'.
    rewrite list_lookup_insert_ne by lia. exact (Hat (S j) i' v' Hj Hv').
  - intros t Ht. destruct (decide (t = Z.to_nat i)) as [->|Hne].
    + rewrite list_lookup_insert_eq by lia. reflexivity.
    + rewrite list_lookup_insert_ne by lia. apply Hoff.
      apply not_elem_of_cons. split; [lia|done].
Qed.

Lemma Qsum_class (a : Q) (c : Z) (g : list Z) :
  (Qsum ((λ x, if decide (c = x) then a else 0) <$> g)
   == QofN (count_label g c) * a)%Q.
Proof.
  induction g as [|x g IH]; [change (0 == 0 * a)%Q; ring|].
  rewrite fmap_cons, Qsum_cons, IH, count_label_cons, QofN_add.
  destruct (decide (c = x)) as [->|Hne].
  - rewrite decide_True by done. change (QofN 1) with 1%Q. ring.
  - rewrite decide_False by congruence. change (QofN 0) with 0%Q. ring.
Qed.

Lemma count_label_pos (g : list Z) (x : Z) :
  x ∈ g → (0 < QofN (count_label g x))%Q.
Proof.
  intros Hx. unfold count_label.
  destruct (filter (λ y, y = x) g) as [|y f] eqn:E.
  - exfalso. assert (x ∈ filter (λ y, y = x) g) as Hin
      by (by apply list_elem_of_filter).
    rewrite E in Hin. by apply elem_of_nil in Hin.
  - cbn [length]. rewrite QofN_S. pose proof (QofN_nonneg (length f)). lra.
Qed.

(** The entries of the source before the centering. *)
Lemma source_rows_entry (k : nat) (g K : list Z) (J : list Q) (c t : nat)
    (Kt : Z) (Jt : Q) :
  (c < k)%nat → K !! t = Some Kt → J !! t = Some Jt →
  entry (source_rows k g K J) c t
  = (/ QofN (count_label g (Z.of_nat c))
     * ((if decide (Z.to_nat Kt = c) then 1 else 0) * Jt))%Q.
Proof.
  intros Hc HK HJ. rewrite (entry_row _ c t _ (source_rows_lookup k g K J c Hc)).
  unfold vec_scale. by rewrite list_lookup_fmap, lookup_zip_with, list_lookup_fmap, HK, HJ.
Qed.

(** The source term of [poisson], entry by entry, for labels 0..k-1 on
    distinct vertices. *)
Lemma poisson_source_spec (n k : nat) (I g : list Z) :
  NoDup I → Forall (λ i, 0 ≤ i < Z.of_nat n) I → length g = length I →
  g ≠ [] → (∀ x, x ∈ g ↔ 0 ≤ x < Z.of_nat k) →
  ∃ Kg b, poisson_source n I g = Ok (Kg, b) ∧
    (length Kg = k ∧ Forall (λ r, length r = n) Kg) ∧
    (length b = n ∧ Forall (λ r, length r = k) b) ∧
    (∀ j i x c, I !! j = Some i → g !! j = Some x → (c < k)%nat →
       (entry Kg c (Z.to_nat i)
        == if decide (Z.of_nat c = x) then 1 / QofN (count_label g x) else 0)%Q) ∧
    (∀ i c, Z.of_nat i ∉ I → (entry Kg c i == 0)%Q) ∧
    (∀ j i x c, I !! j = Some i → g !! j = Some x → (c < k)%nat →
       (entry b (Z.to_nat i) c
        == entry Kg c (Z.to_nat i)
           - 1 / (QofN k * QofN (count_label g x)))%Q) ∧
    (∀ i c, Z.of_nat i ∉ I → (entry b i c == 0)%Q) ∧
    (∀ c, (c < k)%nat → (Qsum (column b c) == 0)%Q).
Proof.
  intros HN HI Hlen Hne Hg.
  assert (0 < k)%nat as Hk.
  { destruct g as [|x g]; [done|]. specialize (Hg x).
    assert (0 ≤ x < Z.of_nat k) by (apply Hg; by left). lia. }
  pose proof (QofN_pos k Hk) as Hkq.
  destruct g as [|g0 g'] eqn:Eg; [done|]. rewrite <- Eg in *. clear Hne.
  assert (np_get g 0 = Ok g0) as Hg0 by (by rewrite Eg).
  destruct (np_put_replicate_Ok n 0%Q I (replicate (length I) 1%Q))
    as (J & HJ & HJn); [done | by rewrite length_replicate |].
  destruct (np_put_replicate_Ok n g0 I g) as (K & HK & HKn); [done..|].
  assert (∀ x, x ∈ K ↔ 0 ≤ x < Z.of_nat k) as HKel.
  { intros x. rewrite <- Hg. split.
    - intros Hx. destruct (np_put_elem _ _ _ _ _ HK Hx) as [Hin|Hin]; [|done].
      apply elem_of_replicate in Hin as [-> _]. rewrite Eg. by left.
    - intros [j Hj]%list_elem_of_lookup.
      destruct (lookup_lt_is_Some_2 I j) as [i Hi].
      { rewrite <- Hlen. by eapply lookup_lt_Some. }
      eapply list_elem_of_lookup_2.
      by eapply (np_put_replicate_lookup n g0 I g K j i x). }
  set (NL := (λ c, QofN (count_label g c)) <$> seqZ 0 (Z.of_nat k)).
  set (Kg := source_rows k g K J).
  set (cvec := (λ r, Qsum r / QofN k)%Q <$> Kg).
  assert (length Kg = k) as HKgk by apply source_rows_length.
  assert (Forall (λ r, length r = n) Kg) as HKgn
    by (by apply source_rows_row_length).
  destruct (center_rows NL cvec k n (zip I g) (columns n Kg))
    as (b & Hb & Hbn & Hbk & Hsum).
  { apply columns_length. }
  { apply Forall_lookup. intros t r Hr. unfold columns in Hr.
    rewrite list_lookup_fmap in Hr. destruct (seq 0 n !! t); simplify_eq/=.
    rewrite column_length. apply source_rows_length. }
  { unfold cvec. rewrite length_fmap. apply source_rows_length. }
  { apply Forall_forall. intros [i x] Hix. cbn.
    apply elem_of_zip_l in Hix as Hi. apply elem_of_zip_r in Hix as Hx.
    split; [by apply (proj1 (Forall_forall _ _) HI)|].
    unfold NL. rewrite length_fmap, length_seqZ, Nat2Z.id. by apply Hg. }
  (* the labeled and the other vertices *)
  assert (∀ j i x, I !! j = Some i → g !! j = Some x →
            0 ≤ i < Z.of_nat n ∧ 0 ≤ x < Z.of_nat k ∧ x ∈ g ∧
            K !! Z.to_nat i = Some x ∧ J !! Z.to_nat i = Some 1%Q) as Hlab.
  { intros j i x Hi Hx.
    assert (x ∈ g) as Hxg by (by eapply list_elem_of_lookup_2).
    split.
    { eapply (proj1 (Forall_forall _ _) HI). by eapply list_elem_of_lookup_2. }
    split; [by apply Hg|]. split; [done|]. split.
    - by apply (np_put_replicate_lookup n g0 I g K j i x).
    - apply (np_put_replicate_lookup n 0%Q I (replicate (length I) 1%Q) J j i 1%Q);
        try done.
      rewrite lookup_replicate_2; [done|]. by eapply lookup_lt_Some. }
  assert (∀ t, Z.of_nat t ∉ I → (t < n)%nat → J !! t = Some 0%Q) as Hoff.
  { intros t Ht Htn.
    pose proof (np_put_lookup_notin I (replicate n 0%Q) J
                  (replicate (length I) 1%Q) (Z.of_nat t)) as H.
    rewrite Nat2Z.id in H. rewrite H; try done; [|by rewrite length_replicate|lia].
    by rewrite lookup_replicate_2. }
  assert (∀ j i x c, I !! j = Some i → g !! j = Some x → (c < k)%nat →
            (entry Kg c (Z.to_nat i)
             == if decide (Z.of_nat c = x) then 1 / QofN (count_label g x) else 0)%Q)
    as HKlab.
  { intros j i x c Hi Hx Hc.
    destruct (Hlab j i x Hi Hx) as (Hin & Hxk & Hxg & HKi & HJi).
    unfold Kg. rewrite (source_rows_entry k g K J c (Z.to_nat i) x 1 Hc HKi HJi).
    destruct (decide (Z.of_nat c = x)) as [<-|Hcx].
    - rewrite decide_True by lia. pose proof (count_label_pos g _ Hxg). field. lra.
    - rewrite decide_False by lia. ring. }
  assert (∀ i c, Z.of_nat i ∉ I → (entry Kg c i == 0)%Q) as HKoff.
  { intros i c Hi. destruct (decide (c < k)%nat) as [Hc|Hc]; cycle 1.
    { unfold entry. rewrite lookup_ge_None_2 by lia. reflexivity. }
    destruct (decide (i < n)%nat) as [Hin|Hin]; cycle 1.
    { destruct (lookup_lt_is_Some_2 Kg c) as [r Hr]; [lia|].
      rewrite (entry_row Kg c i r Hr).
      pose proof (proj1 (Forall_lookup _ _) HKgn c r Hr) as Hrl. cbn beta in Hrl.
      rewrite lookup_ge_None_2 by lia. reflexivity. }
    destruct (lookup_lt_is_Some_2 K i) as [Ki HKi]; [lia|].
    unfold Kg. rewrite (source_rows_entry k g K J c i Ki 0 Hc HKi (Hoff i Hi Hin)).
    ring. }
  (* every class row of the source sums to 1 *)
  assert (∀ c r, Kg !! c = Some r → (Qsum r == 1)%Q) as Hone.
  { intros c r Hr.
    assert (c < k)%nat as Hc by (apply lookup_lt_Some in Hr; lia).
    pose proof (proj1 (Forall_lookup _ _) HKgn c r Hr) as Hrl. cbn beta in Hrl.
    assert (Z.of_nat c ∈ g) as Hcg by (apply Hg; lia).
    pose proof (count_label_pos g _ Hcg) as Hpos.
    rewrite (Qsum_supported I
               ((λ x, if decide (Z.of_nat c = x)
                      then 1 / QofN (count_label g (Z.of_nat c)) else 0)%Q <$> g) r);
      try done.
    - rewrite Qsum_class. field. lra.
    - by rewrite Hrl.
    - by rewrite length_fmap.
    - intros j i v Hi Hv. rewrite list_lookup_fmap in Hv.
      destruct (g !! j) as [x|] eqn:Hx; [|done]. injection Hv as <-.
      rewrite <- (entry_row Kg c (Z.to_nat i) r Hr), (HKlab j i x c Hi Hx Hc).
      destruct (decide (Z.of_nat c = x)) as [<-|Hcx]; reflexivity.
    - intros t Ht. rewrite <- (entry_row Kg c t r Hr). by apply HKoff. }
  assert (for_each (center_row NL cvec) (columns n Kg) (zip I g) = Ok b ∧
          (zip I g).*1 = I) as [Hb' Hfst].
  { split; [done|]. apply fst_zip. lia. }
  destruct (center_rows_lookup NL cvec (zip I g) (columns n Kg) b Hb')
    as [Hsame Hrow].
  { apply Forall_forall. intros [i x] Hix. cbn.
    apply elem_of_zip_l in Hix as Hi. apply elem_of_zip_r in Hix as Hx.
    pose proof (proj1 (Forall_forall _ _) HI i Hi) as Hir. cbn beta in Hir.
    apply Hg in Hx. lia. }
  { by rewrite Hfst. }
  rewrite Hfst in Hsame.
  exists Kg, b. split.
  { unfold poisson_source. rewrite Hg0. cbn [mbind result_bind].
    rewrite HJ, HK. cbn [mbind result_bind].
    rewrite (LabelsToVec_range K k HKel). cbn [mbind result_bind].
    rewrite (np_unique_range g k Hg), length_seqZ, Nat2Z.id.
    unfold nrows. rewrite length_fmap, length_seq.
    rewrite decide_False by (intros Hn; by apply Hn).
    fold NL. change (zip_with vec_scale (Qinv <$> NL) _) with Kg. fold cvec.
    by rewrite Hb. }
  split; [done|]. split; [done|]. split; [done|]. split; [done|]. split.
  { intros j i x c Hi Hx Hc.
    destruct (Hlab j i x Hi Hx) as (Hin & Hxk & Hxg & HKi & HJi).
    pose proof (count_label_pos g x Hxg) as Hpos.
    destruct (lookup_lt_is_Some_2 Kg c) as [r Hr]; [lia|].
    assert ((i, x) ∈ zip I g) as Hix.
    { apply list_elem_of_lookup. exists j. by rewrite lookup_zip_with, Hi, Hx. }
    rewrite (entry_row b (Z.to_nat i) c _
               (Hrow i x (column Kg (Z.to_nat i)) (QofN (count_label g x)) Hix
                  ltac:(by rewrite columns_lookup by lia)
                  ltac:(unfold NL; by rewrite list_lookup_fmap, seqZ_lookup_range))).
    unfold vec_sub, cvec.
    rewrite lookup_zip_with, !list_lookup_fmap, Hr. unfold column.
    rewrite list_lookup_fmap, Hr. cbn. rewrite (entry_row Kg c _ r Hr).
    rewrite (Hone c r Hr). field. lra. }
  split.
  { intros i c Hi. unfold entry. rewrite (Hsame i Hi).
    destruct (decide (i < n)%nat) as [Hin|Hin]; cycle 1.
    { rewrite lookup_ge_None_2 by (rewrite columns_length; lia). reflexivity. }
    rewrite columns_lookup by done. cbn.
    destruct (decide (c < k)%nat) as [Hc|Hc]; cycle 1.
    { rewrite lookup_ge_None_2 by (rewrite column_length; unfold nrows; lia).
      reflexivity. }
    destruct (lookup_lt_is_Some_2 Kg c) as [r Hr]; [lia|].
    unfold column. rewrite list_lookup_fmap, Hr. cbn.
    rewrite <- (entry_row Kg c i r Hr). by apply HKoff. }
  intros c Hc. rewrite (Hsum c Hc).
  destruct (lookup_lt_is_Some_2 Kg c) as [r Hr]; [lia|].
  rewrite (column_columns n Kg c r Hr); cycle 1.
  { by eapply (proj1 (Forall_lookup _ _) HKgn). }
  unfold cvec. rewrite list_lookup_fmap, Hr. cbn [fmap option_fmap option_map default].
  assert ((λ p : Z * Z, / default 0 (NL !! Z.to_nat p.2))%Q <$> zip I g
          = (λ x, / QofN (count_label g x))%Q <$> g) as ->.
  { transitivity ((λ x, / QofN (count_label g x))%Q <$> (zip I g).*2);
      [|by rewrite snd_zip by lia].
    rewrite <- list_fmap_compose. apply list_fmap_ext.
    intros t [i x] Hix. cbn. unfold NL.
    assert (0 ≤ x < Z.of_nat k) as Hx.
    { apply Hg. eapply elem_of_zip_r, list_elem_of_lookup_2, Hix. }
    by rewrite list_lookup_fmap, seqZ_lookup_range. }
  rewrite (Qsum_inverse_counts g k Hg). unfold id. field. lra.
Qed.

(** C4. For labels 0..k-1 on distinct vertices, the source term of
    [poisson] is a [k x n] matrix that holds the weight [1/n_c] at every
    labeled vertex of class [c] and 0 elsewhere before the centering; the
    centering loop subtracts [1/(k n_c)], the mean of the row over the
    classes divided by the size of the class of the vertex, from the row
    of every labeled vertex of [b = Kg^T] and leaves the other rows zero;
    and after it every class column of [b] sums to zero. *)
Theorem poisson_source_centered (n k : nat) (I g : list Z) :
  NoDup I → Forall (λ i, 0 ≤ i < Z.of_nat n) I → length g = length I →
  g ≠ [] → (∀ x, x ∈ g ↔ 0 ≤ x < Z.of_nat k) →
  ∃ Kg b, poisson_source n I g = Ok (Kg, b) ∧
    (length Kg = k ∧ Forall (λ r, length r = n) Kg) ∧
    (length b = n ∧ Forall (λ r, length r = k) b) ∧
    (∀ j i x c, I !! j = Some i → g !! j = Some x → (c < k)%nat →
       (entry Kg c (Z.to_nat i)
        == if decide (Z.of_nat c = x) then 1 / QofN (count_label g x) else 0)%Q) ∧
    (∀ i c, Z.of_nat i ∉ I → (entry Kg c i == 0)%Q) ∧
    (∀ j i x c, I !! j = Some i → g !! j = Some x → (c < k)%nat →
       (entry b (Z.to_nat i) c
        == entry Kg c (Z.to_nat i)
           - 1 / (QofN k * QofN (count_label g x)))%Q) ∧
    (∀ i c, Z.of_nat i ∉ I → (entry b i c == 0)%Q) ∧
    (∀ c, (c < k)%nat → (Qsum (column b c) == 0)%Q).
Proof. apply poisson_source_spec. Qed.

Lemma poisson_source_centered_witness :
  ∃ Kg b, poisson_source 3 [0; 2] [0; 1] = Ok (Kg, b) ∧
    (entry Kg 1 2 == 1 / QofN (count_label [0; 1]%Z 1%Z))%Q ∧
    (entry b 2 0 == entry Kg 0 2 - 1 / (QofN 2 * QofN (count_label [0; 1]%Z 1%Z)))%Q ∧
    (Qsum (column b 0) == 0)%Q ∧ (Qsum (column b 1) == 0)%Q.
Proof.
  assert (NoDup [0; 2]) as HN by (by apply (bool_decide_unpack _)).
  assert (Forall (λ i, 0 ≤ i < 3) [0; 2]) as HI by (by apply (bool_decide_unpack _)).
  assert (∀ x, x ∈ [0; 1] ↔ 0 ≤ x < 2) as Hg.
  { intros x. rewrite !elem_of_cons, elem_of_nil. lia. }
  destruct (poisson_source_centered 3 2 [0; 2] [0; 1] HN HI eq_refl
              ltac:(done) Hg) as (Kg & b & H & _ & _ & HK & _ & Hb & _ & Hs).
  exists Kg, b. split; [done|]. split.
  { exact (HK 1%nat 2 1 1%nat eq_refl eq_refl ltac:(lia)). }
  split.
  { exact (Hb 1%nat 2 1 0%nat eq_refl eq_refl ltac:(lia)). }
  split; apply Hs; lia.
Defined.
(** ** The diffusion loop of Poisson learning *)











(** ** The indexed binary heap *)

Lemma half_spec (j : Z) : 0 ≤ j → j = 2 * half j ∨ j = 2 * half j + 1.
Proof.
  intros Hj. unfold half. rewrite Z.quot_div_nonneg by lia.
  pose proof (Z.div_mod j 2 ltac:(lia)). pose proof (Z.mod_pos_bound j 2 ltac:(lia)).
  lia.
Qed.

Lemma at_index_insert_eq {A} (dflt x : A) (l : list A) (a : Z) :
  0 ≤ a < Z.of_nat (length l) →
  at_index dflt (<[Z.to_nat a := x]> l) a = x.
Proof. intros Ha. unfold at_index. by rewrite list_lookup_insert_eq by lia. Qed.

Lemma at_index_insert_ne {A} (dflt x : A) (l : list A) (a b : Z) :
  0 ≤ a → 0 ≤ b → a ≠ b →
  at_index dflt (<[Z.to_nat a := x]> l) b = at_index dflt l b.
Proof. intros Ha Hb Hab. unfold at_index. by rewrite list_lookup_insert_ne by lia. Qed.

Lemma np_get_at_index {A} (dflt : A) (l : list A) (i : Z) :
  0 ≤ i < Z.of_nat (length l) → np_get l i = Ok (at_index dflt l i).
Proof.
  intros Hi. destruct (lookup_lt_is_Some_2 l (Z.to_nat i)) as [x Hx]; [lia|].
  rewrite (np_get_nonneg l i x) by (done || lia). unfold at_index. by rewrite Hx.
Qed.

Lemma np_get_wrapped {A} (l : list A) (i : Z) :
  - Z.of_nat (length l) ≤ i < Z.of_nat (length l) → ∃ x, np_get l i = Ok x.
Proof.
  intros Hi. unfold np_get, np_index.
  destruct (decide (0 ≤ i < Z.of_nat (length l))) as [H|H]; cbn.
  - destruct (lookup_lt_is_Some_2 l (Z.to_nat i)) as [x ->]; [lia|]. eauto.
  - rewrite decide_True by lia. cbn.
    destruct (lookup_lt_is_Some_2 l (Z.to_nat (Z.of_nat (length l) + i))) as [x ->];
      [lia|]. eauto.
Qed.

Lemma heap_slots_inj (d : list Q) (h p : list Z) (s i j : Z) :
  heap_wf d h p s → 1 ≤ i ≤ s → 1 ≤ j ≤ s → hv h i = hv h j → i = j.
Proof.
  intros (_ & _ & _ & _ & Hptr) Hi Hj Heq.
  destruct (Hptr i Hi) as [_ <-]. destruct (Hptr j Hj) as [_ <-]. by rewrite Heq.
Qed.

Lemma heap_slot_range (d : list Q) (h p : list Z) (s i : Z) :
  heap_wf d h p s → 1 ≤ i ≤ s → 0 ≤ hv h i < Z.of_nat (length d).
Proof.
  intros (Hp & Hh & Hs & Hall & Hptr) Hi.
  destruct (Hptr i Hi) as [H0 _]. split; [done|].
  unfold hv, at_index in *.
  destruct (lookup_lt_is_Some_2 h (Z.to_nat i)) as [v Hv]; [lia|].
  rewrite Hv in *. cbn in *.
  by apply (proj1 (Forall_lookup _ _) Hall _ _ Hv).
Qed.

Section Swap.
Context (d : list Q) (h p : list Z) (s a b : Z).
Hypothesis Hwf : heap_wf d h p s.
Hypothesis Ha : 1 ≤ a ≤ s.
Hypothesis Hb : 1 ≤ b ≤ s.
Hypothesis Hab : a ≠ b.

Lemma swap_h_a : hv (swap_h h a b) a = hv h b.
Proof using All.
  destruct Hwf as (Hp & Hh & Hs & _). unfold swap_h, hv.
  rewrite at_index_insert_ne by lia. apply at_index_insert_eq. lia.
Qed.

Lemma swap_h_b : hv (swap_h h a b) b = hv h a.
Proof using All.
  destruct Hwf as (Hp & Hh & Hs & _). unfold swap_h, hv.
  apply at_index_insert_eq. rewrite length_insert. lia.
Qed.

Lemma swap_h_other (j : Z) : 0 ≤ j → j ≠ a → j ≠ b → hv (swap_h h a b) j = hv h j.
Proof using All.
  intros. unfold swap_h, hv. by rewrite !at_index_insert_ne by lia.
Qed.

Lemma swap_key_a : key d (swap_h h a b) a = key d h b.
Proof using All. unfold key. by rewrite swap_h_a. Qed.

Lemma swap_key_b : key d (swap_h h a b) b = key d h a.
Proof using All. unfold key. by rewrite swap_h_b. Qed.

Lemma swap_key_other (j : Z) :
  0 ≤ j → j ≠ a → j ≠ b → key d (swap_h h a b) j = key d h j.
Proof using All. intros. unfold key. by rewrite swap_h_other. Qed.

Lemma swap_wf : heap_wf d (swap_h h a b) (swap_p h p a b) s.
Proof using All.
  pose proof Hwf as (Hp & Hh & Hs & Hall & Hptr).
  pose proof (heap_slot_range d h p s a Hwf Ha) as Hra.
  pose proof (heap_slot_range d h p s b Hwf Hb) as Hrb.
  assert (hv h a ≠ hv h b) as Hne
    by (intros ?%(heap_slots_inj d h p s); done).
  unfold heap_wf, swap_p. rewrite swap_h_a, swap_h_b.
  rewrite !length_insert. unfold swap_h at 1 2. rewrite !length_insert.
  repeat split; try done; try lia.
  - unfold swap_h. apply Forall_insert; [apply Forall_insert; [done|]|]; lia.
  - destruct (decide (i = a)) as [->|Hia]; [rewrite swap_h_a; lia|].
    destruct (decide (i = b)) as [->|Hib]; [rewrite swap_h_b; lia|].
    rewrite swap_h_other by lia. by apply Hptr.
  - unfold pv. destruct (decide (i = a)) as [->|Hia].
    { rewrite swap_h_a. apply at_index_insert_eq. rewrite length_insert. lia. }
    destruct (decide (i = b)) as [->|Hib].
    { rewrite swap_h_b, at_index_insert_ne by lia.
      apply at_index_insert_eq. lia. }
    rewrite swap_h_other by lia.
    assert (hv h i ≠ hv h a) by (intros ?%(heap_slots_inj d h p s); done || lia).
    assert (hv h i ≠ hv h b) by (intros ?%(heap_slots_inj d h p s); done || lia).
    pose proof (heap_slot_range d h p s i Hwf ltac:(lia)).
    rewrite !at_index_insert_ne by lia. by apply Hptr.
Qed.

Lemma swap_in_heap (v : Z) : in_heap (swap_h h a b) s v ↔ in_heap h s v.
Proof using All.
  unfold in_heap. split; intros (j & Hj & <-).
  - destruct (decide (j = a)) as [->|Hja]; [exists b; by rewrite swap_h_a|].
    destruct (decide (j = b)) as [->|Hjb]; [exists a; by rewrite swap_h_b|].
    exists j. by rewrite swap_h_other by lia.
  - destruct (decide (j = a)) as [->|Hja]; [exists b; by rewrite swap_h_b|].
    destruct (decide (j = b)) as [->|Hjb]; [exists a; by rewrite swap_h_a|].
    exists j. by rewrite swap_h_other by lia.
Qed.

End Swap.
Lemma heap_get_slot (d : list Q) (h p : list Z) (s i : Z) :
  heap_wf d h p s → 0 ≤ i ≤ s → np_get h i = Ok (hv h i).
Proof.
  intros (Hp & Hh & Hs & _) Hi. apply np_get_at_index. lia.
Qed.

Lemma heap_get_key (d : list Q) (h p : list Z) (s i : Z) :
  heap_wf d h p s → 1 ≤ i ≤ s → np_get d (hv h i) = Ok (key d h i).
Proof.
  intros Hwf Hi. apply np_get_at_index. by eapply heap_slot_range.
Qed.

(** The six assignments that exchange two slots. *)
Lemma swap_step {B} (d : list Q) (h p : list Z) (s a b : Z)
    (k : list Z → list Z → result B) :
  heap_wf d h p s → 1 ≤ a ≤ s → 1 ≤ b ≤ s → a ≠ b →
  (h1 ← np_set h a (hv h b); h2 ← np_set h1 b (hv h a);
   x ← np_get h2 b; p1 ← np_set p x b;
   y ← np_get h2 a; p2 ← np_set p1 y a; k h2 p2)
  = k (swap_h h a b) (swap_p h p a b).
Proof.
  intros Hwf Ha Hb Hab. pose proof Hwf as (Hp & Hh & Hs & _).
  pose proof (heap_slot_range d h p s a Hwf Ha) as Hra.
  pose proof (heap_slot_range d h p s b Hwf Hb) as Hrb.
  rewrite np_set_nonneg by lia. cbn [mbind result_bind].
  rewrite np_set_nonneg by (rewrite length_insert; lia). cbn [mbind result_bind].
  fold (swap_h h a b).
  pose proof (swap_wf d h p s a b Hwf Ha Hb Hab) as Hwf'.
  rewrite (heap_get_slot d _ _ s b Hwf') by lia. cbn [mbind result_bind].
  rewrite (swap_h_b d h p s a b Hwf Ha Hb Hab).
  rewrite np_set_nonneg by lia. cbn [mbind result_bind].
  rewrite (heap_get_slot d _ _ s a Hwf') by lia. cbn [mbind result_bind].
  rewrite (swap_h_a d h p s a b Hwf Ha Hb Hab).
  rewrite np_set_nonneg by (rewrite length_insert; lia). cbn [mbind result_bind].
  unfold swap_p.
  by rewrite (swap_h_a d h p s a b Hwf Ha Hb Hab), (swap_h_b d h p s a b Hwf Ha Hb Hab).
Qed.

Lemma swap_sift_up (d : list Q) (h p : list Z) (s i : Z) :
  heap_wf d h p s → 2 ≤ i ≤ s → sift_up_inv d h s i →
  (key d h i < key d h (half i))%Q →
  sift_up_inv d (swap_h h (half i) i) s (half i).
Proof.
  intros Hwf Hi [H1 H2] Hlt. pose proof (half_spec i ltac:(lia)) as Hhi.
  assert (1 ≤ half i ≤ s) as Hpi by lia. assert (half i ≠ i) as Hne by lia.
  pose proof (swap_key_a d h p s (half i) i Hwf Hpi ltac:(lia) Hne) as Ka.
  pose proof (swap_key_b d h p s (half i) i Hwf Hpi ltac:(lia) Hne) as Kb.
  pose proof (λ j, swap_key_other d h p s (half i) i Hwf Hpi ltac:(lia) Hne j) as Ko.
  split.
  - intros j Hj Hjp. pose proof (half_spec j ltac:(lia)) as Hhj.
    destruct (decide (j = i)) as [->|Hji].
    { rewrite Ka, Kb. lra. }
    rewrite (Ko j) by lia.
    destruct (decide (half j = half i)) as [E|E].
    { rewrite E, Ka. specialize (H1 j Hj Hji). rewrite E in H1. lra. }
    destruct (decide (half j = i)) as [E'|E'].
    { rewrite E', Kb. apply (H2 j Hj E'). lia. }
    rewrite Ko by lia. by apply H1.
  - intros j Hj Hjp Hpi2. pose proof (half_spec j ltac:(lia)) as Hhj.
    pose proof (half_spec (half i) ltac:(lia)) as Hhp.
    rewrite (Ko (half (half i))) by lia.
    assert (key d h (half (half i)) <= key d h (half i))%Q as Hg
      by (apply H1; lia).
    destruct (decide (j = i)) as [->|Hji]; [by rewrite Kb|].
    rewrite (Ko j) by lia. specialize (H1 j Hj Hji). rewrite Hjp in H1. lra.
Qed.

(** The loop of [SiftUp] returns and keeps the heap well formed whatever
    the keys are; it restores the order when only slot [i] is out of
    place. *)
Lemma SiftUp_loop_wf (d : list Q) (s : Z) (fuel : nat) : ∀ (h p : list Z) (i : Z),
  heap_wf d h p s → 1 ≤ i ≤ s → (Z.to_nat i ≤ fuel)%nat →
  ∃ h' p', SiftUp_loop fuel d h p i (half i) = Ok (h', p') ∧
    heap_wf d h' p' s ∧ (∀ v, in_heap h' s v ↔ in_heap h s v) ∧
    (sift_up_inv d h s i → heap_ordered d h' s).
Proof.
  induction fuel as [|fuel IH]; intros h p i Hwf Hi Hfuel; [lia|].
  pose proof (half_spec i ltac:(lia)) as Hhi. cbn [SiftUp_loop].
  destruct (decide (half i = 0)) as [E|E].
  { exists h, p. split; [done|]. split; [done|]. split; [done|].
    intros [H1 _] j Hj. apply H1; lia. }
  assert (1 ≤ half i ≤ s) as Hpi by lia.
  rewrite (heap_get_slot d h p s (half i)) by (done || lia). cbn [mbind result_bind].
  rewrite (heap_get_key d h p s (half i)) by done. cbn [mbind result_bind].
  rewrite (heap_get_slot d h p s i) by (done || lia). cbn [mbind result_bind].
  rewrite (heap_get_key d h p s i) by done. cbn [mbind result_bind].
  destruct (Qltb (key d h i) (key d h (half i))) eqn:Hlt.
  - apply Qltb_lt in Hlt.
    rewrite (swap_step d h p s (half i) i) by (done || lia).
    destruct (IH (swap_h h (half i) i) (swap_p h p (half i) i) (half i))
      as (h' & p' & Hrun & Hwf' & Hel & Hord).
    { apply swap_wf; (done || lia). }
    { done. }
    { lia. }
    exists h', p'. split; [done|]. split; [done|]. split.
    + intros v. split.
      * intros Hv%Hel. by apply (swap_in_heap d h p s (half i) i) in Hv; try lia.
      * intros Hv. apply Hel. by apply (swap_in_heap d h p s (half i) i); try lia.
    + intros Hinv. apply Hord. apply (swap_sift_up d h p s i); (done || lia).
  - apply Qltb_ge in Hlt. exists h, p. split; [done|]. split; [done|].
    split; [done|]. intros [H1 _] j Hj.
    destruct (decide (j = i)) as [->|Hji]; [done|]. by apply H1.
Qed.

Lemma SiftUp_loop_spec (d : list Q) (s : Z) (fuel : nat) (h p : list Z) (i : Z) :
  heap_wf d h p s → 1 ≤ i ≤ s → sift_up_inv d h s i → (Z.to_nat i ≤ fuel)%nat →
  ∃ h' p', SiftUp_loop fuel d h p i (half i) = Ok (h', p') ∧
    heap_wf d h' p' s ∧ heap_ordered d h' s ∧
    ∀ v, in_heap h' s v ↔ in_heap h s v.
Proof.
  intros Hwf Hi Hinv Hfuel.
  destruct (SiftUp_loop_wf d s fuel h p i Hwf Hi Hfuel)
    as (h' & p' & Hrun & Hwf' & Hel & Hord).
  exists h', p'. split; [done|]. split; [done|]. split; [by apply Hord|done].
Qed.
Lemma swap_sift_down (d : list Q) (h p : list Z) (s i c : Z) :
  heap_wf d h p s → 1 ≤ i → 2 ≤ c ≤ s → half c = i →
  (∀ j, 2 ≤ j ≤ s → half j = i → (key d h c <= key d h j)%Q) →
  sift_down_inv d h s i → (key d h c < key d h i)%Q →
  sift_down_inv d (swap_h h c i) s c.
Proof.
  intros Hwf Hi Hc Hci Hmin [H1 H2] Hlt. pose proof (half_spec c ltac:(lia)) as Hhc.
  assert (1 ≤ i ≤ s) as Hi' by lia. assert (c ≠ i) as Hne by lia.
  pose proof (swap_key_a d h p s c i Hwf ltac:(lia) Hi' Hne) as Ka.
  pose proof (swap_key_b d h p s c i Hwf ltac:(lia) Hi' Hne) as Kb.
  pose proof (λ j, swap_key_other d h p s c i Hwf ltac:(lia) Hi' Hne j) as Ko.
  split.
  - intros j Hj Hjc. pose proof (half_spec j ltac:(lia)) as Hhj.
    destruct (decide (j = c)) as [->|Hjc'].
    { rewrite Hci, Ka, Kb. lra. }
    destruct (decide (j = i)) as [->|Hji].
    { pose proof (half_spec (half i) ltac:(lia)).
      rewrite Kb, Ko by lia. apply (H2 c); lia. }
    rewrite (Ko j) by lia.
    destruct (decide (half j = i)) as [E|E].
    { rewrite E, Kb. by apply Hmin. }
    rewrite Ko by lia. by apply H1.
  - intros j Hj Hjc Hc2. pose proof (half_spec j ltac:(lia)) as Hhj.
    rewrite Hci, Kb, Ko by lia. specialize (H1 j Hj ltac:(lia)).
    by rewrite Hjc in H1.
Qed.

Lemma heap_garbage_key (d : list Q) (h p : list Z) (s j : Z) :
  heap_wf d h p s → 1 ≤ s → 0 ≤ j ≤ Z.of_nat (length d) →
  ∃ x, np_get d (hv h j) = Ok x.
Proof.
  intros (Hp & Hh & Hs & Hall & _) Hs1 Hj. apply np_get_wrapped.
  unfold hv, at_index.
  destruct (lookup_lt_is_Some_2 h (Z.to_nat j)) as [v Hv]; [lia|].
  rewrite Hv. cbn. apply (proj1 (Forall_lookup _ _) Hall) in Hv. lia.
Qed.

(** The loop of [SiftDown] returns and keeps the heap well formed whatever
    the keys are; it restores the order when only slot [i] is out of
    place. *)
Lemma SiftDown_loop_wf (d : list Q) (s : Z) (fuel : nat) :
  ∀ (h p : list Z) (i : Z),
  heap_wf d h p s → s < Z.of_nat (length d) → 1 ≤ i →
  (Z.to_nat (s + 1 - i) ≤ fuel)%nat →
  ∃ h' p', SiftDown_loop fuel d h s p i (2 * i) = Ok (h', p') ∧
    heap_wf d h' p' s ∧ (∀ v, in_heap h' s v ↔ in_heap h s v) ∧
    (sift_down_inv d h s i → heap_ordered d h' s).
Proof.
  induction fuel as [|fuel IH]; intros h p i Hwf Hsn Hi Hfuel.
  { cbn [SiftDown_loop]. rewrite decide_False by lia.
    exists h, p. split; [done|]. split; [done|]. split; [done|].
    intros [H1 _] j Hj. pose proof (half_spec j ltac:(lia)).
    apply H1; lia. }
  cbn [SiftDown_loop]. destruct (decide (2 * i ≤ s)) as [Hci|Hci]; cycle 1.
  { exists h, p. split; [done|]. split; [done|]. split; [done|].
    intros [H1 _] j Hj. pose proof (half_spec j ltac:(lia)).
    apply H1; lia. }
  rewrite (np_get_at_index (-1) h (2 * i + 1)) by (destruct Hwf as (? & ? & ?); lia).
  cbn [mbind result_bind]. fold (hv h (2 * i + 1)).
  destruct (heap_garbage_key d h p s (2 * i + 1) Hwf ltac:(lia) ltac:(lia))
    as [dc1 Hdc1].
  rewrite Hdc1. cbn [mbind result_bind].
  rewrite (heap_get_slot d h p s (2 * i)) by (done || lia). cbn [mbind result_bind].
  rewrite (heap_get_key d h p s (2 * i)) by (done || lia). cbn [mbind result_bind].
  set (c := if Qltb dc1 (key d h (2 * i)) && bool_decide (2 * i + 1 ≤ s)
            then 2 * i + 1 else 2 * i).
  assert (half (2 * i) = i ∧ half (2 * i + 1) = i) as [Hh0 Hh1].
  { pose proof (half_spec (2 * i) ltac:(lia)).
    pose proof (half_spec (2 * i + 1) ltac:(lia)). lia. }
  assert (2 ≤ c ≤ s ∧ half c = i ∧
          ∀ j, 2 ≤ j ≤ s → half j = i → (key d h c <= key d h j)%Q)
    as (Hc & Hhc & Hmin).
  { unfold c. destruct (bool_decide (2 * i + 1 ≤ s)) eqn:Hb.
    - apply bool_decide_eq_true in Hb.
      rewrite (heap_get_key d h p s (2 * i + 1)) in Hdc1 by (done || lia).
      injection Hdc1 as <-. rewrite andb_true_r.
      destruct (Qltb (key d h (2 * i + 1)) (key d h (2 * i))) eqn:Hlt.
      + apply Qltb_lt in Hlt. split; [lia|]. split; [done|]. intros j Hj Hji.
        pose proof (half_spec j ltac:(lia)).
        assert (j = 2 * i ∨ j = 2 * i + 1) as [-> | ->] by lia; lra.
      + apply Qltb_ge in Hlt. split; [lia|]. split; [done|]. intros j Hj Hji.
        pose proof (half_spec j ltac:(lia)).
        assert (j = 2 * i ∨ j = 2 * i + 1) as [-> | ->] by lia; lra.
    - apply bool_decide_eq_false in Hb. rewrite andb_false_r.
      split; [lia|]. split; [done|]. intros j Hj Hji.
      pose proof (half_spec j ltac:(lia)). assert (j = 2 * i) as -> by lia. lra. }
  clearbody c. pose proof (half_spec c ltac:(lia)) as Hcs.
  rewrite (heap_get_slot d h p s c) by (done || lia). cbn [mbind result_bind].
  rewrite (heap_get_key d h p s c) by (done || lia). cbn [mbind result_bind].
  rewrite (heap_get_slot d h p s i) by (done || lia). cbn [mbind result_bind].
  rewrite (heap_get_key d h p s i) by (done || lia). cbn [mbind result_bind].
  destruct (Qltb (key d h c) (key d h i)) eqn:Hlt.
  - apply Qltb_lt in Hlt.
    rewrite (swap_step d h p s c i) by (done || lia).
    destruct (IH (swap_h h c i) (swap_p h p c i) c)
      as (h' & p' & Hrun & Hwf' & Hel & Hord).
    { apply swap_wf; (done || lia). }
    { done. }
    { lia. }
    { lia. }
    exists h', p'. split; [done|]. split; [done|]. split.
    + intros v. split.
      * intros Hv%Hel. by apply (swap_in_heap d h p s c i) in Hv; try lia.
      * intros Hv. apply Hel. by apply (swap_in_heap d h p s c i); try lia.
    + intros Hinv. apply Hord. by apply (swap_sift_down d h p s i c).
  - apply Qltb_ge in Hlt. exists h, p. split; [done|]. split; [done|].
    split; [done|]. intros [H1 _] j Hj.
    destruct (decide (half j = i)) as [E|E]; [|by apply H1].
    rewrite E. specialize (Hmin j Hj E). lra.
Qed.

Lemma SiftDown_loop_spec (d : list Q) (s : Z) (fuel : nat) (h p : list Z) (i : Z) :
  heap_wf d h p s → s < Z.of_nat (length d) → 1 ≤ i →
  sift_down_inv d h s i → (Z.to_nat (s + 1 - i) ≤ fuel)%nat →
  ∃ h' p', SiftDown_loop fuel d h s p i (2 * i) = Ok (h', p') ∧
    heap_wf d h' p' s ∧ heap_ordered d h' s ∧
    ∀ v, in_heap h' s v ↔ in_heap h s v.
Proof.
  intros Hwf Hsn Hi Hinv Hfuel.
  destruct (SiftDown_loop_wf d s fuel h p i Hwf Hsn Hi Hfuel)
    as (h' & p' & Hrun & Hwf' & Hel & Hord).
  exists h', p'. split; [done|]. split; [done|]. split; [by apply Hord|done].
Qed.
Lemma SiftUp_wf (d : list Q) (h p : list Z) (s i : Z) :
  heap_wf d h p s → 1 ≤ i ≤ s →
  ∃ h' p', SiftUp d h s p i = Ok (h', p') ∧
    heap_wf d h' p' s ∧ (∀ v, in_heap h' s v ↔ in_heap h s v) ∧
    (sift_up_inv d h s i → heap_ordered d h' s).
Proof.
  intros Hwf Hi. unfold SiftUp. apply SiftUp_loop_wf; try done.
  rewrite Zabs2Nat.abs_nat_nonneg; lia.
Qed.

Lemma SiftDown_wf (d : list Q) (h p : list Z) (s : Z) :
  heap_wf d h p s → s < Z.of_nat (length d) →
  ∃ h' p', SiftDown d h s p 1 = Ok (h', p') ∧
    heap_wf d h' p' s ∧ (∀ v, in_heap h' s v ↔ in_heap h s v) ∧
    (sift_down_inv d h s 1 → heap_ordered d h' s).
Proof.
  intros Hwf Hs. unfold SiftDown.
  apply (SiftDown_loop_wf d s (S (Z.to_nat s)) h p 1); try done; lia.
Qed.

Lemma SiftUp_spec (d : list Q) (h p : list Z) (s i : Z) :
  heap_wf d h p s → 1 ≤ i ≤ s → sift_up_inv d h s i →
  ∃ h' p', SiftUp d h s p i = Ok (h', p') ∧
    heap_wf d h' p' s ∧ heap_ordered d h' s ∧
    ∀ v, in_heap h' s v ↔ in_heap h s v.
Proof.
  intros Hwf Hi Hinv. unfold SiftUp. apply SiftUp_loop_spec; try done.
  rewrite Zabs2Nat.abs_nat_nonneg; lia.
Qed.

Lemma SiftDown_spec (d : list Q) (h p : list Z) (s : Z) :
  heap_wf d h p s → s < Z.of_nat (length d) → sift_down_inv d h s 1 →
  ∃ h' p', SiftDown d h s p 1 = Ok (h', p') ∧
    heap_wf d h' p' s ∧ heap_ordered d h' s ∧
    ∀ v, in_heap h' s v ↔ in_heap h s v.
Proof.
  intros Hwf Hs Hinv. unfold SiftDown.
  apply (SiftDown_loop_spec d s (S (Z.to_nat s)) h p 1); try done; lia.
Qed.

(** The root of an ordered heap has the least key. *)
Lemma root_minimal (d : list Q) (h : list Z) (s : Z) :
  heap_ordered d h s → ∀ j, 1 ≤ j ≤ s → (key d h 1 <= key d h j)%Q.
Proof.
  intros Hord j Hj. remember (Z.to_nat j) as m eqn:Hm.
  revert j Hj Hm. induction m as [m IH] using lt_wf_ind. intros j Hj ->.
  destruct (decide (j = 1)) as [->|Hne]; [lra|].
  pose proof (half_spec j ltac:(lia)).
  specialize (IH (Z.to_nat (half j)) ltac:(lia) (half j) ltac:(lia) eq_refl).
  specialize (Hord j ltac:(lia)). lra.
Qed.

(** [PopHeap] returns the vertex of the root and keeps the heap well
    formed whatever the keys are; on an ordered heap the result is ordered
    and the root had the least key. *)
Lemma PopHeap_wf (d : list Q) (h p : list Z) (s : Z) :
  heap_wf d h p s → 1 ≤ s →
  ∃ h' p', PopHeap d h s p = Ok (h', p', hv h 1, s - 1) ∧
    heap_wf d h' p' (s - 1) ∧
    (∀ v, in_heap h' (s - 1) v ↔ in_heap h s v ∧ v ≠ hv h 1) ∧
    (heap_ordered d h s → heap_ordered d h' (s - 1)).
Proof.
  intros Hwf Hs. pose proof Hwf as (Hp & Hh & Hsn & Hall & Hptr).
  pose proof (heap_slot_range d h p s s Hwf ltac:(lia)) as Hrs.
  set (h1 := <[Z.to_nat 1 := hv h s]> h).
  set (p1 := <[Z.to_nat (hv h s) := 1]> p).
  assert (hv h1 1 = hv h s) as H11
    by (apply at_index_insert_eq; lia).
  assert (∀ j, 0 ≤ j → j ≠ 1 → hv h1 j = hv h j) as H1o
    by (intros j ??; apply at_index_insert_ne; lia).
  assert (heap_wf d h1 p1 (s - 1)) as Hwf1.
  { unfold heap_wf, h1, p1. rewrite !length_insert.
    split; [done|]. split; [done|]. split; [lia|]. split.
    { apply Forall_insert; [done|lia]. }
    intros j Hj. fold h1 p1. destruct (decide (j = 1)) as [->|Hne].
    - rewrite H11. split; [lia|]. apply at_index_insert_eq. lia.
    - rewrite H1o by lia. destruct (Hptr j ltac:(lia)) as [H0 Hpj].
      split; [done|]. unfold pv, p1. rewrite at_index_insert_ne; [done|lia..|].
      intros Heq%(heap_slots_inj d h p s); (done || lia). }
  destruct (SiftDown_wf d h1 p1 (s - 1) Hwf1 ltac:(lia))
    as (h' & p' & Hrun & Hwf' & Hel & Hord').
  exists h', p'. split.
  { unfold PopHeap. rewrite (heap_get_slot d h p s 1) by (done || lia).
    cbn [mbind result_bind].
    rewrite (heap_get_slot d h p s s) by (done || lia). cbn [mbind result_bind].
    rewrite np_set_nonneg by lia. cbn [mbind result_bind]. fold h1.
    rewrite (np_get_at_index (-1) h1 1) by (unfold h1; rewrite length_insert; lia).
    cbn [mbind result_bind]. fold (hv h1 1). rewrite H11.
    rewrite np_set_nonneg by lia. cbn [mbind result_bind]. fold p1.
    by rewrite Hrun. }
  split; [done|]. split.
  - intros v. rewrite Hel. unfold in_heap. split.
    + intros (j & Hj & <-). destruct (decide (j = 1)) as [->|Hne].
      * rewrite H11. split; [exists s; split; [lia|done]|].
        intros Heq%(heap_slots_inj d h p s); (done || lia).
      * rewrite H1o by lia. split; [exists j; split; [lia|done]|].
        intros Heq%(heap_slots_inj d h p s); (done || lia).
    + intros [(j & Hj & <-) Hne]. destruct (decide (j = s)) as [->|Hjs].
      * exists 1. split; [|done]. destruct (decide (s = 1)) as [->|]; [done|lia].
      * exists j. assert (j ≠ 1) by (intros ->; done).
        split; [lia|]. apply H1o; lia.
  - intros Hord. apply Hord'. split; [|lia].
    intros j Hj Hhj. pose proof (half_spec j ltac:(lia)).
    unfold key. rewrite !H1o by lia. apply Hord. lia.
Qed.

Lemma PopHeap_spec (d : list Q) (h p : list Z) (s : Z) :
  heap_wf d h p s → heap_ordered d h s → 1 ≤ s →
  ∃ h' p', PopHeap d h s p = Ok (h', p', hv h 1, s - 1) ∧
    heap_wf d h' p' (s - 1) ∧ heap_ordered d h' (s - 1) ∧
    (∀ v, in_heap h' (s - 1) v ↔ in_heap h s v ∧ v ≠ hv h 1) ∧
    (∀ j, 1 ≤ j ≤ s → (key d h 1 <= key d h j)%Q).
Proof.
  intros Hwf Hord Hs.
  destruct (PopHeap_wf d h p s Hwf Hs) as (h' & p' & Hrun & Hwf' & Hel & Hord').
  exists h', p'. split; [done|]. split; [done|]. split; [by apply Hord'|].
  split; [done|]. by apply root_minimal.
Qed.

(** [PushHeap] of a vertex that is not in the heap keeps it well formed
    whatever the keys are, and ordered when it was. *)
Lemma PushHeap_wf (d : list Q) (h p : list Z) (s v : Z) :
  heap_wf d h p s → s < Z.of_nat (length d) →
  0 ≤ v < Z.of_nat (length d) → ¬ in_heap h s v →
  ∃ h' p', PushHeap d h s p v = Ok (h', p', s + 1) ∧
    heap_wf d h' p' (s + 1) ∧
    (∀ w, in_heap h' (s + 1) w ↔ in_heap h s w ∨ w = v) ∧
    (heap_ordered d h s → heap_ordered d h' (s + 1)).
Proof.
  intros Hwf Hsn Hv Hnin. pose proof Hwf as (Hp & Hh & Hs & Hall & Hptr).
  set (h1 := <[Z.to_nat (s + 1) := v]> h).
  set (p1 := <[Z.to_nat v := s + 1]> p).
  assert (hv h1 (s + 1) = v) as H1s by (apply at_index_insert_eq; lia).
  assert (∀ j, 0 ≤ j → j ≠ s + 1 → hv h1 j = hv h j) as H1o
    by (intros j ??; apply at_index_insert_ne; lia).
  assert (heap_wf d h1 p1 (s + 1)) as Hwf1.
  { unfold heap_wf, h1, p1. rewrite !length_insert.
    split; [done|]. split; [done|]. split; [lia|]. split.
    { apply Forall_insert; [done|lia]. }
    intros j Hj. fold h1 p1. destruct (decide (j = s + 1)) as [->|Hne].
    - rewrite H1s. split; [lia|]. apply at_index_insert_eq. lia.
    - rewrite H1o by lia. destruct (Hptr j ltac:(lia)) as [H0 Hpj].
      split; [done|]. unfold pv, p1. rewrite at_index_insert_ne; [done|lia..|].
      intros Heq. apply Hnin. exists j. split; [lia|done]. }
  destruct (SiftUp_wf d h1 p1 (s + 1) (s + 1) Hwf1 ltac:(lia))
    as (h' & p' & Hrun & Hwf' & Hel & Hord').
  exists h', p'. split.
  { unfold PushHeap. rewrite np_set_nonneg by lia. cbn [mbind result_bind].
    rewrite np_set_nonneg by lia. cbn [mbind result_bind]. fold h1 p1.
    by rewrite Hrun. }
  split; [done|]. split.
  - intros w. rewrite Hel. unfold in_heap. split.
    + intros (j & Hj & <-). destruct (decide (j = s + 1)) as [->|Hne].
      * right. done.
      * left. exists j. split; [lia|]. symmetry. apply H1o; lia.
    + intros [(j & Hj & <-)| ->].
      * exists j. split; [lia|]. apply H1o; lia.
      * exists (s + 1). split; [lia|done].
  - intros Hord. apply Hord'. split.
    + intros j Hj Hne. pose proof (half_spec j ltac:(lia)).
      unfold key. rewrite !H1o by lia. apply Hord. lia.
    + intros j Hj Hhj. pose proof (half_spec j ltac:(lia)). lia.
Qed.

Lemma PushHeap_spec (d : list Q) (h p : list Z) (s v : Z) :
  heap_wf d h p s → heap_ordered d h s → s < Z.of_nat (length d) →
  0 ≤ v < Z.of_nat (length d) → ¬ in_heap h s v →
  ∃ h' p', PushHeap d h s p v = Ok (h', p', s + 1) ∧
    heap_wf d h' p' (s + 1) ∧ heap_ordered d h' (s + 1) ∧
    (∀ w, in_heap h' (s + 1) w ↔ in_heap h s w ∨ w = v).
Proof.
  intros Hwf Hord Hsn Hv Hnin.
  destruct (PushHeap_wf d h p s v Hwf Hsn Hv Hnin)
    as (h' & p' & Hrun & Hwf' & Hel & Hord').
  exists h', p'. split; [done|]. split; [done|]. split; [by apply Hord'|done].
Qed.
Lemma heap_wf_keys (d d' : list Q) (h p : list Z) (s : Z) :
  length d' = length d → heap_wf d h p s → heap_wf d' h p s.
Proof. unfold heap_wf. intros ->. done. Qed.

Lemma DecreaseKey_spec (d : list Q) (h p : list Z) (s v : Z) (k : Q) :
  heap_wf d h p s → heap_ordered d h s → in_heap h s v →
  (k <= at_index 0%Q d v)%Q →
  ∃ h' p', DecreaseKey d h s p v k = Ok (<[Z.to_nat v := k]> d, h', p') ∧
    heap_wf (<[Z.to_nat v := k]> d) h' p' s ∧
    heap_ordered (<[Z.to_nat v := k]> d) h' s ∧
    ∀ w, in_heap h' s w ↔ in_heap h s w.
Proof.
  intros Hwf Hord (i & Hi & Hiv) Hk. pose proof Hwf as (Hp & Hh & Hs & Hall & Hptr).
  pose proof (heap_slot_range d h p s i Hwf Hi) as Hr. rewrite Hiv in Hr.
  destruct (Hptr i Hi) as [_ Hpi]. rewrite Hiv in Hpi.
  set (d' := <[Z.to_nat v := k]> d).
  assert (heap_wf d' h p s) as Hwf'
    by (apply (heap_wf_keys d); [apply length_insert | done]).
  assert (key d' h i = k) as Hki.
  { unfold key, d'. rewrite Hiv. apply at_index_insert_eq. lia. }
  assert (∀ j, 1 ≤ j ≤ s → j ≠ i → key d' h j = key d h j) as Hko.
  { intros j Hj Hne. unfold key, d'.
    pose proof (heap_slot_range d h p s j Hwf Hj).
    apply at_index_insert_ne; [lia..|]. rewrite <- Hiv.
    intros Heq%(heap_slots_inj d h p s); (done || lia). }
  assert (key d h i = at_index 0%Q d v) as Hkv by (unfold key; by rewrite Hiv).
  assert (∀ j, 1 ≤ j ≤ s → (key d' h j <= key d h j)%Q) as Hle.
  { intros j Hj. destruct (decide (j = i)) as [Heq|Hne].
    - rewrite Heq, Hki, Hkv. exact Hk.
    - rewrite Hko by done. apply Qle_refl. }
  assert (sift_up_inv d' h s i) as Hinv.
  { split.
    - intros j Hj Hne. pose proof (half_spec j ltac:(lia)).
      rewrite (Hko j) by lia. specialize (Hle (half j) ltac:(lia)).
      specialize (Hord j Hj). lra.
    - intros j Hj Hhj Hi2. pose proof (half_spec j ltac:(lia)).
      pose proof (half_spec i ltac:(lia)).
      rewrite (Hko j), (Hko (half i)) by lia.
      pose proof (Hord j Hj) as H1. pose proof (Hord i ltac:(lia)) as H2.
      rewrite Hhj in H1. lra. }
  destruct (SiftUp_spec d' h p s i Hwf' Hi Hinv) as (h' & p' & Hrun & Hw & Ho & Hel).
  exists h', p'. split; [|done].
  unfold DecreaseKey. rewrite np_set_nonneg by lia. cbn [mbind result_bind].
  fold d'. rewrite (np_get_at_index (-1) p v) by lia. cbn [mbind result_bind].
  fold (pv p v). rewrite Hpi. by rewrite Hrun.
Qed.

Lemma empty_heap_inv (d : list Q) : heap_inv (empty_heap d).
Proof.
  split; unfold empty_heap; cbn [hs_d hs_h hs_p hs_s].
  - unfold heap_wf. split; [by rewrite !length_replicate|].
    split; [by rewrite length_replicate|]. split; [lia|].
    split; [apply Forall_replicate; lia|]. intros i Hi. lia.
  - intros j Hj. lia.
Qed.

Lemma in_heapb_spec (h : list Z) (s v : Z) :
  in_heapb h s v = true ↔ in_heap h s v.
Proof.
  unfold in_heapb, in_heap. rewrite existsb_exists. split.
  - intros (j & Hj%list_elem_of_In%elem_of_seqZ & Hv%bool_decide_eq_true).
    exists j. split; [lia|done].
  - intros (j & Hj & Hv). exists j. split.
    + apply list_elem_of_In, elem_of_seqZ. lia.
    + by apply bool_decide_eq_true.
Qed.

(** The vertices of the heap are distinct: a vertex outside leaves room. *)
Lemma heap_has_room (d : list Q) (h p : list Z) (s v : Z) :
  heap_wf d h p s → 0 ≤ v < Z.of_nat (length d) → ¬ in_heap h s v →
  s < Z.of_nat (length d).
Proof.
  intros Hwf Hv Hnin.
  assert (NoDup (v :: (hv h <$> seqZ 1 s))) as Hnd.
  { apply NoDup_cons. split.
    - intros (j & -> & Hj%elem_of_seqZ)%list_elem_of_fmap.
      apply Hnin. exists j. split; [lia|done].
    - apply NoDup_fmap_2_strong; [|apply NoDup_seqZ].
      intros i j Hi%elem_of_seqZ Hj%elem_of_seqZ Heq.
      apply (heap_slots_inj d h p s); (done || lia). }
  assert (v :: (hv h <$> seqZ 1 s) ⊆+ seqZ 0 (Z.of_nat (length d))) as Hsub.
  { apply NoDup_submseteq; [done|]. intros x [->|Hx]%elem_of_cons.
    - apply elem_of_seqZ. lia.
    - apply list_elem_of_fmap in Hx as (j & -> & Hj%elem_of_seqZ).
      apply elem_of_seqZ. pose proof (heap_slot_range d h p s j Hwf ltac:(lia)). lia. }
  apply submseteq_length in Hsub.
  rewrite length_cons, length_fmap, !length_seqZ in Hsub.
  destruct Hwf as (_ & _ & Hs & _). lia.
Qed.

(** Every operation keeps the invariants, and a pop returns a vertex whose
    key is the least of the heap. *)
Lemma heap_step_spec (st : heap_state) (o : heap_op) :
  heap_inv st → op_valid st o = true →
  ∃ st' out, heap_step st o = Ok (st', out) ∧ heap_inv st' ∧
    match out with
    | Some (v, k) =>
      o = OpPop ∧ hs_d st' = hs_d st ∧
      k = key (hs_d st) (hs_h st) 1 ∧ in_heap (hs_h st) (hs_s st) v ∧
      (∀ j, 1 ≤ j ≤ hs_s st → (k <= key (hs_d st) (hs_h st) j)%Q) ∧
      (∀ j, 1 ≤ j ≤ hs_s st' → (k <= key (hs_d st') (hs_h st') j)%Q)
    | None => o ≠ OpPop
    end.
Proof.
  destruct st as [d h p s]. intros [Hwf Hord] Hval.
  destruct o as [v|v k|]; cbn [op_valid heap_step hs_d hs_h hs_p hs_s] in *.
  - apply andb_true_iff in Hval as [Hv Hnin].
    apply bool_decide_eq_true in Hv.
    apply negb_true_iff, not_true_iff_false in Hnin.
    rewrite in_heapb_spec in Hnin.
    pose proof (heap_has_room d h p s v Hwf Hv Hnin) as Hs.
    destruct (PushHeap_spec d h p s v Hwf Hord Hs Hv Hnin)
      as (h' & p' & -> & Hwf' & Hord' & _).
    eexists _, _. split; [done|]. split; [by split|done].
  - apply andb_true_iff in Hval as [Hin Hk].
    apply in_heapb_spec in Hin. apply negb_true_iff, Qltb_ge in Hk.
    destruct (DecreaseKey_spec d h p s v k Hwf Hord Hin Hk)
      as (h' & p' & -> & Hwf' & Hord' & _).
    eexists _, _. split; [done|]. split; [by split|done].
  - apply bool_decide_eq_true in Hval.
    destruct (PopHeap_spec d h p s Hwf Hord Hval)
      as (h' & p' & -> & Hwf' & Hord' & Hel & Hmin).
    cbn [mbind result_bind]. rewrite (heap_get_key d h p s 1) by (done || lia).
    eexists _, _. split; [done|]. split; [by split|]. cbn.
    split; [done|]. split; [done|]. split; [done|].
    split; [exists 1; split; [lia|done]|]. split; [done|].
    intros j Hj. assert (in_heap h' (s - 1) (hv h' j)) as Hin by (by exists j).
    apply Hel in Hin as [(j' & Hj' & Heq) _]. unfold key at 2. rewrite <- Heq.
    by apply Hmin.
Qed.

(** A lower bound on the keys of the heap survives an operation that brings
    no key below it. *)
Lemma heap_step_bound (st st' : heap_state) (o : heap_op)
    (out : option (Z * Q)) (k0 : Q) :
  heap_inv st → op_valid st o = true → heap_step st o = Ok (st', out) →
  keys_bounded (Some k0) st → not_below (Some k0) (op_key st o) = true →
  keys_bounded (Some k0) st'.
Proof.
  destruct st as [d h p s]. intros [Hwf Hord] Hval Hstep Hb Hk.
  assert (∀ w, in_heap h s w → (k0 <= at_index 0%Q d w)%Q) as Hb'.
  { intros w (j & Hj & <-). by apply (Hb k0). }
  clear Hb. intros ? [= <-] j Hj.
  destruct o as [v|v k|];
    cbn [op_valid heap_step op_key not_below hs_d hs_h hs_p hs_s] in *.
  - apply andb_true_iff in Hval as [Hv Hnin].
    apply bool_decide_eq_true in Hv.
    apply negb_true_iff, not_true_iff_false in Hnin.
    rewrite in_heapb_spec in Hnin.
    pose proof (heap_has_room d h p s v Hwf Hv Hnin) as Hs. apply negb_true_iff, Qltb_ge in Hk.
    destruct (PushHeap_spec d h p s v Hwf Hord Hs Hv Hnin)
      as (h' & p' & Hrun & _ & _ & Hel).
    rewrite Hrun in Hstep. cbn in Hstep. injection Hstep as <- <-. cbn [hs_d hs_h hs_p hs_s] in *. unfold key.
    assert (in_heap h' (s + 1) (hv h' j)) as [Hin| ->]%Hel by (by exists j).
    + by apply Hb'.
    + done.
  - apply andb_true_iff in Hval as [Hin Hkv].
    apply in_heapb_spec in Hin. apply negb_true_iff, Qltb_ge in Hkv.
    apply negb_true_iff, Qltb_ge in Hk.
    destruct (DecreaseKey_spec d h p s v k Hwf Hord Hin Hkv)
      as (h' & p' & Hrun & _ & _ & Hel).
    rewrite Hrun in Hstep. cbn in Hstep. injection Hstep as <- <-. cbn [hs_d hs_h hs_p hs_s] in *. unfold key.
    assert (in_heap h' s (hv h' j)) as Hin'%Hel by (by exists j).
    destruct Hin as (i & Hi & Hiv).
    pose proof (heap_slot_range d h p s i Hwf Hi) as Hr. rewrite Hiv in Hr.
    destruct (decide (hv h' j = v)) as [->|Hne].
    + rewrite at_index_insert_eq by lia. done.
    + pose proof (Hb' _ Hin') as Hle. destruct Hin' as (i' & Hi' & Hiv').
      pose proof (heap_slot_range d h p s i' Hwf Hi') as Hr'. rewrite Hiv' in Hr'.
      rewrite at_index_insert_ne by lia. done.
  - apply bool_decide_eq_true in Hval.
    destruct (PopHeap_spec d h p s Hwf Hord Hval)
      as (h' & p' & Hrun & _ & _ & Hel & _).
    rewrite Hrun in Hstep. cbn [mbind result_bind] in Hstep.
    rewrite (heap_get_key d h p s 1) in Hstep by (done || lia).
    cbn in Hstep. injection Hstep as <- <-. cbn [hs_d hs_h hs_p hs_s] in *. unfold key.
    assert (in_heap h' (s - 1) (hv h' j)) as [Hin _]%Hel by (by exists j).
    by apply Hb'.
Qed.

Lemma heap_run_spec (ops : list heap_op) :
  ∀ (st : heap_state) (prev lo : option Q),
  heap_inv st → admissible st ops = true → keys_bounded prev st →
  ∃ st' log, heap_run st ops = Ok (st', log) ∧ heap_inv st' ∧
    pops_sorted prev log ∧
    (keys_above_pops lo st ops = true → keys_bounded lo st →
     nondecreasing lo (popped_keys log)).
Proof.
  induction ops as [|o ops IH]; intros st prev lo Hinv Hadm Hprev.
  { exists st, []. by cbn. }
  cbn [admissible] in Hadm. apply andb_true_iff in Hadm as [Hval Hadm].
  destruct (heap_step_spec st o Hinv Hval) as (st1 & out & Hstep & Hinv1 & Hout).
  rewrite Hstep in Hadm.
  assert (keys_bounded (snd <$> out) st1) as Hb1.
  { destruct out as [[v k]|]; [|by intros ? [=]].
    destruct Hout as (_ & _ & _ & _ & _ & Hmin). by intros ? [= <-]. }
  destruct (IH st1 (snd <$> out) (next_bound lo out) Hinv1 Hadm Hb1)
    as (st' & log & Hrun & Hinv' & Hsorted & Hmono).
  exists st', (out :: log). cbn [heap_run]. rewrite Hstep. cbn [mbind result_bind].
  rewrite Hrun. cbn [mbind result_bind]. split; [done|]. split; [done|].
  assert (∀ b, keys_bounded b st → is_Some out →
    match b with Some k0 => ∃ v k, out = Some (v, k) ∧ (k0 <= k)%Q | None => True end)
    as Hfirst.
  { intros [k0|] Hb [[v k] ->]; [|done]. exists v, k. split; [done|].
    destruct Hout as (-> & _ & -> & (j & Hj & _) & _). apply (Hb k0); [done|lia]. }
  split.
  - destruct out as [[v k]|]; cbn [pops_sorted]; [|done]. split; [|done].
    specialize (Hfirst prev Hprev ltac:(done)). destruct prev as [k0|]; [|done].
    by destruct Hfirst as (? & ? & [= <- <-] & ?).
  - cbn [keys_above_pops]. rewrite Hstep.
    intros [Hk Habove]%andb_true_iff Hlo.
    destruct out as [[v k]|]; cbn [popped_keys omap fmap option_fmap option_map snd
      next_bound] in *.
    + split; [|by apply Hmono].
      specialize (Hfirst lo Hlo ltac:(done)). destruct lo as [k0|]; [|done].
      by destruct Hfirst as (? & ? & [= <- <-] & ?).
    + apply Hmono; [done|]. destruct lo as [k0|]; [|by intros ? [=]].
      by apply (heap_step_bound st st1 o None).
Qed.

(** C5, counterexample: with keys 5 and 7, two pushes, a pop, the decrease
    of the remaining key to 2 and a second pop are all valid, and the pops
    return the keys 5 and then 2. *)
Lemma heap_pops_not_monotone :
  admissible (empty_heap [5%Q; 7%Q]) heap_example_ops = true ∧
  ∃ st log, heap_run (empty_heap [5%Q; 7%Q]) heap_example_ops = Ok (st, log) ∧
    log = [None; None; Some (0, 5%Q); None; Some (1, 2%Q)] ∧
    popped_keys log = [5%Q; 2%Q] ∧
    ¬ nondecreasing None (popped_keys log).
Proof.
  split; [by vm_compute|]. eexists _, _. split; [by vm_compute|].
  split; [done|]. split; [done|].
  intros (_ & Hle & _). by vm_compute in Hle.
Qed.

(** C5 (amended): from a heap that satisfies the invariants (the empty heap
    does), every sequence of valid pushes, decrease-keys and pops runs
    without an exception and leaves the invariants [d[h[i/2]] <= d[h[i]]]
    and [p[h[i]] = i] in force; the keys of pops that follow one another
    directly do not decrease; and when no key enters the heap below the key
    of the pop before it, the keys of all pops are in non-decreasing
    order. *)
Theorem heap_operations_keep_invariants (st : heap_state) (ops : list heap_op) :
  heap_inv st → admissible st ops = true →
  ∃ st' log, heap_run st ops = Ok (st', log) ∧ heap_inv st' ∧
    pops_sorted None log ∧
    (keys_above_pops None st ops = true → nondecreasing None (popped_keys log)).
Proof.
  intros Hinv Hadm.
  destruct (heap_run_spec ops st None None Hinv Hadm) as (st' & log & ? & ? & ? & Hm).
  { by intros ? [=]. }
  exists st', log. split; [done|]. split; [done|]. split; [done|].
  intros Hk. apply Hm; [done|]. by intros ? [=].
Qed.

Lemma heap_operations_keep_invariants_witness :
  admissible (empty_heap [6%Q; 5%Q; 3%Q]) heap_witness_ops = true ∧
  keys_above_pops None (empty_heap [6%Q; 5%Q; 3%Q]) heap_witness_ops = true ∧
  ∃ st' log, heap_run (empty_heap [6%Q; 5%Q; 3%Q]) heap_witness_ops = Ok (st', log) ∧
    heap_inv st' ∧ pops_sorted None log ∧
    (keys_above_pops None (empty_heap [6%Q; 5%Q; 3%Q]) heap_witness_ops = true →
     nondecreasing None (popped_keys log)).
Proof.
  split; [reflexivity|]. split; [reflexivity|].
  apply (heap_operations_keep_invariants (empty_heap [6%Q; 5%Q; 3%Q]) heap_witness_ops).
  - apply empty_heap_inv.
  - reflexivity.
Defined.
(** ** The portable path of [nearestneighbor] returns *)

Lemma relabel_bound (labels : list Z) : ∀ (i : Z) (L : list Z),
  0 ≤ i → Forall (λ x, x ∈ labels ∨ 0 ≤ x < i) L →
  Forall (λ y, 0 ≤ y < i + Z.of_nat (length labels)) (relabel i labels L).
Proof.
  induction labels as [|a labels IH]; intros i L Hi HL; cbn [relabel].
  - eapply Forall_impl; [exact HL|]. intros x [H|H]; [by apply elem_of_nil in H|].
    cbn. lia.
  - eapply Forall_impl.
    + apply (IH (i + 1) (assign_where a i L)); [lia|].
      unfold assign_where. apply Forall_fmap. eapply Forall_impl; [exact HL|].
      intros x Hx. cbn. destruct (decide (x = a)) as [->|Hne]; [right; lia|].
      destruct Hx as [[->|H]%elem_of_cons|H]; [done|by left|right; lia].
    + intros y Hy. cbn beta in Hy. cbn [length]. lia.
Qed.

(** [LabelsToVec] raises on no array of labels. *)
Lemma LabelsToVec_total (L : list Z) :
  ∃ X labels L', LabelsToVec L = Ok (X, labels, L').
Proof.
  unfold LabelsToVec, one_hot. rewrite row_indices_range.
  - cbn. by eexists _, _, _.
  - eapply Forall_impl; [apply (relabel_bound (np_unique L) 0 L)|].
    + lia.
    + apply Forall_forall. intros x Hx. left. by apply elem_of_np_unique.
    + intros y Hy. cbn beta in *. lia.
Qed.

Lemma np_take_Ok {A} (u : list A) (l : list Z) :
  Forall (λ x, - Z.of_nat (length u) ≤ x < Z.of_nat (length u)) l →
  ∃ r, np_take u l = Ok r.
Proof.
  induction 1 as [|x l Hx _ [r IH]]; [by exists []|]. cbn [np_take].
  destruct (np_get_wrapped u x Hx) as [y ->]. cbn. rewrite IH. cbn. eauto.
Qed.

Lemma labels_of_nearest_total (n : nat) (I g l : list Z) :
  Forall (λ i, 0 ≤ i < Z.of_nat n) I → length g = length I →
  Forall (λ x, -1 ≤ x < Z.of_nat n) l → length l = n →
  ∃ X, labels_of_nearest n I g l = Ok X.
Proof.
  intros HI Hg Hl Hn. unfold labels_of_nearest.
  destruct (np_put_Ok I (replicate n 0) g) as [u Hu];
    [by rewrite length_replicate|done|].
  rewrite Hu. cbn [mbind result_bind].
  pose proof (np_put_length _ _ _ _ Hu) as Hlen. rewrite length_replicate in Hlen.
  destruct (np_take_Ok u l) as [ul Hul].
  { apply Forall_forall. intros x Hin.
    pose proof (proj1 (Forall_forall _ _) Hl x Hin) as Hx. cbn beta in Hx.
    assert (0 < length l)%nat
      by (destruct l; [by apply elem_of_nil in Hin|cbn; lia]).
    lia. }
  rewrite Hul. cbn [mbind result_bind].
  destruct (LabelsToVec_total ul) as (X & labels & L' & ->). cbn. eauto.
Qed.

(** *** The triplets of [sparse.find] *)

Lemma find_cell_row (W : matrix) (j i : nat) :
  Forall (λ t : Z * Z * Q, t.1.1 = Z.of_nat i ∧ t.1.2 = Z.of_nat j) (find_cell W j i).
Proof.
  unfold find_cell. destruct (Qnonzero _); [|done]. by apply Forall_singleton.
Qed.

Lemma sparse_find_rows (W : matrix) :
  Forall (λ x, 0 ≤ x < Z.of_nat (nrows W)) (sparse_find W).1.1.
Proof.
  unfold sparse_find. cbn. unfold find_triplets.
  rewrite !Forall_fmap. apply Forall_bind, Forall_forall. intros j _. cbn.
  apply Forall_bind, Forall_forall. intros i Hi%elem_of_seq. cbn.
  eapply Forall_impl; [apply find_cell_row|]. intros t [Ht _]. cbn in *. lia.
Qed.

Lemma col_block_columns (W : matrix) (j : nat) :
  (col_block W j).*1.*2 = replicate (length (col_block W j)) (Z.of_nat j).
Proof.
  unfold col_block. induction (seq 0 (nrows W)) as [|i l IH]; [done|].
  rewrite bind_cons, !fmap_app, length_app, replicate_add, IH. f_equal.
  unfold find_cell. by destruct (Qnonzero _).
Qed.

Lemma col_block_nonempty (W : matrix) (j : nat) :
  existsb (λ i, Qnonzero (entry W i j)) (seq 0 (nrows W)) = true →
  (1 ≤ length (col_block W j))%nat.
Proof.
  unfold col_block. induction (seq 0 (nrows W)) as [|i l IH]; [done|].
  cbn [existsb]. rewrite bind_cons, length_app. unfold find_cell at 1.
  destruct (Qnonzero (entry W i j)); cbn; [lia|]. intros H. apply IH in H. lia.
Qed.

Lemma nonzero_diff_cons (t a b : Z) (r : list Z) :
  nonzero_diff t (a :: b :: r)
  = if decide (b - a = 0) then nonzero_diff (t + 1) (b :: r)
    else t :: nonzero_diff (t + 1) (b :: r).
Proof. done. Qed.

Lemma nonzero_diff_length (WJ : list Z) : ∀ t t',
  length (nonzero_diff t WJ) = length (nonzero_diff t' WJ).
Proof.
  induction WJ as [|a r IH]; intros t t'; [done|]. destruct r as [|b r]; [done|].
  rewrite !nonzero_diff_cons.
  destruct (decide (b - a = 0)); cbn [length]; by rewrite (IH (t + 1) (t' + 1)).
Qed.

Lemma nonzero_diff_run (k : nat) (x : Z) (r : list Z) : ∀ t,
  length (nonzero_diff t (replicate (S k) x ++ r))
  = length (nonzero_diff t (x :: r)).
Proof.
  induction k as [|k IH]; intros t; [done|].
  change (replicate (S (S k)) x ++ r) with (x :: x :: (replicate k x ++ r)).
  rewrite nonzero_diff_cons, decide_True by lia.
  rewrite <- (IH t). apply nonzero_diff_length.
Qed.

Lemma nonzero_diff_blocks (c : nat → nat) (m : nat) : ∀ (a : nat) (t : Z),
  (∀ j, (a ≤ j < a + m)%nat → (1 ≤ c j)%nat) →
  length (nonzero_diff t (j ← seq a m; replicate (c j) (Z.of_nat j))) = pred m.
Proof.
  induction m as [|m IH]; intros a t Hc; [done|].
  cbn [seq]. rewrite bind_cons.
  destruct (c a) as [|k] eqn:Hk; [specialize (Hc a ltac:(lia)); lia|].
  rewrite nonzero_diff_run. destruct m as [|m].
  { cbn. done. }
  specialize (IH (S a) (t + 1) ltac:(intros; apply Hc; lia)).
  cbn [seq] in *. rewrite bind_cons in *.
  destruct (c (S a)) as [|k'] eqn:Hk'; [specialize (Hc (S a) ltac:(lia)); lia|].
  cbn [replicate app] in *. rewrite nonzero_diff_cons.
  rewrite decide_False by lia. cbn [length]. by rewrite IH.
Qed.

Lemma sparse_find_columns (W : matrix) :
  no_empty_column W = true →
  (sparse_find W).1.2
  = j ← seq 0 (ncols W); replicate (length (col_block W j)) (Z.of_nat j).
Proof.
  intros _. unfold sparse_find. cbn. unfold find_triplets. fold (col_block W).
  induction (seq 0 (ncols W)) as [|j l IH]; [done|].
  by rewrite !bind_cons, !fmap_app, IH, col_block_columns.
Qed.

Lemma sparse_find_starts (W : matrix) :
  no_empty_column W = true →
  (S (ncols W) ≤ length (column_starts (sparse_find W).1.2))%nat.
Proof.
  intros Hne. rewrite sparse_find_columns by done. unfold column_starts.
  cbn [length]. rewrite length_app, length_fmap. cbn [length].
  rewrite (nonzero_diff_blocks (λ j, length (col_block W j))); [lia|].
  intros j Hj. apply col_block_nonempty.
  unfold no_empty_column in Hne. rewrite forallb_forall in Hne.
  apply Hne, list_elem_of_In, elem_of_seq. lia.
Qed.

Lemma length_bind_nonempty {A B} (f : A → list B) (l : list A) :
  (∀ x, x ∈ l → (1 ≤ length (f x))%nat) → (length l ≤ length (l ≫= f))%nat.
Proof.
  induction l as [|x l IH]; intros Hf; [cbn; lia|].
  rewrite bind_cons, length_app. cbn [length].
  pose proof (Hf x ltac:(by left)).
  specialize (IH ltac:(intros y Hy; apply Hf; by right)). lia.
Qed.

Lemma sparse_find_values (W : matrix) :
  no_empty_column W = true → (ncols W ≤ length (sparse_find W).2)%nat.
Proof.
  intros Hne. unfold sparse_find. cbn. rewrite length_fmap.
  unfold find_triplets. fold (col_block W).
  pose proof (length_bind_nonempty (col_block W) (seq 0 (ncols W))) as H.
  rewrite length_seq in H. apply H.
  intros j Hj. apply col_block_nonempty.
  unfold no_empty_column in Hne. rewrite forallb_forall in Hne.
  by apply Hne, list_elem_of_In.
Qed.
Lemma flag_insert_eq (A : list bool) (j : Z) (b : bool) :
  0 ≤ j < Z.of_nat (length A) → flag (<[Z.to_nat j := b]> A) j = b.
Proof. apply at_index_insert_eq. Qed.

Lemma flag_insert_ne (A : list bool) (i j : Z) (b : bool) :
  0 ≤ i → 0 ≤ j → i ≠ j → flag (<[Z.to_nat i := b]> A) j = flag A j.
Proof. apply at_index_insert_ne. Qed.

Lemma unfinalized_insert (V : list bool) : ∀ (i : nat),
  V !! i = Some false → S (unfinalized (<[i := true]> V)) = unfinalized V.
Proof.
  unfold unfinalized. induction V as [|b V IH]; intros [|i] Hi; simplify_eq/=.
  - by rewrite (filter_cons_False _ true) by done.
  - specialize (IH i Hi). destruct b; cbn in *; [done|].
    rewrite !decide_True by done. cbn. by f_equal.
Qed.

Lemma dijkstra_init_inv (n : nat) : dijkstra_inv n (dijkstra_init n).
Proof.
  unfold dijkstra_inv, dijkstra_init. cbn [dj_d dj_l dj_s dj_h dj_A dj_p dj_V].
  rewrite !length_replicate. split; [done|]. split; [done|]. split; [done|].
  split; [done|]. split.
  { unfold heap_wf. rewrite !length_replicate. split; [done|]. split; [done|].
    split; [lia|]. split; [apply Forall_replicate; lia|]. intros i Hi. lia. }
  split; [apply Forall_replicate; lia|]. split.
  - intros j Hj. unfold flag, at_index.
    rewrite lookup_replicate_2 by lia. cbn. split; [done|].
    intros (i & Hi & _). lia.
  - intros j Hj. unfold flag, at_index. by rewrite lookup_replicate_2 by lia.
Qed.

(** A source that is not active enters the heap. *)
Lemma push_source_inv (n : nat) (st : dijkstra) (v : Z) :
  dijkstra_inv n st → 0 ≤ v < Z.of_nat n → flag (dj_A st) v = false →
  flag (dj_V st) v = false →
  ∃ st', push_source st v = Ok st' ∧ dijkstra_inv n st' ∧
    dj_V st' = dj_V st ∧
    ∀ w, 0 ≤ w → w ≠ v → flag (dj_A st') w = flag (dj_A st) w.
Proof.
  destruct st as [d l s h A p V]. unfold dijkstra_inv.
  cbn [dj_d dj_l dj_s dj_h dj_A dj_p dj_V].
  intros (Hd & Hl & HA & HV & Hwf & Hlr & HAh & HAV) Hv HAv HVv.
  assert (¬ in_heap h s v) as Hnin.
  { intros Hin%HAh; [|done]. congruence. }
  pose proof (heap_has_room d h p s v Hwf ltac:(lia) Hnin) as Hroom.
  destruct (PushHeap_wf d h p s v Hwf Hroom ltac:(lia) Hnin)
    as (h' & p' & Hrun & Hwf' & Hel & _).
  unfold push_source. cbn [dj_d dj_l dj_s dj_h dj_A dj_p dj_V].
  rewrite Hrun. cbn [mbind result_bind].
  rewrite !np_set_nonneg by lia. cbn [mbind result_bind].
  eexists. split; [done|]. cbn [dj_d dj_l dj_s dj_h dj_A dj_p dj_V].
  split; [|split; [done|]].
  - rewrite !length_insert. split; [done|]. split; [done|]. split; [done|].
    split; [done|]. split.
    { apply (heap_wf_keys d); [by rewrite length_insert|done]. }
    split; [apply Forall_insert; [done|lia]|]. split.
    + intros w Hw. rewrite Hel. destruct (decide (w = v)) as [->|Hne].
      * rewrite flag_insert_eq by lia. split; [by right|done].
      * rewrite flag_insert_ne by lia. rewrite HAh by done. split; [by left|].
        by intros [?|?].
    + intros w Hw. destruct (decide (w = v)) as [->|Hne]; [done|].
      rewrite flag_insert_ne by lia. by apply HAV.
  - intros w Hw Hne. by rewrite flag_insert_ne by lia.
Qed.

Lemma push_sources_inv (n : nat) (I : list Z) : ∀ (st : dijkstra),
  dijkstra_inv n st → NoDup I → Forall (λ i, 0 ≤ i < Z.of_nat n) I →
  Forall (λ i, flag (dj_A st) i = false ∧ flag (dj_V st) i = false) I →
  ∃ st', for_each push_source st I = Ok st' ∧ dijkstra_inv n st' ∧
    dj_V st' = dj_V st.
Proof.
  induction I as [|v I IH]; intros st Hinv Hnd Hr Hf; [by exists st|].
  apply NoDup_cons in Hnd as [Hv Hnd]. apply Forall_cons in Hr as [Hrv Hr].
  apply Forall_cons in Hf as [[HAv HVv] Hf].
  destruct (push_source_inv n st v Hinv Hrv HAv HVv)
    as (st1 & Hrun & Hinv1 & HV1 & HA1).
  destruct (IH st1 Hinv1 Hnd Hr) as (st' & Hrun' & Hinv' & HV').
  { rewrite HV1. apply Forall_forall. intros w Hw.
    pose proof (proj1 (Forall_forall _ _) Hf w Hw) as [??].
    pose proof (proj1 (Forall_forall _ _) Hr w Hw) as ?. cbn beta in *.
    split; [|done]. rewrite HA1; [done|lia|]. by intros ->. }
  exists st'. cbn [for_each]. rewrite Hrun. cbn [mbind result_bind].
  split; [done|]. split; [done|]. congruence.
Qed.
Lemma Forall_at_index {A} (P : A → Prop) (dflt : A) (l : list A) (i : Z) :
  Forall P l → 0 ≤ i < Z.of_nat (length l) → P (at_index dflt l i).
Proof.
  intros Hl Hi. unfold at_index.
  destruct (lookup_lt_is_Some_2 l (Z.to_nat i)) as [x Hx]; [lia|].
  rewrite Hx. cbn. by apply (proj1 (Forall_lookup _ _) Hl (Z.to_nat i)).
Qed.

(** The body of the loop over the neighbors returns and keeps the
    invariant; it does not touch the finalized flags. *)
Lemma update_neighbor_inv (n : nat) (WV : list Q) (i : Z) (st : dijkstra) (j : Z) :
  dijkstra_inv n st → 0 ≤ i < Z.of_nat n → 0 ≤ j < Z.of_nat n →
  (n ≤ length WV)%nat →
  ∃ st', update_neighbor WV i st j = Ok st' ∧ dijkstra_inv n st' ∧
    dj_V st' = dj_V st.
Proof.
  destruct st as [d l s h A p V]. unfold dijkstra_inv.
  cbn [dj_d dj_l dj_s dj_h dj_A dj_p dj_V].
  intros (Hd & Hl & HA & HV & Hwf & Hlr & HAh & HAV) Hi Hj HWV.
  pose proof Hwf as (Hp & Hh & Hs & Hall & Hptr).
  unfold update_neighbor. cbn [dj_d dj_l dj_s dj_h dj_A dj_p dj_V].
  destruct (decide (j = i)) as [Hji|Hji].
  { eexists. split; [done|]. by cbn. }
  rewrite (np_get_at_index false V j) by lia. cbn [mbind result_bind].
  fold (flag V j). destruct (flag V j) eqn:HVj.
  { eexists. split; [done|]. by cbn. }
  rewrite (np_get_at_index false A j) by lia. cbn [mbind result_bind].
  fold (flag A j). destruct (flag A j) eqn:HAj.
  - rewrite (np_get_at_index 0%Q d i) by lia. cbn [mbind result_bind].
    rewrite (np_get_at_index 0%Q WV j) by lia. cbn [mbind result_bind].
    rewrite (np_get_at_index 0%Q d j) by lia. cbn [mbind result_bind].
    destruct (Qltb _ _).
    2:{ eexists. split; [done|]. by cbn. }
    rewrite np_set_nonneg by lia. cbn [mbind result_bind].
    rewrite (np_get_at_index (-1) p j) by lia. cbn [mbind result_bind].
    set (d' := <[Z.to_nat j := _]> d).
    assert (heap_wf d' h p s) as Hwf'
      by (apply (heap_wf_keys d); [apply length_insert|done]).
    assert (1 ≤ at_index (-1) p j ≤ s) as Hpj.
    { apply HAh in HAj as (i0 & Hi0 & <-); [|done].
      destruct (Hptr i0 Hi0) as [_ Hp0]. unfold pv in Hp0. by rewrite Hp0. }
    destruct (SiftUp_wf d' h p s _ Hwf' Hpj) as (h' & p' & Hrun & Hwf'' & Hel & _).
    rewrite Hrun. cbn [mbind result_bind].
    rewrite (np_get_at_index (-1) l i) by lia. cbn [mbind result_bind].
    rewrite np_set_nonneg by lia. cbn [mbind result_bind].
    eexists. split; [done|]. cbn [dj_d dj_l dj_s dj_h dj_A dj_p dj_V].
    split; [|done]. unfold d'. rewrite !length_insert.
    split; [done|]. split; [done|]. split; [done|]. split; [done|].
    split; [done|]. split.
    { apply Forall_insert; [done|]. apply Forall_at_index; [done|lia]. }
    split; [|done]. intros w Hw. rewrite Hel. by apply HAh.
  - assert (¬ in_heap h s j) as Hnin.
    { intros Hin%HAh; [|done]. congruence. }
    pose proof (heap_has_room d h p s j Hwf ltac:(lia) Hnin) as Hroom.
    destruct (PushHeap_wf d h p s j Hwf Hroom ltac:(lia) Hnin)
      as (h' & p' & Hrun & Hwf' & Hel & _).
    rewrite Hrun. cbn [mbind result_bind].
    rewrite (np_get_at_index 0%Q d i) by lia. cbn [mbind result_bind].
    rewrite (np_get_at_index 0%Q WV j) by lia. cbn [mbind result_bind].
    rewrite np_set_nonneg by lia. cbn [mbind result_bind].
    rewrite np_set_nonneg by lia. cbn [mbind result_bind].
    rewrite (np_get_at_index (-1) l i) by lia. cbn [mbind result_bind].
    rewrite np_set_nonneg by lia. cbn [mbind result_bind].
    eexists. split; [done|]. cbn [dj_d dj_l dj_s dj_h dj_A dj_p dj_V].
    split; [|done]. rewrite !length_insert.
    split; [done|]. split; [done|]. split; [done|]. split; [done|]. split.
    { apply (heap_wf_keys d); [by rewrite length_insert|done]. }
    split.
    { apply Forall_insert; [done|]. apply Forall_at_index; [done|lia]. }
    split.
    + intros w Hw. rewrite Hel. destruct (decide (w = j)) as [->|Hne].
      * rewrite flag_insert_eq by lia. split; [by right|done].
      * rewrite flag_insert_ne by lia. rewrite HAh by done. split; [by left|].
        by intros [?|?].
    + intros w Hw. destruct (decide (w = j)) as [->|Hne]; [done|].
      rewrite flag_insert_ne by lia. by apply HAV.
Qed.

Lemma update_neighbors_inv (n : nat) (WV : list Q) (i : Z) (xs : list Z) :
  ∀ (st : dijkstra),
  dijkstra_inv n st → 0 ≤ i < Z.of_nat n →
  Forall (λ j, 0 ≤ j < Z.of_nat n) xs → (n ≤ length WV)%nat →
  ∃ st', for_each (update_neighbor WV i) st xs = Ok st' ∧ dijkstra_inv n st' ∧
    dj_V st' = dj_V st.
Proof.
  induction xs as [|j xs IH]; intros st Hinv Hi Hxs HWV; [by exists st|].
  apply Forall_cons in Hxs as [Hj Hxs].
  destruct (update_neighbor_inv n WV i st j Hinv Hi Hj HWV)
    as (st1 & Hrun & Hinv1 & HV1).
  destruct (IH st1 Hinv1 Hi Hxs HWV) as (st' & Hrun' & Hinv' & HV').
  exists st'. cbn [for_each]. rewrite Hrun. cbn [mbind result_bind].
  split; [done|]. split; [done|]. congruence.
Qed.

Lemma np_slice_Forall {A} (P : A → Prop) (a : list A) (lo hi : Z) :
  Forall P a → Forall P (np_slice a lo hi).
Proof. intros H. unfold np_slice. by apply Forall_take, Forall_drop. Qed.

(** The loop of Dijkstra's algorithm returns: every turn finalizes a
    vertex that was not. *)
Lemma dijkstra_loop_inv (n : nat) (WI K : list Z) (WV : list Q) (fuel : nat) :
  ∀ (st : dijkstra),
  dijkstra_inv n st → (unfinalized (dj_V st) ≤ fuel)%nat →
  Forall (λ j, 0 ≤ j < Z.of_nat n) WI → (S n ≤ length K)%nat →
  (n ≤ length WV)%nat →
  ∃ st', dijkstra_loop fuel WI K WV st = Ok st' ∧ dijkstra_inv n st'.
Proof.
  induction fuel as [|fuel IH]; intros st Hinv Hfuel HWI HK HWV.
  - destruct st as [d l s h A p V]. cbn [dijkstra_loop dj_s].
    destruct (decide (s > 0)) as [Hs|Hs]; [|by eexists].
    exfalso. destruct Hinv as (Hd & Hl & HA & HV & Hwf & Hlr & HAh & HAV).
    cbn [dj_d dj_l dj_s dj_h dj_A dj_p dj_V] in *.
    pose proof (heap_slot_range d h p s 1 Hwf ltac:(lia)) as Hr.
    assert (flag V (hv h 1) = false) as HV1.
    { apply HAV; [lia|]. apply HAh; [lia|]. exists 1. split; [lia|done]. }
    unfold flag, at_index in HV1.
    destruct (lookup_lt_is_Some_2 V (Z.to_nat (hv h 1))) as [b Hb]; [lia|].
    rewrite Hb in HV1. cbn in HV1. subst b.
    pose proof (unfinalized_insert V _ Hb). lia.
  - destruct st as [d l s h A p V]. cbn [dijkstra_loop dj_s].
    destruct (decide (s > 0)) as [Hs|Hs]; [|by eexists].
    pose proof Hinv as (Hd & Hl & HA & HV & Hwf & Hlr & HAh & HAV).
    cbn [dj_d dj_l dj_s dj_h dj_A dj_p dj_V] in *.
    pose proof (heap_slot_range d h p s 1 Hwf ltac:(lia)) as Hr.
    destruct (PopHeap_wf d h p s Hwf ltac:(lia))
      as (h' & p' & Hrun & Hwf' & Hel & _).
    rewrite Hrun. cbn [mbind result_bind].
    rewrite !np_set_nonneg by lia. cbn [mbind result_bind].
    rewrite (np_get_at_index 0 K (hv h 1)) by lia. cbn [mbind result_bind].
    rewrite (np_get_at_index 0 K (hv h 1 + 1)) by lia. cbn [mbind result_bind].
    assert (flag A (hv h 1) = true) as HA1.
    { apply HAh; [lia|]. exists 1. split; [lia|done]. }
    assert (flag V (hv h 1) = false) as HV1 by (apply HAV; [lia|done]).
    set (st1 := {| dj_d := d; dj_l := l; dj_s := s - 1; dj_h := h';
                   dj_A := <[Z.to_nat (hv h 1) := false]> A; dj_p := p';
                   dj_V := <[Z.to_nat (hv h 1) := true]> V |}).
    assert (dijkstra_inv n st1) as Hinv1.
    { unfold dijkstra_inv, st1. cbn [dj_d dj_l dj_s dj_h dj_A dj_p dj_V].
      rewrite !length_insert. split; [done|]. split; [done|]. split; [done|].
      split; [done|]. split; [done|]. split; [done|]. split.
      - intros w Hw. rewrite Hel. destruct (decide (w = hv h 1)) as [->|Hne].
        + rewrite flag_insert_eq by lia. split; [done|]. by intros [_ ?].
        + rewrite flag_insert_ne by lia. rewrite HAh by done.
          split; [done|]. by intros [? _].
      - intros w Hw. destruct (decide (w = hv h 1)) as [->|Hne].
        + rewrite flag_insert_eq by lia. done.
        + rewrite !flag_insert_ne by lia. by apply HAV. }
    destruct (update_neighbors_inv n WV (hv h 1)
                (np_slice WI (at_index 0 K (hv h 1)) (at_index 0 K (hv h 1 + 1)))
                st1 Hinv1 ltac:(lia) (np_slice_Forall _ _ _ _ HWI) HWV)
      as (st2 & Hrun2 & Hinv2 & HV2).
    rewrite Hrun2. cbn [mbind result_bind].
    apply IH; try done. rewrite HV2. unfold st1. cbn [dj_V].
    unfold flag, at_index in HV1.
    destruct (lookup_lt_is_Some_2 V (Z.to_nat (hv h 1))) as [b Hb]; [lia|].
    rewrite Hb in HV1. cbn in HV1. subst b.
    pose proof (unfinalized_insert V _ Hb). lia.
Qed.
Lemma unfinalized_le (V : list bool) : (unfinalized V ≤ length V)%nat.
Proof. apply length_filter. Qed.

Lemma dijkstra_python_returns (W : matrix) (I : list Z) :
  ncols W = nrows W → no_empty_column W = true →
  NoDup I → Forall (λ i, 0 ≤ i < Z.of_nat (nrows W)) I →
  ∃ st, dijkstra_python W I = Ok st ∧ dijkstra_inv (nrows W) st.
Proof.
  intros Hsq Hne Hnd HI. unfold dijkstra_python.
  pose proof (sparse_find_rows W) as HWI.
  pose proof (sparse_find_starts W Hne) as HK.
  pose proof (sparse_find_values W Hne) as HWV.
  destruct (sparse_find W) as [[WI WJ] WV]. cbn [fst snd] in *.
  rewrite Hsq in HK, HWV.
  destruct (push_sources_inv (nrows W) I (dijkstra_init (nrows W)))
    as (st0 & Hrun0 & Hinv0 & HV0); [apply dijkstra_init_inv|done|done| |].
  { apply Forall_forall. intros i Hi.
    pose proof (proj1 (Forall_forall _ _) HI i Hi) as Hr. cbn beta in Hr.
    unfold dijkstra_init, flag, at_index. cbn [dj_A dj_V].
    by rewrite lookup_replicate_2 by lia. }
  rewrite Hrun0. cbn [mbind result_bind].
  apply dijkstra_loop_inv; try done.
  rewrite HV0. unfold dijkstra_init. cbn [dj_V].
  pose proof (unfinalized_le (replicate (nrows W) false)) as Hle.
  rewrite length_replicate in Hle. lia.
Qed.

(** On a graph in which every vertex has a stored entry in its column, and
    for distinct labeled vertices, the portable path of [nearestneighbor]
    returns a result. *)
Lemma nearestneighbor_portable_returns (W : matrix) (I g : list Z) :
  ncols W = nrows W → no_empty_column W = true →
  NoDup I → Forall (λ i, 0 ≤ i < Z.of_nat (nrows W)) I →
  length g = length I →
  ∃ X, nearestneighbor None W I g = Ok X.
Proof.
  intros Hsq Hne Hnd HI Hg.
  destruct (dijkstra_python_returns W I Hsq Hne Hnd HI) as (st & Hrun & Hinv).
  unfold nearestneighbor. destruct (sparse_find W) as [[WI WJ] WV].
  rewrite Hrun. cbn [mbind result_bind].
  destruct Hinv as (_ & Hl & _ & _ & _ & Hlr & _).
  by apply labels_of_nearest_total.
Qed.

Lemma dijkstra_loop_empties (fuel : nat) (WI K : list Z) (WV : list Q) :
  ∀ (st st' : dijkstra),
  dijkstra_loop fuel WI K WV st = Ok st' → dj_s st' ≤ 0.
Proof.
  induction fuel as [|fuel IH]; intros st st' H; cbn [dijkstra_loop] in H.
  - destruct (decide (dj_s st > 0)); [done|]. injection H as <-. lia.
  - destruct (decide (dj_s st > 0)); [|injection H as <-; lia].
    inv_bind H. destruct a as [[[h p] i] s]. inv_bind H. inv_bind H.
    inv_bind H. inv_bind H. inv_bind H. by apply IH in H.
Qed.

Lemma dijkstra_python_empties (W : matrix) (I : list Z) (st : dijkstra) :
  dijkstra_python W I = Ok st → dj_s st ≤ 0.
Proof.
  unfold dijkstra_python. destruct (sparse_find W) as [[WI WJ] WV].
  intros H. inv_bind H. by apply dijkstra_loop_empties in H.
Qed.
(** C9, counterexample: without the native module, volume MBO, its Poisson
    variant and the p-Laplace iteration in C stop with [SystemExit] on the
    path graph of five vertices with the two end vertices labeled. *)
Lemma accelerator_missing_exits :
  volumeMBO None path5 [0; 4] [0; 1] [1 # 2; 1 # 2]%Q 10 = Raise SystemExit ∧
  poisson_volumeMBO 100 None path5 [0; 4] [0; 1] [1 # 2; 1 # 2]%Q 10
    = Raise SystemExit ∧
  plaplace_solve zero_solver None 100 path5 [0; 4] [0; 1]%Q (Some 3%Q)
    GradientDescentCcode = Raise SystemExit.
Proof. split; [done|]. split; [done|]. by vm_compute. Qed.

(** C9 (amended): only [nearestneighbor] falls back.  Without the native
    module, and also when the call into it raises, it runs the Dijkstra
    loop written in Python and builds the labels from its result (on the
    path graph of five vertices this returns the expected labels).
    [volumeMBO] and [poisson_volumeMBO] stop with [SystemExit] on every
    input, and [plaplace_solve] with the method [GradientDescentCcode]
    returns no result on any input; its other methods do not use the
    module at all. *)
Theorem accelerator_unavailable :
  (∀ W I g,
     nearestneighbor None W I g
     = (st ← dijkstra_python W I; labels_of_nearest (nrows W) I g (dj_l st))) ∧
  (∀ m W I g,
     (∀ d l WI K WV r, cgp_dijkstra m d l WI K WV I r = Raise SystemExit) →
     nearestneighbor (Some m) W I g = nearestneighbor None W I g) ∧
  nearestneighbor None path5 [0; 4] [0; 1]
    = Ok [[1; 1; 1; 0; 0]; [0; 0; 0; 1; 1]]%Q ∧
  (∀ W I g beta T, volumeMBO None W I g beta T = Raise SystemExit) ∧
  (∀ fuel W I g beta T,
     poisson_volumeMBO fuel None W I g beta T = Raise SystemExit) ∧
  (∀ cg fuel W I g p u,
     plaplace_solve cg None fuel W I g p GradientDescentCcode ≠ Ok u) ∧
  (∀ cg cgp fuel W I g p sol, sol ≠ GradientDescentCcode →
     plaplace_solve cg None fuel W I g p sol
     = plaplace_solve cg cgp fuel W I g p sol).
Proof.
  split.
  { intros W I g. unfold nearestneighbor.
    destruct (sparse_find W) as [[WI WJ] WV].
    by destruct (dijkstra_python W I). }
  split.
  { intros m W I g Hm. unfold nearestneighbor.
    destruct (sparse_find W) as [[WI WJ] WV]. by rewrite Hm. }
  split; [by vm_compute|].
  split; [intros; reflexivity|]. split; [intros; reflexivity|]. split.
  - intros cg fuel W I g p u. unfold plaplace_solve.
    destruct (decide (nrows W = O)); [done|].
    destruct (graph_laplacian _) as [L| |]; [|done..]. cbn [mbind result_bind].
    destruct (constrained_solve _ _ _ _ _ _ _) as [u0| |]; [|done..].
    cbn [mbind result_bind].
    destruct (decide (g = [])); [done|].
    destruct (np_put u0 I g); [|done..]. cbn [mbind result_bind].
    destruct (np_put (replicate _ (np_max g)) I g); [|done..].
    cbn [mbind result_bind].
    destruct (np_put (replicate _ (np_min g)) I g); [|done..]. done.
  - intros cg cgp fuel W I g p sol Hsol. unfold plaplace_solve.
    by destruct sol.
Qed.

Lemma accelerator_unavailable_witness :
  nearestneighbor (Some failing_module) path5 [0; 4] [0; 1]
  = nearestneighbor None path5 [0; 4] [0; 1] ∧
  plaplace_solve zero_solver None 0 path5 [0; 4] [0; 1]%Q (Some 3%Q) GradientDescent
  = plaplace_solve zero_solver (Some failing_module) 0 path5 [0; 4] [0; 1]%Q
      (Some 3%Q) GradientDescent.
Proof.
  destruct accelerator_unavailable as (_ & Hfail & _ & _ & _ & _ & Hother).
  split.
  - apply Hfail. reflexivity.
  - apply Hother. discriminate.
Defined.
(** * Further properties of the code *)

(** ** The heap operations one by one *)

Lemma heap_run_inv (st st' : heap_state) (ops : list heap_op)
    (log : list (option (Z * Q))) :
  heap_inv st → admissible st ops = true → heap_run st ops = Ok (st', log) →
  heap_inv st'.
Proof.
  intros Hinv Hadm Hrun.
  destruct (heap_run_spec ops st None None Hinv Hadm) as (st1 & log1 & H1 & H2 & _).
  { by intros ? [=]. }
  congruence.
Qed.

(** X1. On a heap that satisfies the invariants and is not empty,
    [PopHeap] returns the vertex of the root and the size [s - 1]; the key
    of that vertex is the least of the heap; the heap that is left holds
    the other vertices, each once, and satisfies the invariants. *)
Theorem PopHeap_returns_minimum (d : list Q) (h p : list Z) (s : Z) :
  heap_wf d h p s → heap_ordered d h s → 1 ≤ s →
  ∃ h' p', PopHeap d h s p = Ok (h', p', hv h 1, s - 1) ∧
    in_heap h s (hv h 1) ∧
    (∀ v, in_heap h s v → (at_index 0 d (hv h 1) <= at_index 0 d v)%Q) ∧
    (∀ v, in_heap h' (s - 1) v ↔ in_heap h s v ∧ v ≠ hv h 1) ∧
    heap_wf d h' p' (s - 1) ∧ heap_ordered d h' (s - 1).
Proof.
  intros Hwf Hord Hs.
  destruct (PopHeap_spec d h p s Hwf Hord Hs)
    as (h' & p' & Hrun & Hwf' & Hord' & Hel & Hmin).
  exists h', p'. split; [done|]. split; [exists 1; split; [lia|done]|].
  split; [|done]. intros v (j & Hj & <-). by apply Hmin.
Qed.

Lemma PopHeap_returns_minimum_witness :
  ∃ h' p', PopHeap [6; 5; 3]%Q [-1; 2; 0; 1] 3 [2; 3; 1] = Ok (h', p', 2, 2) ∧
    in_heap [-1; 2; 0; 1] 3 2 ∧
    (∀ v, in_heap [-1; 2; 0; 1] 3 v →
       (at_index 0 [6; 5; 3] 2 <= at_index 0 [6; 5; 3] v)%Q) ∧
    (∀ v, in_heap h' 2 v ↔ in_heap [-1; 2; 0; 1] 3 v ∧ v ≠ 2) ∧
    heap_wf [6; 5; 3]%Q h' p' 2 ∧ heap_ordered [6; 5; 3]%Q h' 2.
Proof.
  assert (heap_inv (HeapState [6; 5; 3]%Q [-1; 2; 0; 1] [2; 3; 1] 3)) as [Hwf Hord].
  { apply (heap_run_inv (empty_heap [6; 5; 3]%Q) _ [OpPush 2; OpPush 0; OpPush 1]
             [None; None; None]);
      [apply empty_heap_inv|reflexivity|reflexivity]. }
  apply (PopHeap_returns_minimum [6; 5; 3]%Q [-1; 2; 0; 1] [2; 3; 1] 3 Hwf Hord).
  lia.
Defined.

(** X2. [PushHeap] of a vertex that is not in a heap satisfying the
    invariants does not raise (the heap has room for it), returns the size
    [s + 1], adds that vertex and no other, and keeps the invariants. *)
Theorem PushHeap_adds_vertex (d : list Q) (h p : list Z) (s v : Z) :
  heap_wf d h p s → heap_ordered d h s →
  0 ≤ v < Z.of_nat (length d) → ¬ in_heap h s v →
  ∃ h' p', PushHeap d h s p v = Ok (h', p', s + 1) ∧
    (∀ w, in_heap h' (s + 1) w ↔ in_heap h s w ∨ w = v) ∧
    heap_wf d h' p' (s + 1) ∧ heap_ordered d h' (s + 1).
Proof.
  intros Hwf Hord Hv Hnin.
  pose proof (heap_has_room d h p s v Hwf Hv Hnin) as Hroom.
  destruct (PushHeap_spec d h p s v Hwf Hord Hroom Hv Hnin)
    as (h' & p' & Hrun & Hwf' & Hord' & Hel).
  by exists h', p'.
Qed.

Lemma PushHeap_adds_vertex_witness :
  ∃ h' p', PushHeap [6; 5; 3]%Q [-1; 1; 0; -1] 2 [2; 1; -1] 2 = Ok (h', p', 3) ∧
    (∀ w, in_heap h' 3 w ↔ in_heap [-1; 1; 0; -1] 2 w ∨ w = 2) ∧
    heap_wf [6; 5; 3]%Q h' p' 3 ∧ heap_ordered [6; 5; 3]%Q h' 3.
Proof.
  assert (heap_inv (HeapState [6; 5; 3]%Q [-1; 1; 0; -1] [2; 1; -1] 2)) as [Hwf Hord].
  { apply (heap_run_inv (empty_heap [6; 5; 3]%Q) _ [OpPush 0; OpPush 1]
             [None; None]);
      [apply empty_heap_inv|reflexivity|reflexivity]. }
  apply (PushHeap_adds_vertex [6; 5; 3]%Q [-1; 1; 0; -1] [2; 1; -1] 2 2 Hwf Hord).
  - cbn. lia.
  - intros Hin%in_heapb_spec. by vm_compute in Hin.
Defined.

(** X3. [SiftUp] at an occupied slot returns without an exception whatever
    the keys are, also when the heap is not ordered: it leaves the vertices
    of the heap and the pointers [p[h[i]] = i] in place. *)
Theorem SiftUp_keeps_pointers (d : list Q) (h p : list Z) (s i : Z) :
  heap_wf d h p s → 1 ≤ i ≤ s →
  ∃ h' p', SiftUp d h s p i = Ok (h', p') ∧ heap_wf d h' p' s ∧
    ∀ v, in_heap h' s v ↔ in_heap h s v.
Proof.
  intros Hwf Hi.
  destruct (SiftUp_wf d h p s i Hwf Hi) as (h' & p' & Hrun & Hwf' & Hel & _).
  by exists h', p'.
Qed.

Lemma SiftUp_keeps_pointers_witness :
  ∃ h' p', SiftUp [1; 5; 3]%Q [-1; 2; 0; 1] 3 [2; 3; 1] 2 = Ok (h', p') ∧
    heap_wf [1; 5; 3]%Q h' p' 3 ∧
    ∀ v, in_heap h' 3 v ↔ in_heap [-1; 2; 0; 1] 3 v.
Proof.
  apply (SiftUp_keeps_pointers [1; 5; 3]%Q [-1; 2; 0; 1] [2; 3; 1] 3 2); [|lia].
  apply (heap_wf_keys [6; 5; 3]%Q); [reflexivity|].
  apply (heap_run_inv (empty_heap [6; 5; 3]%Q)
           (HeapState [6; 5; 3]%Q [-1; 2; 0; 1] [2; 3; 1] 3)
           [OpPush 2; OpPush 0; OpPush 1] [None; None; None]);
    [apply empty_heap_inv|reflexivity|reflexivity].
Defined.

(** X4. Decrease-key: when a vertex of a heap that satisfies the invariants
    gets a key that is not above its key and its slot [p[j]] is sifted up,
    as the relaxation step of [nearestneighbor] does, the heap holds the
    same vertices and satisfies the invariants for the new keys. *)
Theorem DecreaseKey_restores_order (d : list Q) (h p : list Z) (s v : Z) (k : Q) :
  heap_wf d h p s → heap_ordered d h s → in_heap h s v →
  (k <= at_index 0%Q d v)%Q →
  ∃ h' p', DecreaseKey d h s p v k = Ok (<[Z.to_nat v := k]> d, h', p') ∧
    heap_wf (<[Z.to_nat v := k]> d) h' p' s ∧
    heap_ordered (<[Z.to_nat v := k]> d) h' s ∧
    ∀ w, in_heap h' s w ↔ in_heap h s w.
Proof. apply DecreaseKey_spec. Qed.

Lemma DecreaseKey_restores_order_witness :
  ∃ h' p', DecreaseKey [6; 5; 3]%Q [-1; 2; 0; 1] 3 [2; 3; 1] 0 1%Q
           = Ok ([1; 5; 3]%Q, h', p') ∧
    heap_wf [1; 5; 3]%Q h' p' 3 ∧ heap_ordered [1; 5; 3]%Q h' 3 ∧
    ∀ w, in_heap h' 3 w ↔ in_heap [-1; 2; 0; 1] 3 w.
Proof.
  assert (heap_inv (HeapState [6; 5; 3]%Q [-1; 2; 0; 1] [2; 3; 1] 3)) as [Hwf Hord].
  { apply (heap_run_inv (empty_heap [6; 5; 3]%Q) _ [OpPush 2; OpPush 0; OpPush 1]
             [None; None; None]);
      [apply empty_heap_inv|reflexivity|reflexivity]. }
  apply (DecreaseKey_restores_order [6; 5; 3]%Q [-1; 2; 0; 1] [2; 3; 1] 3 0 1%Q
           Hwf Hord).
  - apply in_heapb_spec. reflexivity.
  - by vm_compute.
Defined.

(** X5. [PopHeap] on an empty heap does not raise: slot 0 of [h] is never
    written and holds -1, so the call writes 1 into the last entry of [p],
    copies -1 into slot 1 and returns the content of slot 1 with the size
    -1. *)
Theorem PopHeap_empty (d : list Q) (h p : list Z) :
  (1 ≤ length p)%nat → length h = S (length p) → hv h 0 = -1 →
  PopHeap d h 0 p
  = Ok (<[1%nat := -1]> h, <[pred (length p) := 1]> p, hv h 1, -1).
Proof.
  intros Hp Hh H0. unfold PopHeap.
  rewrite (np_get_at_index (-1) h 1) by lia. cbn [mbind result_bind].
  rewrite (np_get_at_index (-1) h 0) by lia. cbn [mbind result_bind].
  fold (hv h 0) (hv h 1). rewrite H0.
  rewrite np_set_nonneg by lia. cbn [mbind result_bind].
  rewrite (np_get_at_index (-1) _ 1) by (rewrite length_insert; lia).
  cbn [mbind result_bind]. rewrite at_index_insert_eq by lia.
  unfold np_set at 1, np_index. rewrite decide_False by lia.
  rewrite decide_True by lia. cbn [mbind result_bind].
  replace (Z.to_nat (Z.of_nat (length p) + -1)) with (pred (length p)) by lia.
  unfold SiftDown. cbn [SiftDown_loop]. rewrite decide_False by lia.
  cbn [mbind result_bind]. done.
Qed.

Lemma PopHeap_empty_witness :
  PopHeap [6; 5; 3]%Q [-1; -1; -1; -1] 0 [-1; -1; -1]
  = Ok ([-1; -1; -1; -1], [-1; -1; 1], -1, -1).
Proof.
  apply (PopHeap_empty [6; 5; 3]%Q [-1; -1; -1; -1] [-1; -1; -1]);
    [cbn; lia|reflexivity|reflexivity].
Defined.
(** ** The portable path of [nearestneighbor] *)

(** X6. Without the native module [nearestneighbor] returns a result, and
    its Dijkstra loop stops within the turns the model allows it, for every
    square weight matrix in which each vertex has a stored entry in its
    column and for distinct labeled vertices of the graph with one label
    each. *)
Theorem nearestneighbor_portable_total (W : matrix) (I g : list Z) :
  ncols W = nrows W → no_empty_column W = true →
  NoDup I → Forall (λ i, 0 ≤ i < Z.of_nat (nrows W)) I →
  length g = length I →
  ∃ st X, dijkstra_python W I = Ok st ∧ dj_s st ≤ 0 ∧
    nearestneighbor None W I g = Ok X.
Proof.
  intros Hsq Hne Hnd HI Hg.
  destruct (dijkstra_python_returns W I Hsq Hne Hnd HI) as (st & Hrun & Hinv).
  destruct (nearestneighbor_portable_returns W I g Hsq Hne Hnd HI Hg) as [X HX].
  exists st, X. split; [done|]. split; [|done].
  by apply (dijkstra_python_empties W I).
Qed.

Lemma nearestneighbor_portable_total_witness :
  ∃ st X, dijkstra_python path5 [0; 4] = Ok st ∧ dj_s st ≤ 0 ∧
    nearestneighbor None path5 [0; 4] [0; 1] = Ok X.
Proof.
  apply (nearestneighbor_portable_total path5 [0; 4] [0; 1]).
  - reflexivity.
  - reflexivity.
  - by apply (bool_decide_unpack _).
  - by apply (bool_decide_unpack _).
  - reflexivity.
Defined.
(** ** [LabelsToVec] *)

Lemma entry_lookup (X : matrix) (r j : nat) (row : list Q) (x : Q) :
  X !! r = Some row → row !! j = Some x → entry X r j = x.
Proof. intros H1 H2. unfold entry. rewrite H1. cbn. by rewrite H2. Qed.

Lemma one_hot_Ok (k : nat) (L : list Z) :
  Forall (λ x, 0 ≤ x < Z.of_nat k) L →
  ∃ X, one_hot k L = Ok X ∧ length X = k ∧
    Forall (λ r : list Q, length r = length L) X ∧
    ∀ r j x, (r < k)%nat → L !! j = Some x →
      entry X r j = if decide (Z.to_nat x = r) then 1%Q else 0%Q.
Proof.
  intros HL. unfold one_hot. rewrite row_indices_range by done.
  cbn [mbind result_bind]. eexists. split; [done|].
  split; [by rewrite length_fmap, length_seq|]. split.
  - apply Forall_fmap, Forall_forall. intros c _. cbn.
    by rewrite !length_fmap.
  - intros r j x Hr Hj. eapply entry_lookup.
    + rewrite list_lookup_fmap, lookup_seq_lt by done. done.
    + rewrite !list_lookup_fmap, Hj. done.
Qed.

Lemma relabel_lookup (labels : list Z) : ∀ (i : Z) (L : list Z),
  length (relabel i labels L) = length L.
Proof.
  induction labels as [|a labels IH]; intros i L; [done|].
  cbn [relabel]. rewrite IH. unfold assign_where. by rewrite length_fmap.
Qed.

Lemma LabelsToVec_structure (L : list Z) :
  ∃ X L', LabelsToVec L = Ok (X, np_unique L, L') ∧
    length X = length (np_unique L) ∧
    Forall (λ r : list Q, length r = length L) X ∧
    ∀ j, (j < length L)%nat →
      ∃ c, (c < length (np_unique L))%nat ∧
        ∀ r, (r < length (np_unique L))%nat →
          entry X r j = if decide (c = r) then 1%Q else 0%Q.
Proof.
  unfold LabelsToVec.
  assert (Forall (λ y, 0 ≤ y < Z.of_nat (length (np_unique L)))
            (relabel 0 (np_unique L) L)) as Hr.
  { eapply Forall_impl; [apply (relabel_bound (np_unique L) 0 L)|].
    - lia.
    - apply Forall_forall. intros x Hx. left. by apply elem_of_np_unique.
    - intros y Hy. cbn beta in *. lia. }
  destruct (one_hot_Ok _ _ Hr) as (X & -> & Hk & Hn & He).
  cbn [mbind result_bind]. exists X, (relabel 0 (np_unique L) L).
  split; [done|]. split; [done|]. rewrite relabel_lookup in Hn.
  split; [done|]. intros j Hj.
  destruct (lookup_lt_is_Some_2 (relabel 0 (np_unique L) L) j) as [x Hx];
    [by rewrite relabel_lookup|].
  pose proof (proj1 (Forall_lookup _ _) Hr j x Hx) as Hxr. cbn beta in Hxr.
  exists (Z.to_nat x). split; [lia|]. intros r Hrk. by apply He.
Qed.

(** X7. [LabelsToVec] raises on no array of labels, whatever their values:
    the labels it returns are the sorted distinct values, [X] has one row
    for each of them and one column for each entry of [L], and every
    column of [X] holds a single 1 and zeros. *)
Theorem LabelsToVec_one_hot (L : list Z) :
  ∃ X L', LabelsToVec L = Ok (X, np_unique L, L') ∧
    length X = length (np_unique L) ∧
    Forall (λ r : list Q, length r = length L) X ∧
    ∀ j, (j < length L)%nat →
      ∃ c, (c < length (np_unique L))%nat ∧
        ∀ r, (r < length (np_unique L))%nat →
          entry X r j = if decide (c = r) then 1%Q else 0%Q.
Proof. apply LabelsToVec_structure. Qed.

Lemma sorted_index_le (l : list Z) : ∀ (m : Z),
  StronglySorted Z.lt l → Forall (λ x, m ≤ x) l →
  ∀ t a, l !! t = Some a → m + Z.of_nat t ≤ a.
Proof.
  induction l as [|b l IH]; intros m Hs Hm t a Ht; [done|].
  apply StronglySorted_inv in Hs as [Hs Hb]. apply Forall_cons in Hm as [Hmb Hm].
  destruct t as [|t]; simplify_eq/=; [lia|].
  specialize (IH (m + 1) Hs). ospecialize (IH _ t a Ht); [|lia].
  eapply Forall_impl; [exact Hb|]. intros x Hx. cbn beta in *. lia.
Qed.

Lemma label_index_lookup (labels : list Z) (x : Z) :
  x ∈ labels →
  0 ≤ label_index labels x < Z.of_nat (length labels) ∧
  labels !! Z.to_nat (label_index labels x) = Some x.
Proof.
  induction labels as [|a labels IH]; intros Hx; [by apply elem_of_nil in Hx|].
  cbn [label_index length]. destruct (decide (x = a)) as [->|Hne].
  { split; [lia|done]. }
  apply elem_of_cons in Hx as [?|Hx]; [done|]. destruct (IH Hx) as [Hr Hl].
  split; [lia|]. replace (Z.to_nat (1 + label_index labels x))
    with (S (Z.to_nat (label_index labels x))) by lia. done.
Qed.

(** When every label is at least its index, the loop of [LabelsToVec]
    replaces each label by its index: no index written early is taken for
    a label later. *)
Lemma relabel_spec (labels : list Z) : ∀ (i : Z) (L : list Z),
  StronglySorted Z.lt labels →
  (∀ t a, labels !! t = Some a → i + Z.of_nat t ≤ a) →
  relabel i labels L
  = (λ x, if decide (x ∈ labels) then i + label_index labels x else x) <$> L.
Proof.
  induction labels as [|a labels IH]; intros i L Hs Hi; cbn [relabel].
  { rewrite <- (list_fmap_id L) at 1. apply list_fmap_ext. intros _ x _.
    rewrite decide_False; [done|]. apply not_elem_of_nil. }
  apply StronglySorted_inv in Hs as [Hs Ha].
  rewrite (IH (i + 1)); [|done|]; cycle 1.
  { intros t b Ht. specialize (Hi (S t) b Ht). lia. }
  unfold assign_where. rewrite <- list_fmap_compose. apply list_fmap_ext.
  intros _ x _. cbn [compose label_index].
  pose proof (Hi O a eq_refl) as Hia.
  destruct (decide (x = a)) as [->|Hne].
  - rewrite (decide_True (P := a ∈ a :: labels)) by (by left).
    rewrite decide_False; [lia|].
    intros Hin. pose proof (proj1 (Forall_forall _ _) Ha i Hin). lia.
  - destruct (decide (x ∈ labels)) as [Hin|Hnin].
    + rewrite decide_True by (by right). lia.
    + rewrite decide_False; [done|]. by intros [?|?]%elem_of_cons.
Qed.

Lemma LabelsToVec_indices (L : list Z) :
  Forall (λ x, 0 ≤ x) L →
  ∃ X L', LabelsToVec L = Ok (X, np_unique L, L') ∧
    ∀ j x, L !! j = Some x →
      ∃ c, np_unique L !! c = Some x ∧ L' !! j = Some (Z.of_nat c) ∧
        ∀ r, (r < length (np_unique L))%nat →
          entry X r j = if decide (c = r) then 1%Q else 0%Q.
Proof.
  intros Hnn. unfold LabelsToVec.
  assert (relabel 0 (np_unique L) L = label_index (np_unique L) <$> L) as Hrel.
  { rewrite relabel_spec.
    - apply list_fmap_ext. intros _ x Hx%list_elem_of_lookup_2.
      rewrite decide_True by (by apply elem_of_np_unique). lia.
    - apply np_unique_sorted.
    - apply sorted_index_le; [apply np_unique_sorted|].
      apply Forall_forall. intros x Hx. apply (proj1 (elem_of_np_unique _ _)) in Hx.
      exact (proj1 (Forall_forall _ _) Hnn x Hx). }
  rewrite Hrel.
  assert (Forall (λ y, 0 ≤ y < Z.of_nat (length (np_unique L)))
            (label_index (np_unique L) <$> L)) as Hr.
  { apply Forall_fmap, Forall_forall. intros x Hx.
    apply (proj2 (elem_of_np_unique _ _)) in Hx. by apply label_index_lookup. }
  destruct (one_hot_Ok _ _ Hr) as (X & -> & Hk & Hn & He).
  cbn [mbind result_bind]. exists X, (label_index (np_unique L) <$> L).
  split; [done|]. intros j x Hj.
  assert (x ∈ np_unique L) as Hx
    by (apply elem_of_np_unique; by eapply list_elem_of_lookup_2).
  destruct (label_index_lookup _ _ Hx) as [Hrange Hlook].
  exists (Z.to_nat (label_index (np_unique L) x)). split; [done|]. split.
  - rewrite list_lookup_fmap, Hj. cbn. f_equal. lia.
  - intros r Hrk. apply He; [done|]. by rewrite list_lookup_fmap, Hj.
Qed.

(** X8. For labels without a negative value [LabelsToVec] is the one-hot
    encoding: column [j] of [X] is the unit vector of the index that the
    label [L[j]] has among the sorted distinct labels; the caller's array
    [L] holds these indices after the call. *)
Theorem LabelsToVec_nonnegative (L : list Z) :
  Forall (λ x, 0 ≤ x) L →
  ∃ X L', LabelsToVec L = Ok (X, np_unique L, L') ∧
    ∀ j x, L !! j = Some x →
      ∃ c, np_unique L !! c = Some x ∧ L' !! j = Some (Z.of_nat c) ∧
        ∀ r, (r < length (np_unique L))%nat →
          entry X r j = if decide (c = r) then 1%Q else 0%Q.
Proof. apply LabelsToVec_indices. Qed.

Lemma LabelsToVec_nonnegative_witness :
  ∃ X L', LabelsToVec [7; 2; 7] = Ok (X, np_unique [7; 2; 7], L') ∧
    ∀ (j : nat) (x : Z), ([7; 2; 7] : list Z) !! j = Some x →
      ∃ c, np_unique [7; 2; 7] !! c = Some x ∧ L' !! j = Some (Z.of_nat c) ∧
        ∀ r, (r < length (np_unique [7; 2; 7]%Z))%nat →
          entry X r j = if decide (c = r) then 1%Q else 0%Q.
Proof.
  apply (LabelsToVec_nonnegative [7; 2; 7]). by apply (bool_decide_unpack _).
Defined.
(** ** [ClosestVertex] *)

Lemma argmax_bool_spec (b : list bool) :
  true ∈ b →
  b !! argmax_bool b = Some true ∧
  ∀ r, (r < argmax_bool b)%nat → b !! r = Some false.
Proof.
  induction b as [|[] b IH]; intros Hin; [by apply elem_of_nil in Hin| |].
  - cbn. split; [done|]. intros r Hr. lia.
  - apply elem_of_cons in Hin as [?|Hin]; [done|]. cbn [argmax_bool].
    rewrite decide_True by done. destruct (IH Hin) as [H1 H2].
    split; [done|]. intros [|r] Hr; [done|]. apply H2. lia.
Qed.

(** [np.argmax]: the first place of the maximum. *)
Lemma np_argmax_spec (x : list Q) :
  x ≠ [] →
  ∃ v, x !! np_argmax x = Some v ∧
    (∀ r w, x !! r = Some w → (w <= v)%Q) ∧
    (∀ r w, (r < np_argmax x)%nat → x !! r = Some w → (w < v)%Q).
Proof.
  intros Hne. destruct (np_max_is_max x Hne) as [Hin Hmax].
  unfold np_argmax. set (b := (λ v, Qle_bool (np_max x) v) <$> x).
  assert (true ∈ b) as Hb.
  { apply list_elem_of_fmap. exists (np_max x). split; [|exact Hin].
    symmetry. apply Qle_bool_iff. apply Qle_refl. }
  destruct (argmax_bool_spec b Hb) as [H1 H2].
  unfold b in H1. rewrite list_lookup_fmap in H1.
  fold b in H1.
  destruct (x !! argmax_bool b) as [v|] eqn:Hv; cbn in H1; [|discriminate H1].
  injection H1 as H1. apply Qle_bool_iff in H1.
  exists v. split; [done|]. split.
  - intros r w Hw. apply list_elem_of_lookup_2, Hmax in Hw. lra.
  - intros r w Hr Hw. specialize (H2 r Hr). unfold b in H2.
    rewrite list_lookup_fmap, Hw in H2. cbn in H2. injection H2 as H2.
    assert (¬ (np_max x <= w)%Q) as Hn.
    { intros Hle%Qle_bool_iff. congruence. }
    apply Qnot_le_lt in Hn. lra.
Qed.

Lemma np_argmax_lt (x : list Q) : x ≠ [] → (np_argmax x < length x)%nat.
Proof.
  intros Hne. destruct (np_argmax_spec x Hne) as (v & Hv & _).
  by apply lookup_lt_Some in Hv.
Qed.

Lemma column_lookup (X : matrix) (r j : nat) :
  (r < length X)%nat → column X j !! r = Some (entry X r j).
Proof.
  intros Hr. unfold column, entry. rewrite list_lookup_fmap.
  destruct (lookup_lt_is_Some_2 X r Hr) as [row ->]. done.
Qed.

Lemma column_length' (X : matrix) (j : nat) : length (column X j) = length X.
Proof. unfold column. by rewrite length_fmap. Qed.

Lemma ClosestVertex_first_maximum_aux (X : matrix) :
  X ≠ [] →
  ∃ Y, ClosestVertex X = Ok Y ∧ nrows Y = nrows X ∧
    Forall (λ r : list Q, length r = ncols X) Y ∧
    ∀ j, (j < ncols X)%nat →
      ∃ c, (c < nrows X)%nat ∧
        (∀ r, (r < nrows X)%nat →
           entry Y r j = if decide (c = r) then 1%Q else 0%Q) ∧
        (∀ r, (r < nrows X)%nat → (entry X r j <= entry X c j)%Q) ∧
        (∀ r, (r < c)%nat → (entry X r j < entry X c j)%Q).
Proof.
  intros Hne. unfold ClosestVertex, nrows.
  rewrite decide_False by (by destruct X).
  set (n := ncols X). set (k := length X).
  assert (∀ j, column X j ≠ []) as Hcol.
  { intros j Heq%(f_equal length). rewrite column_length' in Heq. by destruct X. }
  set (L := (λ c, Z.of_nat (np_argmax c)) <$> columns n X).
  assert (Forall (λ x, 0 ≤ x < Z.of_nat k) L) as HL.
  { unfold L, columns. rewrite <- list_fmap_compose.
    apply Forall_fmap, Forall_forall. intros j _. cbn.
    pose proof (np_argmax_lt (column X j) (Hcol j)) as Hlt.
    rewrite column_length' in Hlt. unfold k. lia. }
  destruct (one_hot_Ok k L HL) as (Y & -> & Hk & Hn & He).
  assert (length L = n) as HLn
    by (unfold L, columns; by rewrite !length_fmap, length_seq).
  exists Y. split; [done|]. split; [done|]. rewrite HLn in Hn.
  split; [done|]. intros j Hj.
  assert (L !! j = Some (Z.of_nat (np_argmax (column X j)))) as HLj.
  { unfold L, columns. rewrite !list_lookup_fmap, lookup_seq_lt by done. done. }
  pose proof (np_argmax_lt (column X j) (Hcol j)) as Hlt.
  rewrite column_length' in Hlt.
  destruct (np_argmax_spec (column X j) (Hcol j)) as (v & Hv & Hmax & Hfirst).
  rewrite column_lookup in Hv by done. injection Hv as <-.
  exists (np_argmax (column X j)). split; [done|]. split; [|split].
  - intros r Hr. rewrite (He r j _ Hr HLj). by rewrite Nat2Z.id.
  - intros r Hr. apply (Hmax r). by apply column_lookup.
  - intros r Hr. apply (Hfirst r); [done|]. apply column_lookup. unfold k in *. lia.
Qed.

(** X9. For a matrix with at least one row [ClosestVertex] returns a
    matrix of zeros and ones of the same shape with a single 1 in every
    column, at the first row in which the column of [X] takes its
    maximum. *)
Theorem ClosestVertex_first_maximum (X : matrix) :
  X ≠ [] →
  ∃ Y, ClosestVertex X = Ok Y ∧ nrows Y = nrows X ∧
    Forall (λ r : list Q, length r = ncols X) Y ∧
    ∀ j, (j < ncols X)%nat →
      ∃ c, (c < nrows X)%nat ∧
        (∀ r, (r < nrows X)%nat →
           entry Y r j = if decide (c = r) then 1%Q else 0%Q) ∧
        (∀ r, (r < nrows X)%nat → (entry X r j <= entry X c j)%Q) ∧
        (∀ r, (r < c)%nat → (entry X r j < entry X c j)%Q).
Proof. apply ClosestVertex_first_maximum_aux. Qed.

Lemma ClosestVertex_first_maximum_witness :
  ∃ Y, ClosestVertex [[1 # 2; 1 # 3]; [1 # 2; 2 # 3]]%Q = Ok Y ∧ nrows Y = 2%nat ∧
    Forall (λ r : list Q, length r = 2%nat) Y.
Proof.
  destruct (ClosestVertex_first_maximum [[1 # 2; 1 # 3]; [1 # 2; 2 # 3]]%Q)
    as (Y & HY & Hk & Hn & _); [done|].
  by exists Y.
Defined.

(** Two matrices of the same shape with the same entries are equal. *)
Lemma matrix_ext (X Y : matrix) (n : nat) :
  length X = length Y →
  Forall (λ r : list Q, length r = n) X → Forall (λ r : list Q, length r = n) Y →
  (∀ r j, (r < length X)%nat → (j < n)%nat → entry X r j = entry Y r j) →
  X = Y.
Proof.
  intros Hlen HX HY He. apply list_eq_same_length with (length X); [done..|].
  intros r x y Hr Hx Hy.
  pose proof (proj1 (Forall_lookup _ _) HX r x Hx) as Hlx.
  pose proof (proj1 (Forall_lookup _ _) HY r y Hy) as Hly. cbn beta in *.
  apply list_eq_same_length with n; [done..|].
  intros j a b Hj Ha Hb. specialize (He r j Hr Hj).
  unfold entry in He. rewrite Hx, Hy in He. cbn in He.
  rewrite Ha, Hb in He. done.
Qed.

(** A matrix of zeros and ones with a single 1 in every column is a fixed
    point of [ClosestVertex]. *)
Lemma ClosestVertex_fixed (Y : matrix) (n : nat) :
  Y ≠ [] → Forall (λ r : list Q, length r = n) Y →
  (∀ j, (j < n)%nat → ∃ c, (c < nrows Y)%nat ∧
     ∀ r, (r < nrows Y)%nat → entry Y r j = if decide (c = r) then 1%Q else 0%Q) →
  ClosestVertex Y = Ok Y.
Proof.
  intros Hne Hn Hunit.
  assert (ncols Y = n) as Hnc.
  { destruct Y as [|r0 Y]; [done|]. by apply Forall_cons in Hn as [? _]. }
  destruct (ClosestVertex_first_maximum_aux Y Hne) as (Z & -> & Hk & HZn & HZ).
  f_equal. symmetry. rewrite Hnc in *. apply (matrix_ext Y Z n); [done..|].
  intros r j Hr Hj. destruct (HZ j Hj) as (c & Hc & HZe & Hmax & Hfirst).
  destruct (Hunit j Hj) as (c' & Hc' & HYe).
  rewrite (HZe r Hr), (HYe r Hr).
  assert (c = c') as ->; [|done].
  destruct (decide (c = c')) as [|Hne']; [done|]. exfalso.
  specialize (Hmax c' Hc'). rewrite (HYe c Hc), (HYe c' Hc') in Hmax.
  rewrite (decide_True (P := c' = c')) in Hmax by done.
  rewrite (decide_False (P := c' = c)) in Hmax by congruence.
  by vm_compute in Hmax.
Qed.
Lemma np_unique_nonempty (L : list Z) : L ≠ [] → np_unique L ≠ [].
Proof.
  destruct L as [|x L]; [done|]. intros _ Heq.
  assert (x ∈ np_unique (x :: L)) as Hx by (apply elem_of_np_unique; by left).
  rewrite Heq in Hx. by apply elem_of_nil in Hx.
Qed.

(** X10. Round trip: the matrix that [LabelsToVec] returns for an array
    of labels that is not empty is returned unchanged by [ClosestVertex]. *)
Theorem ClosestVertex_LabelsToVec (L : list Z) :
  L ≠ [] →
  ∃ X L', LabelsToVec L = Ok (X, np_unique L, L') ∧ ClosestVertex X = Ok X.
Proof.
  intros Hne.
  destruct (LabelsToVec_structure L) as (X & L' & HX & Hk & Hn & Hunit).
  exists X, L'. split; [done|].
  pose proof (np_unique_nonempty L Hne) as Hu.
  apply (ClosestVertex_fixed X (length L)); [|done|].
  - intros ->. by destruct (np_unique L).
  - unfold nrows. rewrite Hk. exact Hunit.
Qed.

Lemma ClosestVertex_LabelsToVec_witness :
  ∃ X L', LabelsToVec [7; -2; 7] = Ok (X, np_unique [7; -2; 7], L') ∧
    ClosestVertex X = Ok X.
Proof. apply (ClosestVertex_LabelsToVec [7; -2; 7]). done. Defined.

(** X11. [ClosestVertex] is idempotent: applied to a matrix it has
    returned, it returns that matrix. *)
Theorem ClosestVertex_idempotent (X Y : matrix) :
  ClosestVertex X = Ok Y → ClosestVertex Y = Ok Y.
Proof.
  intros HY. destruct X as [|r0 X]; [done|].
  destruct (ClosestVertex_first_maximum_aux (r0 :: X)) as (Y' & HY' & Hk & Hn & Hunit);
    [done|].
  rewrite HY in HY'. injection HY' as <-.
  apply (ClosestVertex_fixed Y (ncols (r0 :: X))); [|done|].
  - intros ->. done.
  - intros j Hj. destruct (Hunit j Hj) as (c & Hc & He & _).
    exists c. rewrite Hk. by split.
Qed.

Lemma ClosestVertex_idempotent_witness :
  ClosestVertex [[0; 1]; [1; 0]]%Q = Ok [[0; 1]; [1; 0]]%Q.
Proof.
  apply (ClosestVertex_idempotent [[1 # 3; 1 # 2]; [2 # 3; 1 # 2]]%Q).
  reflexivity.
Defined.
(** ** [ProjectToSimplex] returns the nearest point *)

Lemma dist2_cons (a b : Q) (x y : list Q) :
  dist2 (a :: x) (b :: y) = ((a - b) * (a - b) + dist2 x y)%Q.
Proof. done. Qed.

Lemma Qsquare_nonneg (a : Q) : (0 <= a * a)%Q.
Proof.
  destruct (Qlt_le_dec a 0); [|apply Qmult_le_0_compat; lra].
  assert (a * a == (- a) * (- a))%Q as -> by ring.
  apply Qmult_le_0_compat; lra.
Qed.

(** Clipping at a threshold [t]: against any column [z] without negative
    entries the distance grows at least by [2t] times the difference of
    the sums. *)
Lemma clip_distance (t : Q) (x : list Q) : ∀ z,
  length z = length x → Forall (λ v, 0 <= v)%Q z →
  (dist2 x (clip t x) + 2 * t * (Qsum (clip t x) - Qsum z) <= dist2 x z)%Q.
Proof.
  induction x as [|v x IH]; intros [|w z] Hlen Hz; try discriminate Hlen.
  { change (0 + 2 * t * (0 - 0) <= 0)%Q. lra. }
  injection Hlen as Hlen.
  apply Forall_cons in Hz as [Hw Hz]. specialize (IH z Hlen Hz).
  rewrite clip_cons, !dist2_cons, !Qsum_cons.
  destruct (Qmax2_spec (v - t) 0) as [[-> Hc]|[-> Hc]].
  - assert (0 <= w * (w + 2 * (t - v)))%Q as Hp.
    { apply Qmult_le_0_compat; lra. }
    assert ((v - w) * (v - w) == (v - 0) * (v - 0) + w * (w + 2 * (t - v)) - 2 * t * w)%Q
      as -> by ring.
    lra.
  - assert (0 <= (v - w - t) * (v - w - t))%Q as Hp.
    { apply Qsquare_nonneg. }
    assert ((v - w) * (v - w) == (v - (v - t)) * (v - (v - t))
              + (v - w - t) * (v - w - t) + 2 * t * (v - t - w))%Q as -> by ring.
    lra.
Qed.

(** A column of the simplex is at least as far from [x] as the column
    [project_column x]. *)
Lemma project_column_nearest (x z : list Q) :
  x ≠ [] → length z = length x → Forall (λ v, 0 <= v)%Q z → (Qsum z == 1)%Q →
  (dist2 x (project_column x) <= dist2 x z)%Q.
Proof.
  intros Hne Hlen Hz Hsum.
  pose proof (project_column_sum x Hne) as Hs.
  rewrite project_column_clip in * by done.
  pose proof (clip_distance (find_tau 0 0 (sort_descending x)) x z Hlen Hz) as H.
  rewrite Hs, Hsum in H. lra.
Qed.

Lemma ProjectToSimplex_columns (X : matrix) :
  nrows X ≠ O →
  ∃ Y, ProjectToSimplex X = Ok Y ∧
    ∀ j, (j < ncols X)%nat → column Y j = project_column (column X j).
Proof.
  intros Hk. unfold ProjectToSimplex. rewrite decide_False by done.
  eexists. split; [done|]. intros j Hj.
  apply column_columns.
  - by rewrite list_lookup_fmap, columns_lookup.
  - by rewrite project_column_length, column_length.
Qed.

(** X12. [ProjectToSimplex] returns the Euclidean projection onto the
    simplex: every column of the result is a point of the simplex (no
    negative entry, sum 1), and it is at least as near to the column of
    [X] as any point [z] of the simplex. *)
Theorem ProjectToSimplex_nearest (X : matrix) :
  nrows X ≠ O →
  ∃ Y, ProjectToSimplex X = Ok Y ∧
    ∀ j, (j < ncols X)%nat →
      length (column Y j) = nrows X ∧
      Forall (λ v, 0 <= v)%Q (column Y j) ∧ (Qsum (column Y j) == 1)%Q ∧
      ∀ z, length z = nrows X → Forall (λ v, 0 <= v)%Q z → (Qsum z == 1)%Q →
        (dist2 (column X j) (column Y j) <= dist2 (column X j) z)%Q.
Proof.
  intros Hk. destruct (ProjectToSimplex_columns X Hk) as (Y & HY & Hcol).
  exists Y. split; [done|]. intros j Hj. rewrite Hcol by done.
  assert (column X j ≠ []) as Hne.
  { intros Heq%(f_equal length). rewrite column_length in Heq. done. }
  split; [by rewrite project_column_length, column_length|].
  split; [apply project_column_nonneg|]. split; [by apply project_column_sum|].
  intros z Hlen Hz Hsum. apply project_column_nearest; try done.
  by rewrite column_length.
Qed.

Lemma ProjectToSimplex_nearest_witness :
  ∃ Y, ProjectToSimplex [[1 # 2; 3]; [1 # 3; 0]; [1 # 4; 1]]%Q = Ok Y ∧
    (Qsum (column Y 0) == 1)%Q ∧
    (dist2 [1 # 2; 1 # 3; 1 # 4] (column Y 0)
     <= dist2 [1 # 2; 1 # 3; 1 # 4] [1; 0; 0])%Q.
Proof.
  destruct (ProjectToSimplex_nearest [[1 # 2; 3]; [1 # 3; 0]; [1 # 4; 1]]%Q)
    as (Y & HY & Hnear); [done|].
  exists Y. split; [done|].
  destruct (Hnear 0%nat ltac:(cbn; lia)) as (_ & _ & Hsum & Hmin).
  split; [done|].
  apply (Hmin [1; 0; 0]%Q); [reflexivity| |reflexivity].
  repeat constructor; by vm_compute.
Defined.

(** X13. A matrix whose columns lie on the simplex (no negative entry,
    sum 1) is returned by [ProjectToSimplex] as it is, entry by entry the
    same rational number. *)
Theorem ProjectToSimplex_fixes_simplex (X : matrix) :
  nrows X ≠ O → Forall (λ r : list Q, length r = ncols X) X →
  (∀ j, (j < ncols X)%nat →
     Forall (λ v, 0 <= v)%Q (column X j) ∧ (Qsum (column X j) == 1)%Q) →
  ∃ Y, ProjectToSimplex X = Ok Y ∧ Forall2 (Forall2 Qeq) Y X.
Proof.
  intros Hk Hrect Hs. unfold ProjectToSimplex. rewrite decide_False by done.
  eexists. split; [done|].
  pose proof (columns_columns (nrows X) (ncols X) X eq_refl Hrect) as HX.
  enough (Forall2 (Forall2 Qeq)
            (columns (nrows X) (project_column <$> columns (ncols X) X))
            (columns (nrows X) (columns (ncols X) X))) as H
    by (by rewrite HX in H).
  apply columns_Qeq, Forall2_fmap_l, Forall2_same_length_lookup_2; [done|].
  intros j c c' Hc Hc'. simplify_eq.
  assert (j < ncols X)%nat as Hj.
  { apply lookup_lt_Some in Hc. by rewrite columns_length in Hc. }
  rewrite columns_lookup in Hc by done. injection Hc as <-.
  destruct (Hs j Hj) as [H0 H1]. apply project_column_simplex; [|done..].
  intros Heq%(f_equal length). rewrite column_length in Heq. done.
Qed.

Lemma ProjectToSimplex_fixes_simplex_witness :
  ∃ Y, ProjectToSimplex [[1 # 2; 0]; [1 # 2; 1]]%Q = Ok Y ∧
    Forall2 (Forall2 Qeq) Y [[1 # 2; 0]; [1 # 2; 1]]%Q.
Proof.
  apply (ProjectToSimplex_fixes_simplex [[1 # 2; 0]; [1 # 2; 1]]%Q).
  - done.
  - by repeat constructor.
  - intros j Hj. cbn in Hj.
    assert (j = 0 ∨ j = 1)%nat as [-> | ->] by lia;
      (split; [repeat constructor; by vm_compute|by vm_compute]).
Defined.
(** ** [label_proportions] *)





(** ** [plaplace_solve] *)

Lemma bind_not_Ok {A B} (m : result A) (k : A → result B) :
  (∀ a, m = Ok a → ∀ b, k a ≠ Ok b) → ∀ b, m ≫= k ≠ Ok b.
Proof. intros H b. destruct m as [a| |]; [by apply H|done..]. Qed.

(** The loop never stops by itself in the [SemiImplicit] branch, which
    leaves [err] as it is, and stops with [sys.exit()] for a method that
    is not known. *)
Lemma plaplace_loop_no_result
    (cg : matrix → list Q → option (list Q) → Q → matrix → list Q)
    (sol : sol_method) (L W : matrix) (WIJV : list Z * list Z * list Q)
    (dx : list Q) (alpha delta beta gamma dt : Q) (I : list Z) (g : list Q)
    (fuel : nat) :
  sol = SemiImplicit ∨ sol = OtherMethod →
  ∀ st st', (1 # 10 < pl_err st)%Q →
    plaplace_loop cg fuel sol L W WIJV dx alpha delta beta gamma dt I g st
    ≠ Ok st'.
Proof.
  intros Hsol. induction fuel as [|fuel IH]; intros st st' Herr;
    cbn [plaplace_loop]; rewrite (proj2 (Qltb_lt _ _) Herr); [done|].
  apply bind_not_Ok. intros LIu _. apply bind_not_Ok. intros res _.
  destruct Hsol as [-> | ->].
  - apply bind_not_Ok. intros st1 Hst1. apply bind_Ok in Hst1 as (u & _ & Hst1).
    injection Hst1 as <-. intros b. by apply IH.
  - done.
Qed.

(** X15. [plaplace_solve] with the method [SemiImplicit], the default of
    the function, returns no result however long its loop runs: the loop
    runs while [err > 1e-1], and [err] keeps its first value 1e6 in that
    branch.  With a method that is not known it returns no result
    either. *)
Theorem plaplace_solve_semi_implicit_no_result
    (cg : matrix → list Q → option (list Q) → Q → matrix → list Q)
    (cgp : option cgraphpy) (fuel : nat) (W : matrix) (I : list Z) (g : list Q)
    (p : option Q) (u : list Q) :
  plaplace_solve cg cgp fuel W I g p SemiImplicit ≠ Ok u ∧
  plaplace_solve cg cgp fuel W I g p OtherMethod ≠ Ok u.
Proof.
  split; unfold plaplace_solve.
  all: destruct (decide (nrows W = O)); [done|].
  all: apply bind_not_Ok; intros L _.
  all: apply bind_not_Ok; intros u0 _.
  all: destruct (decide (g = [])); [done|].
  all: apply bind_not_Ok; intros u1 _; apply bind_not_Ok; intros uu _.
  all: apply bind_not_Ok; intros ul _.
  all: apply bind_not_Ok; intros st Hst.
  all: exfalso; revert Hst; apply plaplace_loop_no_result;
    [by (left + right)|by vm_compute].
Qed.
(** ** Degrees and the graph Laplacian *)

Lemma square_row (n : nat) (W : matrix) (i : nat) :
  square n W → (i < n)%nat → ∃ r, W !! i = Some r ∧ length r = n.
Proof.
  intros [Hn Hr] Hi. destruct (lookup_lt_is_Some_2 W i) as [r Hri]; [lia|].
  exists r. split; [done|]. by apply (proj1 (Forall_lookup _ _) Hr i).
Qed.

Lemma entry_outside (n : nat) (W : matrix) (i j : nat) :
  square n W → (n ≤ i)%nat ∨ (n ≤ j)%nat → entry W i j = 0%Q.
Proof.
  intros [Hn Hr] Hij. unfold entry. destruct (W !! i) as [r|] eqn:E; [|done].
  cbn. pose proof (proj1 (Forall_lookup _ _) Hr i r E) as Hl. cbn beta in Hl.
  apply lookup_lt_Some in E. rewrite lookup_ge_None_2; [done|lia].
Qed.

Lemma diag_lookup (x : list Q) (i : nat) (xi : Q) :
  x !! i = Some xi →
  diag x !! i
  = Some ((λ j, if decide (j = i) then xi else 0%Q) <$> seq 0 (length x)).
Proof. intros H. unfold diag. by rewrite list_lookup_imap, H. Qed.

Lemma diag_length (x : list Q) : length (diag x) = length x.
Proof. unfold diag. by rewrite length_imap. Qed.

Lemma diag_square (x : list Q) : square (length x) (diag x).
Proof.
  split; [apply diag_length|]. apply Forall_lookup. intros i r Hr.
  unfold diag in Hr. rewrite list_lookup_imap in Hr.
  destruct (x !! i); simplify_eq/=. by rewrite length_fmap, length_seq.
Qed.

Lemma entry_diag (x : list Q) (i j : nat) :
  entry (diag x) i j = if decide (j = i) then default 0%Q (x !! i) else 0%Q.
Proof.
  unfold entry. destruct (x !! i) as [xi|] eqn:E.
  - rewrite (diag_lookup x i xi E). cbn. rewrite list_lookup_fmap.
    destruct (decide (j < length x)%nat) as [Hj|Hj].
    + by rewrite lookup_seq_lt.
    + rewrite lookup_seq_ge by lia. cbn. rewrite decide_False; [done|].
      intros ->. apply lookup_lt_Some in E. lia.
  - rewrite lookup_ge_None_2.
    + cbn. by destruct (decide (j = i)).
    + rewrite diag_length. by apply lookup_ge_None.
Qed.





Lemma mat_sub_lookup (A B : matrix) (i : nat) (ra rb : list Q) :
  A !! i = Some ra → B !! i = Some rb →
  mat_sub A B !! i = Some (vec_sub ra rb).
Proof. intros Ha Hb. unfold mat_sub. by rewrite lookup_zip_with, Ha, Hb. Qed.

Lemma degrees_lookup (W : matrix) (i : nat) (r : list Q) :
  W !! i = Some r → degrees W !! i = Some (Qsum r).
Proof. intros H. unfold degrees. by rewrite list_lookup_fmap, H. Qed.

(** The rows of the graph Laplacian. *)
Lemma laplacian_lookup (n : nat) (W : matrix) (i : nat) (r : list Q) :
  square n W → W !! i = Some r →
  laplacian W !! i
  = Some (vec_sub ((λ j, if decide (j = i) then Qsum r else 0%Q) <$> seq 0 n) r).
Proof.
  intros [Hn Hr] Hi. unfold laplacian, degree_diag.
  apply mat_sub_lookup; [|done].
  rewrite (diag_lookup _ i (Qsum r)) by (by apply degrees_lookup).
  unfold degrees. by rewrite length_fmap, Hn.
Qed.




Lemma entry_square (n : nat) (W : matrix) (i j : nat) :
  square n W → (i < n)%nat → (j < n)%nat →
  ∃ r, W !! i = Some r ∧ length r = n ∧ r !! j = Some (entry W i j).
Proof.
  intros Hsq Hi Hj. destruct (square_row n W i Hsq Hi) as (r & Hr & Hl).
  exists r. split; [done|]. split; [done|]. rewrite (entry_row W i j r Hr).
  destruct (lookup_lt_is_Some_2 r j) as [x ->]; [lia|done].
Qed.

Lemma laplacian_square (n : nat) (W : matrix) :
  square n W → square n (laplacian W).
Proof.
  intros Hsq. pose proof Hsq as [Hn Hr]. split.
  - unfold laplacian, mat_sub, degree_diag.
    rewrite length_zip_with, diag_length. unfold degrees.
    rewrite length_fmap. lia.
  - apply Forall_lookup. intros i row Hrow.
    assert (i < n)%nat as Hi.
    { apply lookup_lt_Some in Hrow. unfold laplacian, mat_sub in Hrow.
      rewrite length_zip_with in Hrow. lia. }
    destruct (square_row n W i Hsq Hi) as (r & Hri & Hrl).
    rewrite (laplacian_lookup n W i r Hsq Hri) in Hrow. injection Hrow as <-.
    unfold vec_sub. rewrite length_zip_with, length_fmap, length_seq. lia.
Qed.

(** The entries of the graph Laplacian: the degree on the diagonal, minus
    the weight everywhere. *)
Lemma laplacian_entry (n : nat) (W : matrix) (i j : nat) :
  square n W → (i < n)%nat → (j < n)%nat →
  entry (laplacian W) i j
  = ((if decide (j = i) then default 0 (degrees W !! i) else 0) - entry W i j)%Q.
Proof.
  intros Hsq Hi Hj. destruct (entry_square n W i j Hsq Hi Hj) as (r & Hr & Hl & Hrj).
  rewrite (entry_row _ i j _ (laplacian_lookup n W i r Hsq Hr)).
  unfold vec_sub. rewrite lookup_zip_with, list_lookup_fmap, lookup_seq_lt by done.
  cbn. rewrite Hrj. cbn. by rewrite (degrees_lookup W i r Hr).
Qed.

Lemma laplacian_symmetric (n : nat) (W : matrix) :
  square n W → symmetric W → symmetric (laplacian W).
Proof.
  intros Hsq Hsym i j.
  destruct (decide (i < n)%nat) as [Hi|Hi]; cycle 1.
  { rewrite !(entry_outside n) by (by apply laplacian_square || lia).
    reflexivity. }
  destruct (decide (j < n)%nat) as [Hj|Hj]; cycle 1.
  { rewrite !(entry_outside n) by (by apply laplacian_square || lia).
    reflexivity. }
  rewrite !(laplacian_entry n) by done. rewrite (Hsym i j).
  destruct (decide (j = i)) as [->|Hne].
  - rewrite decide_True by done. reflexivity.
  - rewrite decide_False by congruence. reflexivity.
Qed.

(** X17. For a symmetric square weight matrix of a graph with more than
    one vertex, the matrix that [graph_laplacian] returns is symmetric. *)
Theorem graph_laplacian_symmetric (n : nat) (W : matrix) :
  square n W → (1 < n)%nat → symmetric W →
  ∃ L, graph_laplacian W = Ok L ∧ square n L ∧ symmetric L.
Proof.
  intros Hsq Hn Hsym. exists (laplacian W). split.
  - apply graph_laplacian_returns. destruct Hsq as [Hl _]. unfold nrows. lia.
  - split; [by apply laplacian_square|by apply (laplacian_symmetric n)].
Qed.

Lemma path3_symmetric : symmetric path3.
Proof.
  intros i j. destruct i as [|[|[|i]]], j as [|[|[|j]]]; try reflexivity.
  all: unfold entry; cbn; try reflexivity.
  all: by rewrite ?lookup_nil.
Qed.

Lemma graph_laplacian_symmetric_witness :
  ∃ L, graph_laplacian path3 = Ok L ∧ square 3 L ∧ symmetric L.
Proof.
  apply (graph_laplacian_symmetric 3 path3).
  - split; [reflexivity|]. by repeat constructor.
  - lia.
  - apply path3_symmetric.
Defined.


(** ** The shift tricks *)

Lemma Qsum_shift (c : Q) (u : list Q) :
  (Qsum ((λ x, x - c) <$> u) == Qsum u - QofN (length u) * c)%Q.
Proof.
  induction u as [|x u IH]; [change (0 == 0 - 0 * c)%Q; ring|].
  rewrite fmap_cons, !Qsum_cons, IH. cbn [length]. rewrite QofN_S. ring.
Qed.

Lemma Qsum_centered (u : list Q) : (Qsum ((λ x, x - np_mean u) <$> u) == 0)%Q.
Proof.
  rewrite Qsum_shift. unfold np_mean. destruct u as [|x u].
  { change (0 - 0 * (0 / 0) == 0)%Q. reflexivity. }
  pose proof (QofN_pos (length (x :: u)) ltac:(cbn; lia)). field. lra.
Qed.

(** X19. The vector that [meanshift_solve] returns sums to zero (in exact
    arithmetic), whatever the conjugate gradient solver returns. *)
Theorem meanshift_solve_centered
    (cg : matrix → list Q → option (list Q) → Q → matrix → list Q)
    (W : matrix) (I : list Z) (g u : list Q) :
  meanshift_solve cg W I g = Ok u → (Qsum u == 0)%Q.
Proof.
  unfold meanshift_solve. intros H. inv_bind H. injection H as <-.
  apply Qsum_centered.
Qed.

Lemma meanshift_solve_centered_witness :
  ∃ u, meanshift_solve zero_solver path3 [0; 2] [1; -1]%Q = Ok u ∧ (Qsum u == 0)%Q.
Proof.
  destruct (meanshift_solve zero_solver path3 [0; 2] [1; -1]%Q) as [u| |] eqn:E;
    [|by vm_compute in E..].
  exists u. split; [done|].
  exact (meanshift_solve_centered zero_solver path3 [0; 2] [1; -1]%Q u E).
Defined.


(** ** [constrained_solve] solves the constrained system *)

Lemma dot_cons (a b : Q) (x y : list Q) :
  dot (a :: x) (b :: y) = (a * b + dot x y)%Q.
Proof. done. Qed.

Lemma np_mask_length {A} (a : list A) : ∀ idx,
  length a = length idx → length (np_mask a idx) = count_true idx.
Proof.
  induction a as [|x a IH]; intros [|b idx] Hl; try discriminate Hl; [done|].
  injection Hl as Hl. cbn [np_mask]. unfold count_true.
  destruct b; cbn; rewrite ?decide_True, ?decide_False by done; cbn;
    by rewrite IH.
Qed.

Lemma np_mask_fmap {A B} (h : A → B) (a : list A) : ∀ idx,
  np_mask (h <$> a) idx = h <$> np_mask a idx.
Proof.
  induction a as [|x a IH]; intros [|b idx]; [done..|].
  cbn. destruct b; cbn; by rewrite IH.
Qed.

Lemma np_mask_zip_with {A B C} (h : A → B → C) (a : list A) : ∀ (c : list B) idx,
  np_mask (zip_with h a c) idx = zip_with h (np_mask a idx) (np_mask c idx).
Proof.
  induction a as [|x a IH]; intros c idx; [done|].
  destruct c as [|y c].
  { cbn [zip_with]. by destruct (np_mask (x :: a) idx). }
  destruct idx as [|b idx]; [done|].
  cbn. destruct b; cbn; by rewrite IH.
Qed.

(** A relation that holds along the selected entries holds at every
    selected place. *)
Lemma np_mask_Forall2 {A B} (R : A → B → Prop) (a : list A) :
  ∀ (c : list B) idx i x y,
  length a = length idx → length c = length idx →
  Forall2 R (np_mask a idx) (np_mask c idx) →
  idx !! i = Some true → a !! i = Some x → c !! i = Some y → R x y.
Proof.
  induction a as [|x0 a IH]; intros [|y0 c] [|b idx] i x y Ha Hc HR Hi Hx Hy;
    try done.
  injection Ha as Ha. injection Hc as Hc. destruct i as [|i]; simplify_eq/=.
  - by apply Forall2_cons in HR as [? _].
  - destruct b; [apply Forall2_cons in HR as [_ HR]|]; by eapply IH.
Qed.

Lemma np_mask_insert_false {A} (u : list A) : ∀ idx i x,
  idx !! i = Some false → np_mask (<[i := x]> u) idx = np_mask u idx.
Proof.
  induction u as [|y u IH]; intros [|b idx] [|i] x Hi; simplify_eq/=; try done.
  destruct b; by rewrite IH.
Qed.

Lemma np_mask_put_false {A} (I : list Z) : ∀ (u u' g : list A) idx,
  Forall (λ i, 0 ≤ i < Z.of_nat (length u)) I →
  (∀ i, i ∈ I → idx !! Z.to_nat i = Some false) →
  np_put u I g = Ok u' → np_mask u' idx = np_mask u idx.
Proof.
  induction I as [|i I IH]; intros u u' [|x g] idx Hr Hf H; simplify_eq/=;
    [done|].
  apply Forall_cons in Hr as [Hi Hr]. rewrite np_set_nonneg in H by done.
  cbn in H. rewrite (IH _ _ _ idx) with (3 := H).
  - apply np_mask_insert_false, Hf. by left.
  - by rewrite length_insert.
  - intros j Hj. apply Hf. by right.
Qed.

Lemma np_mask_fill {A} (a : list A) : ∀ idx v,
  length a = length idx → length v = count_true idx →
  np_mask (mask_fill a idx v) idx = v.
Proof.
  induction a as [|x a IH]; intros [|b idx] v Ha Hv; try discriminate Ha.
  { by destruct v. }
  injection Ha as Ha. unfold count_true in Hv. destruct b.
  - rewrite filter_cons_True in Hv by done. destruct v as [|y v]; [done|].
    injection Hv as Hv. cbn. by rewrite IH.
  - rewrite filter_cons_False in Hv by done. cbn. by rewrite IH.
Qed.

Lemma dot_split (r : list Q) : ∀ u idx,
  length u = length r → length idx = length r →
  (dot r u == dot (np_mask r idx) (np_mask u idx) + off_mask r u idx)%Q.
Proof.
  unfold off_mask.
  induction r as [|a r IH]; intros [|x u] [|b idx] Hu Hi;
    try discriminate Hu; try discriminate Hi.
  { change (0 == 0 + 0)%Q. ring. }
  injection Hu as Hu. injection Hi as Hi. specialize (IH u idx Hu Hi).
  destruct b; cbn [np_mask fmap list_fmap negb]; rewrite !dot_cons, IH; ring.
Qed.

Lemma off_mask_insert (r : list Q) : ∀ u idx i a x,
  length u = length r → length idx = length r →
  idx !! i = Some true → r !! i = Some a →
  (off_mask r (<[i := x]> u) (<[i := false]> idx)
   == off_mask r u idx + a * x)%Q.
Proof.
  unfold off_mask.
  induction r as [|a0 r IH]; intros [|y u] [|b idx] i a x Hu Hi Hb Ha;
    try discriminate Hu; try discriminate Hi; [done|].
  injection Hu as Hu. injection Hi as Hi. destruct i as [|i]; simplify_eq/=.
  - rewrite dot_cons. ring.
  - specialize (IH u idx i a x Hu Hi Hb Ha).
    destruct b; cbn [negb]; rewrite ?dot_cons, IH; ring.
Qed.

Lemma off_mask_put (r : list Q) (I : list Z) : ∀ (u u' g : list Q) idx idx',
  NoDup I → Forall (λ i, 0 ≤ i < Z.of_nat (length r)) I →
  length u = length r → length idx = length r →
  (∀ i, i ∈ I → idx !! Z.to_nat i = Some true) →
  np_put idx I (replicate (length I) false) = Ok idx' →
  np_put u I g = Ok u' →
  (off_mask r u' idx'
   == off_mask r u idx + dot ((λ i, default 0 (r !! Z.to_nat i)) <$> I) g)%Q.
Proof.
  induction I as [|i I IH]; intros u u' [|x g] idx idx' Hnd Hr Hu Hi Ht Hidx Hput;
    simplify_eq/=.
  { change (dot [] []) with 0%Q. ring. }
  apply NoDup_cons in Hnd as [Hni Hnd]. apply Forall_cons in Hr as [Hir Hr].
  rewrite np_set_nonneg in Hidx by lia. rewrite np_set_nonneg in Hput by lia.
  cbn in Hidx, Hput.
  destruct (lookup_lt_is_Some_2 r (Z.to_nat i)) as [a Ha]; [lia|].
  rewrite (IH _ _ _ _ _ Hnd Hr) with (4 := Hidx) (5 := Hput).
  - rewrite (off_mask_insert r u idx _ a x Hu Hi (Ht i ltac:(by left)) Ha).
    rewrite dot_cons, Ha. cbn. ring.
  - by rewrite length_insert.
  - by rewrite length_insert.
  - intros j Hj. rewrite list_lookup_insert_ne.
    + apply Ht. by right.
    + intros Heq. pose proof (proj1 (Forall_forall _ _) Hr j Hj) as Hjr.
      cbn beta in Hjr. assert (i = j) as -> by lia. done.
Qed.

Lemma np_mask_none {A} (n : nat) : ∀ (a : list A),
  np_mask a (negb <$> replicate n true) = [].
Proof. induction n as [|n IH]; intros [|x a]; try done. cbn. apply IH. Qed.

Lemma off_mask_all (r u : list Q) (n : nat) :
  off_mask r u (replicate n true) = 0%Q.
Proof. unfold off_mask. by rewrite !np_mask_none. Qed.

Lemma unlabeled_put (n : nat) (I : list Z) :
  NoDup I → Forall (λ i, 0 ≤ i < Z.of_nat n) I →
  np_put (replicate n true) I (replicate (length I) false) = Ok (unlabeled n I).
Proof.
  intros Hnd Hr.
  destruct (np_put_Ok I (replicate n true) (replicate (length I) false))
    as [idx Hidx]; [by rewrite length_replicate|by rewrite length_replicate|].
  rewrite Hidx. f_equal. pose proof (np_put_length _ _ _ _ Hidx) as Hlen.
  rewrite length_replicate in Hlen.
  apply list_eq_same_length with n;
    [by unfold unlabeled; rewrite length_fmap, length_seq|done|].
  intros i x y Hi Hx Hy. unfold unlabeled in Hy.
  rewrite list_lookup_fmap, lookup_seq_lt in Hy by done. cbn in Hy.
  injection Hy as <-. destruct (decide (Z.of_nat i ∈ I)) as [Hin|Hnin].
  - rewrite bool_decide_eq_false_2 by (by intros ?).
    apply list_elem_of_lookup in Hin as [j Hj].
    pose proof (np_put_lookup I (replicate n true) idx
                  (replicate (length I) false) j (Z.of_nat i) false Hnd) as H.
    rewrite Nat2Z.id in H. rewrite H in Hx; [congruence| |done|done|].
    + by rewrite length_replicate.
    + apply lookup_replicate_2. by eapply lookup_lt_Some.
  - rewrite bool_decide_eq_true_2 by done.
    pose proof (np_put_lookup_notin I (replicate n true) idx
                  (replicate (length I) false) (Z.of_nat i)) as H.
    rewrite Nat2Z.id in H. rewrite H in Hx;
      [|by rewrite length_replicate|done|lia|done].
    rewrite lookup_replicate_2 in Hx by done. congruence.
Qed.

Lemma unlabeled_length (n : nat) (I : list Z) : length (unlabeled n I) = n.
Proof. unfold unlabeled. by rewrite length_fmap, length_seq. Qed.

Lemma unlabeled_lookup (n : nat) (I : list Z) (i : nat) :
  (i < n)%nat → unlabeled n I !! i = Some (bool_decide (Z.of_nat i ∉ I)).
Proof.
  intros Hi. unfold unlabeled. by rewrite list_lookup_fmap, lookup_seq_lt.
Qed.

Lemma np_take_picks (r : list Q) (I : list Z) :
  Forall (λ i, 0 ≤ i < Z.of_nat (length r)) I →
  np_take r I = Ok ((λ i, default 0%Q (r !! Z.to_nat i)) <$> I).
Proof.
  induction 1 as [|i I Hi _ IH]; [done|]. cbn [np_take].
  rewrite (np_get_at_index 0%Q r i) by done. cbn [mbind result_bind].
  rewrite IH. done.
Qed.

Lemma select_columns_at (n : nat) (L : matrix) (I : list Z) :
  Forall (λ r : list Q, length r = n) L → Forall (λ i, 0 ≤ i < Z.of_nat n) I →
  select_columns L I = Ok (columns_at L I).
Proof.
  intros HL HI. induction HL as [|r L Hr _ IH]; [done|]. cbn [select_columns].
  rewrite np_take_picks by (by rewrite Hr). cbn [mbind result_bind].
  rewrite IH. done.
Qed.

Lemma dot_scale (a : Q) (x : list Q) : ∀ y,
  (dot (vec_scale a x) y == a * dot x y)%Q.
Proof.
  induction x as [|x0 x IH]; intros [|y0 y]; try (change (0 == a * 0)%Q; ring).
  cbn [vec_scale fmap list_fmap]. rewrite !dot_cons.
  change (list_fmap Q Q (Qmult a) x) with (vec_scale a x). rewrite IH. ring.
Qed.

Lemma constrained_solve_system
    (cg : matrix → list Q → option (list Q) → Q → matrix → list Q)
    (n : nat) (L : matrix) (I : list Z) (g : list Q) (f x0 : option (list Q))
    (tol : Q) :
  square n L → NoDup I → Forall (λ i, 0 ≤ i < Z.of_nat n) I →
  length g = length I → (∀ f', f = Some f' → length f' = n) →
  let idx := unlabeled n I in
  let A := reduced_matrix L idx in
  let b := reduced_rhs L I g f idx in
  let v := cg A b ((λ x : list Q, np_mask x idx) <$> x0) tol (jacobi A) in
  length v = length b → Forall2 Qeq (mat_vec A v) b →
  ∃ u, constrained_solve cg L I g f x0 tol = Ok u ∧
    (∀ j i x, I !! j = Some i → g !! j = Some x → u !! Z.to_nat i = Some x) ∧
    ∀ i row, L !! i = Some row → Z.of_nat i ∉ I →
      (dot row u
       == match f with Some f' => default 0 (f' !! i) | None => 0 end)%Q.
Proof.
  intros [Hn HL] Hnd Hr Hg Hf idx A b v Hv Hsol.
  assert (length idx = n) as Hil by apply unlabeled_length.
  assert (constrained_solve cg L I g f x0 tol
          = (u ← np_mask_put (replicate n 1%Q) idx v; np_put u I g)) as Heq.
  { unfold constrained_solve, nrows. rewrite Hn, unlabeled_put by done.
    cbn [mbind result_bind]. rewrite (select_columns_at n) by done.
    cbn [mbind result_bind]. rewrite decide_True by done.
    cbn [mbind result_bind]. reflexivity. }
  set (b0 := mat_vec (mat_scale (-1) (columns_at L I)) g).
  set (c := match f with Some f' => vec_add b0 f' | None => b0 end).
  assert (length b0 = n) as Hb0.
  { unfold b0, mat_vec, mat_scale, columns_at. by rewrite !length_fmap. }
  assert (length c = n) as Hc.
  { unfold c. destruct f as [f'|]; [|done]. unfold vec_add.
    rewrite length_zip_with, Hb0, (Hf f' eq_refl). lia. }
  assert (b = np_mask c idx) as Hb.
  { unfold b, reduced_rhs, c. fold b0. destruct f as [f'|]; [|done].
    unfold vec_add. by rewrite np_mask_zip_with. }
  assert (length b = count_true idx) as Hbl.
  { rewrite Hb. apply np_mask_length. by rewrite Hil. }
  rewrite Heq. unfold np_mask_put. rewrite decide_True by congruence.
  cbn [mbind result_bind]. set (u0 := mask_fill (replicate n 1%Q) idx v).
  assert (length u0 = n) as Hu0.
  { unfold u0. by rewrite mask_fill_length, length_replicate. }
  destruct (np_put_Ok I u0 g) as [u Hu]; [by rewrite Hu0|done|].
  pose proof (np_put_length _ _ _ _ Hu) as Hul. rewrite Hu0 in Hul.
  exists u. split; [done|]. split.
  { intros j i x Hj Hx. eapply np_put_lookup with (3 := Hu); eauto.
    by rewrite Hu0. }
  intros i row Hrow Hi.
  assert (i < n)%nat as Hin by (apply lookup_lt_Some in Hrow; lia).
  pose proof (proj1 (Forall_lookup _ _) HL i row Hrow) as Hrl. cbn beta in Hrl.
  assert (idx !! i = Some true) as Hidx.
  { unfold idx. rewrite unlabeled_lookup by done.
    by rewrite bool_decide_eq_true_2. }
  assert (∀ t, t ∈ I → idx !! Z.to_nat t = Some false) as Hlab.
  { intros t Ht. pose proof (proj1 (Forall_forall _ _) Hr t Ht) as Htr.
    cbn beta in Htr. unfold idx. rewrite unlabeled_lookup by lia.
    rewrite bool_decide_eq_false_2; [done|]. rewrite Z2Nat.id by lia. by intros ?. }
  rewrite (dot_split row u idx) by lia.
  rewrite (np_mask_put_false I u0 u g idx) by (rewrite ?Hu0; done).
  unfold u0 at 1. rewrite np_mask_fill
    by (rewrite ?length_replicate; congruence).
  rewrite (off_mask_put row I u0 u g (replicate n true) idx); try done;
    try (rewrite ?length_replicate; lia); cycle 1.
  { by rewrite Hrl. }
  { intros t Ht. pose proof (proj1 (Forall_forall _ _) Hr t Ht) as Htr.
    cbn beta in Htr. apply lookup_replicate_2. lia. }
  { by apply unlabeled_put. }
  rewrite off_mask_all.
  assert (dot (np_mask row idx) v
          == - dot ((λ t, default 0 (row !! Z.to_nat t)) <$> I) g
             + match f with Some f' => default 0 (f' !! i) | None => 0 end)%Q
    as ->; [|ring].
  assert (mat_vec A v = np_mask ((λ r, dot (np_mask r idx) v) <$> L) idx) as HA.
  { unfold mat_vec, A, reduced_matrix.
    by rewrite <- list_fmap_compose, np_mask_fmap. }
  rewrite HA, Hb in Hsol.
  assert (∃ y, c !! i = Some y ∧
    (y == - dot ((λ t, default 0 (row !! Z.to_nat t)) <$> I) g
          + match f with Some f' => default 0 (f' !! i) | None => 0 end)%Q)
    as (y & Hy & Hyv).
  { assert (b0 !! i = Some (dot (vec_scale (-1)
              ((λ t, default 0%Q (row !! Z.to_nat t)) <$> I)) g)) as Hb0i.
    { unfold b0, mat_vec, mat_scale, columns_at.
      by rewrite !list_lookup_fmap, Hrow. }
    unfold c. destruct f as [f'|].
    - destruct (lookup_lt_is_Some_2 f' i) as [fi Hfi];
        [rewrite (Hf f' eq_refl); lia|].
      exists (dot (vec_scale (-1) ((λ t, default 0 (row !! Z.to_nat t)) <$> I)) g
              + fi)%Q.
      split.
      + unfold vec_add. by rewrite lookup_zip_with, Hb0i, Hfi.
      + rewrite Hfi, dot_scale. cbn. ring.
    - eexists. split; [exact Hb0i|]. rewrite dot_scale. ring. }
  rewrite <- Hyv.
  apply (np_mask_Forall2 Qeq ((λ r, dot (np_mask r idx) v) <$> L) c idx i);
    try done.
  - by rewrite length_fmap, Hil.
  - by rewrite Hil.
  - by rewrite list_lookup_fmap, Hrow.
Qed.

(** X21. [constrained_solve] solves the constrained system when the
    conjugate gradient solver solves the system it is given: if the vector
    [v] that [cg] returns for the matrix [L] restricted to the rows and
    columns without a label and the right hand side [-L[:,I] g (+ f)]
    restricted to these rows has the length of the right hand side and
    solves that system exactly, then the result [u] holds [g] at [I] and
    satisfies [(L u)[i] = f[i]] ([= 0] without [f]) at every vertex [i]
    without a label. *)
Theorem constrained_solve_solves
    (cg : matrix → list Q → option (list Q) → Q → matrix → list Q)
    (n : nat) (L : matrix) (I : list Z) (g : list Q) (f x0 : option (list Q))
    (tol : Q) :
  square n L → NoDup I → Forall (λ i, 0 ≤ i < Z.of_nat n) I →
  length g = length I → (∀ f', f = Some f' → length f' = n) →
  let idx := unlabeled n I in
  let A := reduced_matrix L idx in
  let b := reduced_rhs L I g f idx in
  let v := cg A b ((λ x : list Q, np_mask x idx) <$> x0) tol (jacobi A) in
  length v = length b → Forall2 Qeq (mat_vec A v) b →
  ∃ u, constrained_solve cg L I g f x0 tol = Ok u ∧
    (∀ j i x, I !! j = Some i → g !! j = Some x → u !! Z.to_nat i = Some x) ∧
    ∀ i row, L !! i = Some row → Z.of_nat i ∉ I →
      (dot row u
       == match f with Some f' => default 0 (f' !! i) | None => 0 end)%Q.
Proof. apply constrained_solve_system. Qed.

Lemma constrained_solve_solves_witness :
  ∃ u, constrained_solve zero_solver (laplacian path3) [0; 2] [1; -1]%Q
         None None eps10 = Ok u ∧
    (dot [-1; 2; -1] u == 0)%Q.
Proof.
  destruct (constrained_solve_solves zero_solver 3 (laplacian path3)
              [0; 2] [1; -1]%Q None None eps10) as (u & Hu & _ & Hrow).
  - split; [reflexivity|]. by repeat constructor.
  - by apply (bool_decide_unpack _).
  - by apply (bool_decide_unpack _).
  - reflexivity.
  - intros f' [=].
  - reflexivity.
  - by repeat constructor.
  - exists u. split; [done|].
    apply (Hrow 1%nat [-1; 2; -1]%Q); [by vm_compute|].
    intros Hin. by apply (bool_decide_pack _) in Hin.
Defined.

Lemma dot_vec_sub (a : list Q) : ∀ b u,
  length a = length b →
  (dot (vec_sub a b) u == dot a u - dot b u)%Q.
Proof.
  induction a as [|x a IH]; intros [|y b] [|z u] Hl; try discriminate Hl;
    try (change (0 == 0 - 0)%Q; ring).
  injection Hl as Hl. cbn [vec_sub zip_with]. rewrite !dot_cons.
  change (zip_with Qminus a b) with (vec_sub a b). rewrite IH by done. ring.
Qed.

Lemma dot_unit_after (x : Q) (i : nat) (m : nat) : ∀ b u,
  (i < b)%nat →
  (dot ((λ j, if decide (j = i) then x else 0%Q) <$> seq b m) u == 0)%Q.
Proof.
  induction m as [|m IH]; intros b [|z u] Hb; try reflexivity.
  rewrite <- cons_seq, fmap_cons, dot_cons, decide_False by lia.
  rewrite IH by lia. ring.
Qed.

Lemma dot_unit (x : Q) (i : nat) (m : nat) : ∀ a u,
  (a ≤ i)%nat → length u = m →
  (dot ((λ j, if decide (j = i) then x else 0%Q) <$> seq a m) u
   == x * default 0 (u !! (i - a)%nat))%Q.
Proof.
  induction m as [|m IH]; intros a [|z u] Ha Hu; try discriminate Hu.
  { rewrite lookup_nil. change (0 == x * 0)%Q. ring. }
  injection Hu as Hu. rewrite <- cons_seq, fmap_cons, dot_cons.
  destruct (decide (a = i)) as [->|Hne].
  - rewrite dot_unit_after by lia. rewrite Nat.sub_diag.
    change (default 0%Q ((z :: u) !! 0%nat)) with z. ring.
  - rewrite IH by (done || lia).
    replace (i - a)%nat with (S (i - S a)) by lia.
    change ((z :: u) !! S (i - S a)) with (u !! (i - S a)%nat). ring.
Qed.

(** Laplace learning on a graph with more than one vertex. *)
Lemma laplace_solve_mean_value
    (cg : matrix → list Q → option (list Q) → Q → matrix → list Q)
    (n : nat) (W : matrix) (I : list Z) (g : list Q) :
  square n W → (1 < n)%nat → NoDup I → Forall (λ i, 0 ≤ i < Z.of_nat n) I →
  length g = length I →
  let idx := unlabeled n I in
  let A := reduced_matrix (laplacian W) idx in
  let b := reduced_rhs (laplacian W) I g None idx in
  let v := cg A b None eps10 (jacobi A) in
  length v = length b → Forall2 Qeq (mat_vec A v) b →
  ∃ u, laplace_solve cg W I g = Ok u ∧ length u = n ∧
    (∀ j i x, I !! j = Some i → g !! j = Some x → u !! Z.to_nat i = Some x) ∧
    ∀ i row, W !! i = Some row → Z.of_nat i ∉ I →
      (Qsum row * default 0 (u !! i) == dot row u)%Q.
Proof.
  intros Hsq Hn1 Hnd Hr Hg idx A b v Hv Hsol.
  destruct (constrained_solve_system cg n (laplacian W) I g None None eps10
              (laplacian_square n W Hsq) Hnd Hr Hg ltac:(done) Hv Hsol)
    as (u & Hu & Hlab & Hrow).
  assert (length u = n) as Hul.
  { unfold constrained_solve in Hu. inv_bind Hu.
    apply np_put_length in Hu. unfold np_mask_put in E2.
    case_decide; simplify_eq.
    rewrite Hu, mask_fill_length, length_replicate.
    unfold nrows. destruct (laplacian_square n W Hsq) as [-> _]; done. }
  exists u. split.
  { unfold laplace_solve. rewrite graph_laplacian_returns.
    - exact Hu.
    - destruct Hsq as [Hl _]. unfold nrows. lia. }
  split; [done|]. split; [done|]. intros i row Hi Hni.
  pose proof (Hrow i _ (laplacian_lookup n W i row Hsq Hi) Hni) as H.
  destruct Hsq as [Hn HW].
  pose proof (proj1 (Forall_lookup _ _) HW i row Hi) as Hrl. cbn beta in Hrl.
  rewrite dot_vec_sub in H by (rewrite length_fmap, length_seq; lia).
  rewrite dot_unit in H by (done || lia). rewrite Nat.sub_0_r in H. lra.
Qed.

(** X22. Laplace learning is harmonic off the labels: on a graph with
    more than one vertex, when the conjugate gradient solver solves its
    system exactly, [laplace_solve] returns a vector [u] that holds [g] at
    [I] and has at every vertex [i] without a label the mean value
    property [d(i) u(i) = sum_j w(i,j) u(j)]. *)
Theorem laplace_solve_harmonic
    (cg : matrix → list Q → option (list Q) → Q → matrix → list Q)
    (n : nat) (W : matrix) (I : list Z) (g : list Q) :
  square n W → (1 < n)%nat → NoDup I → Forall (λ i, 0 ≤ i < Z.of_nat n) I →
  length g = length I →
  let idx := unlabeled n I in
  let A := reduced_matrix (laplacian W) idx in
  let b := reduced_rhs (laplacian W) I g None idx in
  let v := cg A b None eps10 (jacobi A) in
  length v = length b → Forall2 Qeq (mat_vec A v) b →
  ∃ u, laplace_solve cg W I g = Ok u ∧ length u = n ∧
    (∀ j i x, I !! j = Some i → g !! j = Some x → u !! Z.to_nat i = Some x) ∧
    ∀ i row, W !! i = Some row → Z.of_nat i ∉ I →
      (Qsum row * default 0 (u !! i) == dot row u)%Q.
Proof. apply laplace_solve_mean_value. Qed.

Lemma laplace_solve_harmonic_witness :
  ∃ u, laplace_solve zero_solver path3 [0; 2] [1; -1]%Q = Ok u ∧
    (Qsum [1; 0; 1] * default 0 (u !! 1%nat) == dot [1; 0; 1] u)%Q.
Proof.
  destruct (laplace_solve_harmonic zero_solver 3 path3 [0; 2] [1; -1]%Q)
    as (u & Hu & _ & _ & Hrow).
  - split; [reflexivity|]. by repeat constructor.
  - lia.
  - by apply (bool_decide_unpack _).
  - by apply (bool_decide_unpack _).
  - reflexivity.
  - reflexivity.
  - by repeat constructor.
  - exists u. split; [done|].
    apply (Hrow 1%nat [1; 0; 1]%Q); [by vm_compute|].
    intros Hin. by apply (bool_decide_pack _) in Hin.
Defined.
(** ** The infinity Laplacian of a constant *)

Lemma sparse_reduce_zero (n : nat) (vals : list Q) :
  Forall (λ x, x == 0)%Q vals →
  (sparse_reduce Qmin2 n vals == 0)%Q ∧ (sparse_reduce Qmax2 n vals == 0)%Q.
Proof.
  intros Hz. destruct (decide (vals = [])) as [->|Hne]; [done|].
  assert (∀ x, x ∈ (if decide (length vals < n)%nat then 0%Q :: vals else vals) →
            (x == 0)%Q) as Hall.
  { intros x Hx. destruct (decide (length vals < n)%nat).
    - apply elem_of_cons in Hx as [->|Hx]; [reflexivity|].
      by apply (proj1 (Forall_forall _ _) Hz).
    - by apply (proj1 (Forall_forall _ _) Hz). }
  destruct (sparse_reduce_min n vals Hne) as [Hmin _].
  destruct (sparse_reduce_max n vals Hne) as [Hmax _].
  split; by apply Hall.
Qed.

(** X23. The infinity Laplacian of a constant function is zero: for a
    square weight matrix with at least one vertex,
    [graph_infinity_laplacian] returns the zero vector at a constant
    [u]. *)
Theorem graph_infinity_laplacian_constant (W : matrix) (c : Q) :
  nrows W = ncols W → nrows W ≠ O →
  ∃ y, graph_infinity_laplacian W (replicate (nrows W) c) None = Ok y ∧
    length y = nrows W ∧ Forall (λ x, x == 0)%Q y.
Proof.
  intros Hsq Hn.
  rewrite graph_infinity_laplacian_rows by (done || by rewrite length_replicate).
  eexists. split; [done|]. split; [by rewrite length_fmap, length_seq|].
  apply Forall_fmap, Forall_forall. intros i Hi%elem_of_seq. cbn.
  destruct (sparse_reduce_zero (nrows W)
              (edge_terms W (replicate (nrows W) c) i)) as [H1 H2].
  { unfold edge_terms. apply Forall_fmap, Forall_forall.
    intros j [_ Hj%elem_of_seq]%list_elem_of_filter. cbn.
    unfold at_vertex. rewrite !lookup_replicate_2 by lia. cbn. ring. }
  rewrite H1, H2. reflexivity.
Qed.

Lemma graph_infinity_laplacian_constant_witness :
  ∃ y, graph_infinity_laplacian star3 (replicate 3 (7 # 2)%Q) None = Ok y ∧
    Forall (λ x, x == 0)%Q y.
Proof.
  destruct (graph_infinity_laplacian_constant star3 (7 # 2)%Q)
    as (y & Hy & _ & Hz); [reflexivity|done|].
  by exists y.
Defined.
(** ** The column starts that [nearestneighbor] computes *)

Lemma nonzero_diff_run_eq (k : nat) (x : Z) (r : list Z) : ∀ t,
  nonzero_diff t (replicate (S k) x ++ r) = nonzero_diff (t + Z.of_nat k) (x :: r).
Proof.
  induction k as [|k IH]; intros t; [by rewrite Z.add_0_r|].
  change (replicate (S (S k)) x ++ r) with (x :: x :: (replicate k x ++ r)).
  rewrite nonzero_diff_cons, decide_True by lia.
  change (x :: replicate k x ++ r) with (replicate (S k) x ++ r).
  rewrite IH. f_equal. lia.
Qed.

Lemma bounds_cons (t : Z) (c : nat) (cs : list nat) :
  bounds t (c :: cs) = t :: bounds (t + Z.of_nat c) cs.
Proof. done. Qed.

Lemma bounds_head (t : Z) (cs : list nat) : ∃ r, bounds t cs = t :: r.
Proof. destruct cs; by eexists. Qed.

(** The positions after which [WJ] changes, moved by one, and the length
    of [WJ] are the bounds of the blocks of equal column indices. *)
Lemma nonzero_diff_bounds (c : nat → nat) (m : nat) : ∀ (a : nat) (t : Z),
  (∀ j, (a ≤ j < a + S m)%nat → (1 ≤ c j)%nat) →
  t :: ((λ x, x + 1) <$>
          nonzero_diff t (j ← seq a (S m); replicate (c j) (Z.of_nat j)))
       ++ [t + Z.of_nat (length (j ← seq a (S m); replicate (c j) (Z.of_nat j)))]
  = bounds t (c <$> seq a (S m)).
Proof.
  induction m as [|m IH]; intros a t Hc.
  - cbn [seq]. rewrite bind_cons. cbn [mbind]. rewrite app_nil_r.
    destruct (c a) as [|k] eqn:Hk; [specialize (Hc a ltac:(lia)); lia|].
    rewrite <- (app_nil_r (replicate (S k) _)), nonzero_diff_run_eq.
    rewrite app_nil_r, length_replicate. cbn. by rewrite Hk.
  - rewrite <- cons_seq, bind_cons, fmap_cons, bounds_cons.
    specialize (IH (S a) (t + Z.of_nat (c a)) ltac:(intros; apply Hc; lia)).
    rewrite <- IH. clear IH.
    destruct (c a) as [|k] eqn:Hk; [specialize (Hc a ltac:(lia)); lia|].
    rewrite nonzero_diff_run_eq.
    set (rest := j ← seq (S a) (S m); replicate (c j) (Z.of_nat j)).
    assert (∃ r', rest = Z.of_nat (S a) :: r') as [r' Hrest].
    { unfold rest. rewrite <- cons_seq, bind_cons.
      destruct (c (S a)) as [|k'] eqn:Hk';
        [specialize (Hc (S a) ltac:(lia)); lia|].
      by eexists. }
    rewrite Hrest, nonzero_diff_cons, decide_False by lia. rewrite <- Hrest.
    rewrite length_app, length_replicate. cbn [fmap list_fmap app].
    f_equal. f_equal; [lia|]. f_equal.
    + f_equal. f_equal. lia.
    + f_equal. lia.
Qed.

Lemma bounds_lookup (cs : list nat) : ∀ t i lo c,
  bounds t cs !! i = Some lo → cs !! i = Some c →
  t ≤ lo ∧ bounds t cs !! S i = Some (lo + Z.of_nat c).
Proof.
  induction cs as [|c0 cs IH]; intros t i lo c Hlo Hc; [done|].
  rewrite bounds_cons in *. destruct i as [|i]; simplify_eq/=.
  - split; [lia|]. by destruct (bounds_head (lo + Z.of_nat c) cs) as [r ->].
  - destruct (IH _ _ _ _ Hlo Hc) as [Hle Hn]. split; [lia|done].
Qed.

Lemma bounds_length (cs : list nat) : ∀ t, length (bounds t cs) = S (length cs).
Proof.
  induction cs as [|c cs IH]; intros t; [done|].
  rewrite bounds_cons. cbn [length]. by rewrite IH.
Qed.

(** The slice between two consecutive bounds is the block. *)
Lemma blocks_slice {A} (R : nat → list A) (m : nat) : ∀ (a : nat) (t : Z) i lo,
  bounds t ((λ j, length (R j)) <$> seq a m) !! i = Some lo → (i < m)%nat →
  take (length (R (a + i)%nat)) (drop (Z.to_nat (lo - t)) (j ← seq a m; R j))
  = R (a + i)%nat.
Proof.
  induction m as [|m IH]; intros a t i lo Hlo Hi; [lia|].
  rewrite <- cons_seq, bind_cons. rewrite <- cons_seq, fmap_cons, bounds_cons in Hlo.
  destruct i as [|i].
  - injection Hlo as <-. rewrite Z.sub_diag, Nat.add_0_r.
    change (Z.to_nat 0) with 0%nat. rewrite drop_0.
    by rewrite take_app_length.
  - change ((t :: bounds (t + Z.of_nat (length (R a)))
                    ((λ j, length (R j)) <$> seq (S a) m)) !! S i)
      with (bounds (t + Z.of_nat (length (R a)))
                    ((λ j, length (R j)) <$> seq (S a) m) !! i) in Hlo.
    assert (t + Z.of_nat (length (R a)) ≤ lo) as Hle.
    { destruct (bounds_head (t + Z.of_nat (length (R a)))
                  ((λ j, length (R j)) <$> seq (S a) m)) as [r Hr].
      destruct i as [|i].
      - rewrite Hr in Hlo. cbn in Hlo. injection Hlo as <-. lia.
      - destruct (lookup_lt_is_Some_2 ((λ j, length (R j)) <$> seq (S a) m) i)
          as [c Hc].
        { apply lookup_lt_Some in Hlo. rewrite bounds_length in Hlo. lia. }
        destruct (lookup_lt_is_Some_2
                    (bounds (t + Z.of_nat (length (R a)))
                       ((λ j, length (R j)) <$> seq (S a) m)) i) as [lo' Hlo'].
        { apply lookup_lt_Some in Hlo. lia. }
        destruct (bounds_lookup _ _ _ _ _ Hlo' Hc) as [Hle Hn].
        rewrite Hn in Hlo. injection Hlo as <-. lia. }
    rewrite drop_app_ge by lia.
    replace (Z.to_nat (lo - t) - length (R a))%nat
      with (Z.to_nat (lo - (t + Z.of_nat (length (R a))))) by lia.
    replace (a + S i)%nat with (S a + i)%nat by lia.
    apply (IH (S a)); [done|lia].
Qed.

Lemma col_block_rows (W : matrix) (j : nat) :
  (col_block W j).*1.*1 = column_rows W j.
Proof.
  unfold col_block, column_rows. induction (seq 0 (nrows W)) as [|i l IH]; [done|].
  rewrite bind_cons, !fmap_app, IH, filter_cons. unfold find_cell.
  destruct (Qnonzero (entry W i j)) eqn:E.
  - by rewrite decide_True.
  - rewrite decide_False by congruence. done.
Qed.

Lemma sparse_find_row_blocks (W : matrix) :
  (sparse_find W).1.1 = j ← seq 0 (ncols W); column_rows W j.
Proof.
  unfold sparse_find. cbn. unfold find_triplets. fold (col_block W).
  induction (seq 0 (ncols W)) as [|j l IH]; [done|].
  by rewrite !bind_cons, !fmap_app, IH, col_block_rows.
Qed.

Lemma column_rows_length (W : matrix) (j : nat) :
  length (column_rows W j) = length (col_block W j).
Proof. by rewrite <- col_block_rows, !length_fmap. Qed.

(** X24. The column starts of [nearestneighbor]: for a square weight
    matrix in which every column stores an entry, the array [K] has [n+1]
    entries and the slice [WI[K[i]:K[i+1]]] that the Dijkstra loop walks
    at vertex [i] holds exactly the rows of the stored entries of column
    [i], in increasing order. *)
Theorem column_starts_neighbors (W : matrix) :
  ncols W = nrows W → no_empty_column W = true → nrows W ≠ O →
  length (column_starts (sparse_find W).1.2) = S (nrows W) ∧
  ∀ i, (i < nrows W)%nat →
    ∃ lo hi, np_get (column_starts (sparse_find W).1.2) (Z.of_nat i) = Ok lo ∧
      np_get (column_starts (sparse_find W).1.2) (Z.of_nat i + 1) = Ok hi ∧
      np_slice (sparse_find W).1.1 lo hi = column_rows W i.
Proof.
  intros Hsq Hne Hn.
  set (c := λ j, length (column_rows W j)).
  assert (∀ j, (j < ncols W)%nat → (1 ≤ c j)%nat) as Hc.
  { intros j Hj. unfold c. rewrite column_rows_length. apply col_block_nonempty.
    unfold no_empty_column in Hne. rewrite forallb_forall in Hne.
    apply Hne, list_elem_of_In, elem_of_seq. lia. }
  assert ((sparse_find W).1.2
          = j ← seq 0 (ncols W); replicate (c j) (Z.of_nat j)) as HWJ.
  { rewrite sparse_find_columns by done. unfold c.
    induction (seq 0 (ncols W)) as [|j l IH]; [done|].
    by rewrite !bind_cons, IH, column_rows_length. }
  assert (column_starts (sparse_find W).1.2 = bounds 0 (c <$> seq 0 (ncols W)))
    as HK.
  { unfold column_starts. rewrite HWJ.
    destruct (ncols W) as [|m] eqn:Hm; [lia|].
    apply (nonzero_diff_bounds c m 0 0). intros j Hj. apply Hc. lia. }
  rewrite HK. split.
  { by rewrite bounds_length, length_fmap, length_seq, Hsq. }
  intros i Hi.
  set (K := bounds 0 (c <$> seq 0 (ncols W))).
  assert (length K = S (ncols W)) as HKl
    by (unfold K; by rewrite bounds_length, length_fmap, length_seq).
  destruct (lookup_lt_is_Some_2 K i) as [lo Hlo]; [lia|].
  assert ((c <$> seq 0 (ncols W)) !! i = Some (c i)) as Hci.
  { rewrite list_lookup_fmap, lookup_seq_lt by lia. done. }
  destruct (bounds_lookup _ _ _ _ _ Hlo Hci) as [Hlo0 Hhi].
  exists lo, (lo + Z.of_nat (c i)). split; [|split].
  - rewrite (np_get_nonneg K (Z.of_nat i) lo); [done|lia|by rewrite Nat2Z.id].
  - rewrite (np_get_nonneg K (Z.of_nat i + 1) (lo + Z.of_nat (c i)));
      [done|lia|]. by replace (Z.to_nat (Z.of_nat i + 1)) with (S i) by lia.
  - rewrite sparse_find_row_blocks.
    pose proof (blocks_slice (column_rows W) (ncols W) 0 0 i lo Hlo ltac:(lia))
      as Hs.
    rewrite Z.sub_0_r in Hs. cbn [Nat.add] in Hs.
    set (WI := j ← seq 0 (ncols W); column_rows W j) in *.
    assert (Z.to_nat lo + c i ≤ length WI)%nat as Hlen.
    { apply (f_equal length) in Hs. rewrite length_take, length_drop in Hs.
      pose proof (Hc i ltac:(lia)) as Hci1. unfold c in *. lia. }
    unfold np_slice, np_bound. rewrite !decide_False by lia.
    rewrite !Z.min_l by lia.
    replace (Z.to_nat (lo + Z.of_nat (c i) - lo)) with (c i) by lia.
    exact Hs.
Qed.

Lemma column_starts_neighbors_witness :
  length (column_starts (sparse_find path3).1.2) = 4%nat ∧
  ∃ lo hi, np_get (column_starts (sparse_find path3).1.2) 1 = Ok lo ∧
    np_get (column_starts (sparse_find path3).1.2) 2 = Ok hi ∧
    np_slice (sparse_find path3).1.1 lo hi = column_rows path3 1.
Proof.
  destruct (column_starts_neighbors path3) as [Hl Hs]; [reflexivity..|done|].
  split; [done|]. apply (Hs 1%nat). cbn. lia.
Defined.
(** ** [graph_ssl] *)

Lemma np_get_elem {A} (a : list A) (i : Z) (x : A) : np_get a i = Ok x → x ∈ a.
Proof.
  unfold np_get. intros H. inv_bind H. destruct (a !! a0) eqn:Hl; [|done].
  injection H as <-. by eapply list_elem_of_lookup_2.
Qed.

Lemma np_take_elem {A} (a : list A) (l : list Z) : ∀ r,
  np_take a l = Ok r → Forall (λ x, x ∈ a) r.
Proof.
  induction l as [|i l IH]; intros r H; cbn [np_take] in H.
  { injection H as <-. done. }
  inv_bind H. injection H as <-. apply Forall_cons. split.
  - by eapply np_get_elem.
  - by apply IH.
Qed.

(** X25. The labels that [graph_ssl] returns ([return_vector=False]) are
    always among the given label values [g], whatever the method and the
    solution it computed, and the labeled vertices get their given
    labels: the last step assigns [labels[I] = g]. *)
Theorem graph_ssl_labels
    (cg : matrix → list Q → option (list Q) → Q → matrix → list Q)
    (cgp : option cgraphpy) (fuel : nat) (W : matrix) (I g : list Z)
    (D : option matrix) (beta : option (list Q)) (method : ssl_method) (T : Z)
    (use_cuda : bool) (labels : list Z) :
  graph_ssl cg cgp fuel W I g D beta method T use_cuda false = Ok (inr labels) →
  Forall (λ x, x ∈ g) labels ∧
  (NoDup I → Forall (λ i, 0 ≤ i < Z.of_nat (length labels)) I →
   ∀ t i x, I !! t = Some i → g !! t = Some x → labels !! Z.to_nat i = Some x).
Proof.
  unfold graph_ssl. intros H. destruct (decide (ncols W ≠ nrows W)); [done|].
  inv_bind H. destruct (decide (nrows a = O)); [done|]. inv_bind H.
  injection H as <-. pose proof (np_take_elem _ _ _ E0) as Htake.
  pose proof (np_put_length _ _ _ _ E1) as Hlen. split.
  - apply Forall_forall. intros x Hx.
    destruct (np_put_elem _ _ _ _ x E1 Hx) as [Hin|Hin]; [|done].
    apply elem_of_np_unique. by apply (proj1 (Forall_forall _ _) Htake).
  - intros Hnd Hr t i x Ht Hx. eapply np_put_lookup with (3 := E1); eauto.
    by rewrite <- Hlen.
Qed.

Lemma graph_ssl_labels_witness :
  graph_ssl zero_solver None 0 path3 [0; 2] [0; 1] None None method_laplace 0
    false false = Ok (inr [0; 0; 1]) ∧
  Forall (λ x, x ∈ [0; 1]) [0; 0; 1].
Proof.
  split; [by vm_compute|].
  apply (graph_ssl_labels zero_solver None 0 path3 [0; 2] [0; 1] None None
           method_laplace 0 false [0; 0; 1]).
  by vm_compute.
Defined.
(** ** [accuracy] *)

Lemma count_true_le (b : list bool) : (count_true b ≤ length b)%nat.
Proof. apply length_filter. Qed.

Lemma count_true_all (l : list Z) :
  count_true (zip_with (λ a b, bool_decide (a = b)) l l) = length l.
Proof.
  unfold count_true. induction l as [|x l IH]; [done|]. cbn [zip_with].
  rewrite bool_decide_eq_true_2 by done. rewrite filter_cons_True by done.
  cbn. by rewrite IH.
Qed.

(** X26. When more vertices have a known label than the [m] that are
    discounted, [accuracy] returns a number between 0 and 100, and 100 for
    a labeling that agrees with the true labels. *)
Theorem accuracy_bounds (L L_true : list Z) (m : Z) :
  length L = length L_true →
  m < Z.of_nat (length (filter (λ x, 0 ≤ x) L_true)) →
  ∃ a, accuracy L L_true m = Ok (Some a) ∧ (0 <= a <= 100)%Q ∧
    (L = L_true → (a == 100)%Q).
Proof.
  intros Hlen Hm. unfold accuracy. rewrite decide_False by (by intros ?).
  set (I := (λ x, bool_decide (0 ≤ x)) <$> L_true).
  assert (count_true I = length (filter (λ x, 0 ≤ x) L_true)) as HI.
  { unfold I, count_true. clear. induction L_true as [|x l IH]; [done|].
    rewrite fmap_cons, (filter_cons (λ x, 0 ≤ x)).
    destruct (decide (0 ≤ x)).
    - rewrite bool_decide_eq_true_2, filter_cons_True by done. cbn. by rewrite IH.
    - rewrite bool_decide_eq_false_2, filter_cons_False by done. done. }
  assert (length (np_mask L I) = count_true I) as HL
    by (apply np_mask_length; unfold I; by rewrite length_fmap).
  assert (length (np_mask L_true I) = count_true I) as HT
    by (apply np_mask_length; unfold I; by rewrite length_fmap).
  set (correct := count_true _).
  assert (correct ≤ length (np_mask L I))%nat as Hc.
  { unfold correct. etrans; [apply count_true_le|].
    rewrite length_zip_with. lia. }
  rewrite decide_False by lia. eexists. split; [done|].
  set (rest := Z.of_nat (length (np_mask L I)) - m).
  assert (0 < inject_Z rest)%Q as Hrest.
  { change 0%Q with (inject_Z 0). rewrite <- Zlt_Qlt. unfold rest. lia. }
  assert (0 <= inject_Z (Z.max (Z.of_nat correct - m) 0))%Q as H0.
  { change 0%Q with (inject_Z 0). rewrite <- Zle_Qle. lia. }
  assert (inject_Z (Z.max (Z.of_nat correct - m) 0) <= inject_Z rest)%Q as H1.
  { rewrite <- Zle_Qle. unfold rest. lia. }
  split; [split|].
  - apply Qle_shift_div_l; [done|]. rewrite Qmult_0_l.
    apply Qmult_le_0_compat; [by vm_compute|done].
  - apply Qle_shift_div_r; [done|]. apply Qmult_le_l; [by vm_compute|done].
  - intros ->. unfold correct, rest. rewrite count_true_all.
    rewrite Z.max_l by lia. field. intros Heq.
    apply Qlt_not_eq in Hrest. apply Hrest. symmetry. exact Heq.
Qed.

Lemma accuracy_bounds_witness :
  ∃ a, accuracy [0; 1; 1; 0] [0; 1; 0; -1] 1 = Ok (Some a) ∧ (0 <= a <= 100)%Q.
Proof.
  destruct (accuracy_bounds [0; 1; 1; 0] [0; 1; 0; -1] 1) as (a & Ha & Hb & _).
  - reflexivity.
  - by vm_compute.
  - by exists a.
Defined.

(** ** [poisson] without a label *)

(** X27. [poisson] with an empty array of labels raises [IndexError]
    before any matrix is set up, whatever the graph and the indices: the
    source term reads [g[0]]. *)
Theorem poisson_no_label (fuel : nat) (W : matrix) (I : list Z) (use_cuda : bool) :
  poisson fuel W I [] use_cuda = Raise IndexError.
Proof. done. Qed.
(** ** [nearestneighbor]: the labeled vertices keep their labels *)

Lemma np_get_flag (A : list bool) (j : Z) (b : bool) :
  0 ≤ j → np_get A j = Ok b → flag A j = b.
Proof.
  intros Hj H. apply np_get_Ok_nonneg in H; [|done].
  unfold flag, at_index. by rewrite H.
Qed.

Lemma np_get_nonneg_value (d : list Q) (i : Z) (x : Q) :
  Forall (λ x, (0 <= x)%Q) d → np_get d i = Ok x → (0 <= x)%Q.
Proof.
  intros Hd H. apply np_get_elem in H.
  exact (proj1 (Forall_forall _ _) Hd x H).
Qed.

Lemma entry_nonneg (W : matrix) (i j : nat) :
  Forall (Forall (λ x, (0 <= x)%Q)) W → (0 <= entry W i j)%Q.
Proof.
  intros HW. unfold entry. destruct (W !! i) as [r|] eqn:Hr; [|done]. cbn.
  destruct (r !! j) as [x|] eqn:Hx; [|done]. cbn.
  pose proof (Forall_lookup_1 _ _ _ _ HW Hr) as Hrow. cbn beta in Hrow.
  exact (Forall_lookup_1 _ _ _ _ Hrow Hx).
Qed.

Lemma sparse_find_nonneg (W : matrix) :
  Forall (Forall (λ x, (0 <= x)%Q)) W →
  Forall (λ x, (0 <= x)%Q) (sparse_find W).2.
Proof.
  intros HW. unfold sparse_find. cbn [snd]. apply Forall_fmap.
  unfold find_triplets. apply Forall_bind, Forall_forall. intros j _.
  apply Forall_bind, Forall_forall. intros i _. unfold find_cell.
  unfold compose. destruct (Qnonzero (entry W i j)); [|constructor].
  constructor; [|constructor]. cbn. by apply entry_nonneg.
Qed.

(** Starting from a labeled vertex sets its distance to 0 and makes it its
    own closest label. *)
Lemma push_source_sources (S : list Z) (st st' : dijkstra) (v : Z) :
  sources_inv S st → 0 ≤ v → Forall (λ s, 0 ≤ s) S →
  push_source st v = Ok st' → sources_inv (v :: S) st'.
Proof.
  destruct st as [d l s h A p V]. unfold sources_inv, push_source.
  cbn [dj_d dj_l dj_s dj_h dj_A dj_p dj_V].
  intros [Hd Hsrc] Hv HS H. inv_bind H. destruct a as [[h' p'] s'].
  inv_bind H. injection H as <-. cbn [dj_d dj_l dj_s dj_h dj_A dj_p dj_V].
  apply np_set_Ok_nonneg in E0 as [-> Hvd]; [|done].
  apply np_set_Ok_nonneg in E1 as [-> HvA]; [|done].
  apply np_set_Ok_nonneg in E2 as [-> Hvl]; [|done].
  split; [by apply Forall_insert|]. intros w Hw.
  destruct (decide (w = v)) as [->|Hne].
  - rewrite !at_index_insert_eq by lia. unfold flag.
    rewrite at_index_insert_eq by lia. split; [done|]. split; [done|by left].
  - apply elem_of_cons in Hw as [?|Hw]; [done|].
    pose proof (proj1 (Forall_forall _ _) HS w Hw) as Hw0. cbn beta in Hw0.
    rewrite !at_index_insert_ne by lia. unfold flag.
    rewrite at_index_insert_ne by lia. by apply Hsrc.
Qed.

Lemma push_sources_sources (I : list Z) : ∀ (S : list Z) (st st' : dijkstra),
  sources_inv S st → Forall (λ s, 0 ≤ s) I → Forall (λ s, 0 ≤ s) S →
  for_each push_source st I = Ok st' → sources_inv (reverse I ++ S) st'.
Proof.
  induction I as [|v I IH]; intros S st st' Hsrc HI HS H; cbn [for_each] in H.
  { injection H as <-. done. }
  inv_bind H. apply Forall_cons in HI as [Hv HI].
  rewrite reverse_cons, <- app_assoc. cbn [app].
  apply (IH (v :: S) a); [|done| |done].
  - by apply (push_source_sources S st).
  - by apply Forall_cons.
Qed.

(** With weights that are not negative, the relaxation of a neighbor
    leaves the labeled vertices alone: their distance 0 is never
    improved, and they are never pushed a second time. *)
Lemma update_neighbor_sources (S : list Z) (WV : list Q) (i : Z)
    (st st' : dijkstra) (j : Z) :
  sources_inv S st → 0 ≤ i → 0 ≤ j → Forall (λ s, 0 ≤ s) S →
  Forall (λ x, (0 <= x)%Q) WV →
  update_neighbor WV i st j = Ok st' → sources_inv S st'.
Proof.
  destruct st as [d l s h A p V]. unfold sources_inv, update_neighbor.
  cbn [dj_d dj_l dj_s dj_h dj_A dj_p dj_V].
  intros [Hd Hsrc] Hi Hj HS HWV H.
  destruct (decide (j = i)) as [Hji|Hji]; [by injection H as <-|].
  inv_bind H. destruct a; [by injection H as <-|].
  apply np_get_flag in E; [|done].
  inv_bind H. apply np_get_flag in E0; [|done]. destruct a.
  - inv_bind H. destruct (Qltb (a + a0) a1) eqn:Hlt; [|by injection H as <-].
    inv_bind H. destruct a4 as [h' p']. inv_bind H. injection H as <-.
    cbn [dj_d dj_l dj_s dj_h dj_A dj_p dj_V].
    pose proof (np_get_nonneg_value _ _ _ Hd E1) as Hdi.
    pose proof (np_get_nonneg_value _ _ _ HWV E2) as Hwj.
    apply np_get_Ok_nonneg in E3; [|done].
    apply Qltb_lt in Hlt.
    apply np_set_Ok_nonneg in E4 as [-> Hjd]; [|done].
    apply np_set_Ok_nonneg in E8 as [-> Hjl]; [|done].
    split.
    { apply Forall_insert; [done|]. lra. }
    intros w Hw. pose proof (proj1 (Forall_forall _ _) HS w Hw) as Hw0.
    cbn beta in Hw0. destruct (Hsrc w Hw) as (Hdw & Hlw & Hfw).
    assert (w ≠ j) as Hne.
    { intros ->. unfold at_index in Hdw. rewrite E3 in Hdw. cbn in Hdw. lra. }
    rewrite !at_index_insert_ne by lia. done.
  - inv_bind H. destruct a as [[h' p'] s']. inv_bind H. injection H as <-.
    cbn [dj_d dj_l dj_s dj_h dj_A dj_p dj_V].
    pose proof (np_get_nonneg_value _ _ _ Hd E2) as Hdi.
    pose proof (np_get_nonneg_value _ _ _ HWV E3) as Hwj.
    apply np_set_Ok_nonneg in E4 as [-> Hjd]; [|done].
    apply np_set_Ok_nonneg in E5 as [-> HjA]; [|done].
    apply np_set_Ok_nonneg in E7 as [-> Hjl]; [|done].
    split.
    { apply Forall_insert; [done|]. lra. }
    intros w Hw. pose proof (proj1 (Forall_forall _ _) HS w Hw) as Hw0.
    cbn beta in Hw0. destruct (Hsrc w Hw) as (Hdw & Hlw & Hfw).
    assert (w ≠ j) as Hne.
    { intros ->. destruct Hfw; congruence. }
    rewrite !at_index_insert_ne by lia. unfold flag.
    rewrite at_index_insert_ne by lia. done.
Qed.

Lemma update_neighbors_sources (S : list Z) (WV : list Q) (i : Z)
    (xs : list Z) : ∀ (st st' : dijkstra),
  sources_inv S st → 0 ≤ i → Forall (λ j, 0 ≤ j) xs →
  Forall (λ s, 0 ≤ s) S → Forall (λ x, (0 <= x)%Q) WV →
  for_each (update_neighbor WV i) st xs = Ok st' → sources_inv S st'.
Proof.
  induction xs as [|j xs IH]; intros st st' Hsrc Hi Hxs HS HWV H;
    cbn [for_each] in H.
  { by injection H as <-. }
  inv_bind H. apply Forall_cons in Hxs as [Hj Hxs].
  apply (IH a st'); try done.
  by apply (update_neighbor_sources S WV i st a j).
Qed.

(** The loop of Dijkstra's algorithm keeps the labeled vertices as they
    were pushed. *)
Lemma dijkstra_loop_sources (n : nat) (S WI K : list Z) (WV : list Q)
    (fuel : nat) : ∀ (st st' : dijkstra),
  dijkstra_inv n st → sources_inv S st →
  Forall (λ j, 0 ≤ j < Z.of_nat n) WI → (Datatypes.S n ≤ length K)%nat →
  (n ≤ length WV)%nat → Forall (λ x, (0 <= x)%Q) WV →
  Forall (λ s, 0 ≤ s) S →
  dijkstra_loop fuel WI K WV st = Ok st' → sources_inv S st'.
Proof.
  induction fuel as [|fuel IH]; intros st st' Hinv Hsrc HWI HK HWV Hnn HS H.
  - destruct st as [d l s h A p V]. cbn [dijkstra_loop dj_s] in H.
    destruct (decide (s > 0)) as [Hs|Hs]; [done|]. by injection H as <-.
  - destruct st as [d l s h A p V]. cbn [dijkstra_loop dj_s] in H.
    destruct (decide (s > 0)) as [Hs|Hs]; [|by injection H as <-].
    pose proof Hinv as (Hd & Hl & HA & HV & Hwf & Hlr & HAh & HAV).
    cbn [dj_d dj_l dj_s dj_h dj_A dj_p dj_V] in *.
    pose proof (heap_slot_range d h p s 1 Hwf ltac:(lia)) as Hr.
    destruct (PopHeap_wf d h p s Hwf ltac:(lia))
      as (h' & p' & Hrun & Hwf' & Hel & _).
    rewrite Hrun in H. cbn [mbind result_bind] in H.
    rewrite !np_set_nonneg in H by lia. cbn [mbind result_bind] in H.
    rewrite (np_get_at_index 0 K (hv h 1)) in H by lia.
    cbn [mbind result_bind] in H.
    rewrite (np_get_at_index 0 K (hv h 1 + 1)) in H by lia.
    cbn [mbind result_bind] in H.
    assert (flag A (hv h 1) = true) as HA1.
    { apply HAh; [lia|]. exists 1. split; [lia|done]. }
    assert (flag V (hv h 1) = false) as HV1 by (apply HAV; [lia|done]).
    set (st1 := {| dj_d := d; dj_l := l; dj_s := s - 1; dj_h := h';
                   dj_A := <[Z.to_nat (hv h 1) := false]> A; dj_p := p';
                   dj_V := <[Z.to_nat (hv h 1) := true]> V |}) in *.
    assert (dijkstra_inv n st1) as Hinv1.
    { unfold dijkstra_inv, st1. cbn [dj_d dj_l dj_s dj_h dj_A dj_p dj_V].
      rewrite !length_insert. split; [done|]. split; [done|]. split; [done|].
      split; [done|]. split; [done|]. split; [done|]. split.
      - intros w Hw. rewrite Hel. destruct (decide (w = hv h 1)) as [->|Hne].
        + rewrite flag_insert_eq by lia. split; [done|]. by intros [_ ?].
        + rewrite flag_insert_ne by lia. rewrite HAh by done.
          split; [done|]. by intros [? _].
      - intros w Hw. destruct (decide (w = hv h 1)) as [->|Hne].
        + rewrite flag_insert_eq by lia. done.
        + rewrite !flag_insert_ne by lia. by apply HAV. }
    assert (sources_inv S st1) as Hsrc1.
    { destruct Hsrc as [Hdn Hsrc]. split; [done|]. intros w Hw.
      pose proof (proj1 (Forall_forall _ _) HS w Hw) as Hw0. cbn beta in Hw0.
      destruct (Hsrc w Hw) as (Hdw & Hlw & Hfw).
      unfold st1. cbn [dj_d dj_l dj_s dj_h dj_A dj_p dj_V] in *.
      split; [done|]. split; [done|].
      destruct (decide (w = hv h 1)) as [->|Hne].
      - right. by rewrite flag_insert_eq by lia.
      - by rewrite !flag_insert_ne by lia. }
    destruct (update_neighbors_inv n WV (hv h 1)
                (np_slice WI (at_index 0 K (hv h 1)) (at_index 0 K (hv h 1 + 1)))
                st1 Hinv1 ltac:(lia) (np_slice_Forall _ _ _ _ HWI) HWV)
      as (st2 & Hrun2 & Hinv2 & HV2).
    rewrite Hrun2 in H. cbn [mbind result_bind] in H.
    apply (IH st2 st'); try done.
    apply (update_neighbors_sources S WV (hv h 1)
             (np_slice WI (at_index 0 K (hv h 1)) (at_index 0 K (hv h 1 + 1)))
             st1 st2); try done; [lia|].
    apply np_slice_Forall. eapply Forall_impl; [exact HWI|].
    intros j Hj. cbn beta in *. lia.
Qed.

(** The closest-label index of a labeled vertex is the vertex itself. *)
Lemma dijkstra_python_sources (W : matrix) (I : list Z) :
  ncols W = nrows W → no_empty_column W = true →
  NoDup I → Forall (λ i, 0 ≤ i < Z.of_nat (nrows W)) I →
  Forall (Forall (λ x, (0 <= x)%Q)) W →
  ∃ st, dijkstra_python W I = Ok st ∧ dijkstra_inv (nrows W) st ∧
    ∀ s, s ∈ I → dj_l st !! Z.to_nat s = Some s.
Proof.
  intros Hsq Hne Hnd HI HW.
  destruct (dijkstra_python_returns W I Hsq Hne Hnd HI) as (st & Hrun & Hinv).
  exists st. split; [done|]. split; [done|].
  unfold dijkstra_python in Hrun.
  pose proof (sparse_find_rows W) as HWI.
  pose proof (sparse_find_starts W Hne) as HK.
  pose proof (sparse_find_values W Hne) as HWV.
  pose proof (sparse_find_nonneg W HW) as Hnn.
  destruct (sparse_find W) as [[WI WJ] WV]. cbn [fst snd] in *.
  rewrite Hsq in HK, HWV.
  destruct (push_sources_inv (nrows W) I (dijkstra_init (nrows W)))
    as (st0 & Hrun0 & Hinv0 & HV0); [apply dijkstra_init_inv|done|done| |].
  { apply Forall_forall. intros i Hi.
    pose proof (proj1 (Forall_forall _ _) HI i Hi) as Hr. cbn beta in Hr.
    unfold dijkstra_init, flag, at_index. cbn [dj_A dj_V].
    by rewrite lookup_replicate_2 by lia. }
  rewrite Hrun0 in Hrun. cbn [mbind result_bind] in Hrun.
  assert (Forall (λ s, 0 ≤ s) I) as HI0.
  { eapply Forall_impl; [exact HI|]. intros i Hi. cbn beta in *. lia. }
  assert (sources_inv (reverse I ++ []) st0) as Hsrc0.
  { apply (push_sources_sources I [] (dijkstra_init (nrows W))); try done.
    split; [|by intros s Hs%elem_of_nil].
    unfold dijkstra_init. cbn [dj_d]. by apply Forall_replicate. }
  rewrite app_nil_r in Hsrc0.
  assert (sources_inv (reverse I) st) as [_ Hsrc].
  { apply (dijkstra_loop_sources (nrows W) (reverse I) WI (column_starts WJ) WV
             (nrows W + length I) st0 st); try done.
    by apply Forall_reverse. }
  intros s Hs. destruct (Hsrc s) as (_ & Hl & _); [by apply elem_of_reverse|].
  pose proof (proj1 (Forall_forall _ _) HI s Hs) as Hr. cbn beta in Hr.
  destruct Hinv as (_ & Hll & _).
  destruct (lookup_lt_is_Some_2 (dj_l st) (Z.to_nat s)) as [x Hx]; [lia|].
  unfold at_index in Hl. rewrite Hx in Hl. cbn in Hl. by subst x.
Qed.

Lemma np_take_lookup {A} (a : list A) (l : list Z) : ∀ (r : list A) (j : nat) (i : Z),
  np_take a l = Ok r → l !! j = Some i →
  ∃ y, r !! j = Some y ∧ np_get a i = Ok y.
Proof.
  induction l as [|i0 l IH]; intros r j i H Hj; [done|].
  cbn [np_take] in H. inv_bind H. injection H as <-.
  destruct j as [|j]; simplify_eq/=; [by eexists|]. by eapply IH.
Qed.

Lemma nearestneighbor_sources (W : matrix) (I g : list Z) :
  ncols W = nrows W → no_empty_column W = true →
  NoDup I → Forall (λ i, 0 ≤ i < Z.of_nat (nrows W)) I →
  length g = length I → Forall (λ x, 0 ≤ x) g →
  Forall (Forall (λ x, (0 <= x)%Q)) W →
  ∃ X labels, nearestneighbor None W I g = Ok X ∧
    StronglySorted Z.lt labels ∧
    ∀ t i x, I !! t = Some i → g !! t = Some x →
      ∃ c, labels !! c = Some x ∧
        ∀ r, (r < length labels)%nat →
          entry X r (Z.to_nat i) = if decide (c = r) then 1%Q else 0%Q.
Proof.
  intros Hsq Hne Hnd HI Hg Hg0 HW.
  destruct (dijkstra_python_sources W I Hsq Hne Hnd HI HW)
    as (st & Hrun & Hinv & Hsrc).
  unfold nearestneighbor. destruct (sparse_find W) as [[WI WJ] WV].
  rewrite Hrun. cbn [mbind result_bind].
  destruct Hinv as (_ & Hl & _ & _ & _ & Hlr & _).
  unfold labels_of_nearest.
  destruct (np_put_Ok I (replicate (nrows W) 0) g) as [u Hu];
    [by rewrite length_replicate|done|].
  rewrite Hu. cbn [mbind result_bind].
  pose proof (np_put_length _ _ _ _ Hu) as Hlen. rewrite length_replicate in Hlen.
  destruct (np_take_Ok u (dj_l st)) as [ul Hul].
  { apply Forall_forall. intros x Hin.
    pose proof (proj1 (Forall_forall _ _) Hlr x Hin) as Hx. cbn beta in Hx.
    assert (0 < length (dj_l st))%nat
      by (destruct (dj_l st); [by apply elem_of_nil in Hin|cbn; lia]).
    lia. }
  rewrite Hul. cbn [mbind result_bind].
  assert (Forall (λ x, 0 ≤ x) ul) as Hul0.
  { eapply Forall_impl; [exact (np_take_elem _ _ _ Hul)|].
    intros x Hx. cbn beta in Hx.
    destruct (np_put_elem _ _ _ _ x Hu Hx) as [Hin|Hin].
    - apply elem_of_replicate in Hin as [-> _]. done.
    - exact (proj1 (Forall_forall _ _) Hg0 x Hin). }
  destruct (LabelsToVec_indices ul Hul0) as (X & L' & HX & Hcol).
  rewrite HX. cbn [mbind result_bind]. exists X, (np_unique ul).
  split; [done|]. split; [apply np_unique_sorted|].
  intros t i x Ht Hx.
  assert (i ∈ I) as Hi by (by eapply list_elem_of_lookup_2).
  pose proof (proj1 (Forall_forall _ _) HI i Hi) as Hr. cbn beta in Hr.
  destruct (np_take_lookup u (dj_l st) ul (Z.to_nat i) i Hul (Hsrc i Hi))
    as (y & Hy & Hget).
  apply np_get_Ok_nonneg in Hget; [|lia].
  assert (u !! Z.to_nat i = Some x) as Hux.
  { apply (np_put_lookup I (replicate (nrows W) 0) u g t i x); try done.
    by rewrite length_replicate. }
  rewrite Hux in Hget. injection Hget as <-.
  destruct (Hcol (Z.to_nat i) x Hy) as (c & Hc & _ & He). by exists c.
Qed.

(** X28. On a graph without a negative weight, in which every vertex
    has a stored entry in its column, the portable [nearestneighbor]
    gives every labeled vertex its own label: for distinct labeled
    vertices [I] with labels [g] that are not negative, column [I[t]] of
    the result is the unit vector of the class of [g[t]]. *)
Theorem nearestneighbor_keeps_labels (W : matrix) (I g : list Z) :
  ncols W = nrows W → no_empty_column W = true →
  NoDup I → Forall (λ i, 0 ≤ i < Z.of_nat (nrows W)) I →
  length g = length I → Forall (λ x, 0 ≤ x) g →
  Forall (Forall (λ x, (0 <= x)%Q)) W →
  ∃ X labels, nearestneighbor None W I g = Ok X ∧
    StronglySorted Z.lt labels ∧
    ∀ t i x, I !! t = Some i → g !! t = Some x →
      ∃ c, labels !! c = Some x ∧
        ∀ r, (r < length labels)%nat →
          entry X r (Z.to_nat i) = if decide (c = r) then 1%Q else 0%Q.
Proof. apply nearestneighbor_sources. Qed.

Lemma nearestneighbor_keeps_labels_witness :
  ∃ X labels, nearestneighbor None path3 [0; 2] [0; 1] = Ok X ∧
    StronglySorted Z.lt labels ∧
    ∀ (t : nat) (i x : Z), ([0; 2] : list Z) !! t = Some i →
      ([0; 1] : list Z) !! t = Some x →
      ∃ c, labels !! c = Some x ∧
        ∀ r, (r < length labels)%nat →
          entry X r (Z.to_nat i) = if decide (c = r) then 1%Q else 0%Q.
Proof.
  apply (nearestneighbor_keeps_labels path3 [0; 2] [0; 1]).
  - reflexivity.
  - reflexivity.
  - by apply (bool_decide_unpack _).
  - repeat (constructor; [by vm_compute|]). constructor.
  - reflexivity.
  - repeat (constructor; [by vm_compute|]). constructor.
  - repeat (constructor; [repeat (constructor; [by vm_compute|]); constructor|]).
    constructor.
Defined.
(** ** A graph with a single vertex *)


